(** * JavSP [javsp/file.py]: file discovery, slice grouping and duplicate keys

    A shallow embedding of the functions of [javsp/file.py] that find the
    movie files below a folder, group them by identifier, recognise the
    slices of one movie and normalise identifiers for duplicate detection.

    Modelling conventions.
    - A Python [str] is a [list ascii]; the characters are code points and
      the model covers ASCII text: case mapping acts on the letters
      [a-z]/[A-Z] only and the white space of [str.strip] and of the regular
      expression class [\s] is the ASCII white space (code points 9-13,
      28-31 and 32).
    - A Python [dict] is an association list in insertion order with unique
      keys; a Python [set] of strings is a [gset].
    - A raised exception is the [Raise] result of the [result] type.
    - The file system is a tree of directories and regular files whose top
      is the root directory [/], which is also the working directory. *)

From Stdlib Require Import Ascii String List Arith Lia Bool.
From stdpp Require Import base option list strings gmap sorting.

Import ListNotations.
Local Open Scope list_scope.

#[local] Set Warnings "-register-all".

(** ** Python strings *)

Definition str : Type := list ascii.

(** [py "abc"] is the Python string [abc]. *)
Definition py (s : string) : str := list_ascii_of_string s.

Definition ord (c : ascii) : nat := nat_of_ascii c.
Definition chr (n : nat) : ascii := ascii_of_nat n.

(** [str.isspace] on one ASCII character, also the class [\s]: the code
    points 9 to 13 and 28 to 32. *)
Definition is_space (c : ascii) : bool :=
  let n := ord c in
  ((9 <=? n) && (n <=? 13)) || ((28 <=? n) && (n <=? 32)).

Definition is_lower (c : ascii) : bool := (97 <=? ord c) && (ord c <=? 122).
Definition is_upper (c : ascii) : bool := (65 <=? ord c) && (ord c <=? 90).
Definition is_digit (c : ascii) : bool := (48 <=? ord c) && (ord c <=? 57).

Definition upper_char (c : ascii) : ascii :=
  if is_lower c then chr (ord c - 32) else c.
Definition lower_char (c : ascii) : ascii :=
  if is_upper c then chr (ord c + 32) else c.

(** [s.upper()] and [s.lower()]. *)
Definition upper (s : str) : str := map upper_char s.
Definition lower (s : str) : str := map lower_char s.

(** Text made of ASCII characters only.  On such text [is_space], [upper]
    and [lower] are Python's.  Outside it Python knows more white space
    (U+0085, U+00A0) and more letters, which these definitions leave as
    they are: what is stated below about the white space or the letter case
    of an arbitrary text is stated for ASCII text. *)
Definition is_ascii (c : ascii) : bool := ord c <? 128.
Definition ascii_text (s : str) : Prop := forallb is_ascii s = true.

Fixpoint lstrip_by (p : ascii -> bool) (s : str) : str :=
  match s with
  | [] => []
  | c :: s' => if p c then lstrip_by p s' else s
  end.

Definition rstrip_by (p : ascii -> bool) (s : str) : str :=
  rev (lstrip_by p (rev s)).

(** [s.strip()]: leading and trailing white space removed. *)
Definition strip (s : str) : str := rstrip_by is_space (lstrip_by is_space s).

(** [s.endswith(suffix)] and [s.startswith(prefix)]. *)
Definition endswith (s suffix : str) : bool := bool_decide (suffix `suffix_of` s).
Definition startswith (s prefix : str) : bool := bool_decide (prefix `prefix_of` s).

(** [s[:-k]]; Python reads [s[:-0]] as [s[:0]]. *)
Definition slice_to_neg (k : nat) (s : str) : str :=
  match k with
  | 0 => []
  | _ => take (length s - k) s
  end.

(** Python truthiness of an optional string: [None] and [''] are false. *)
Definition truthy (v : option str) : bool :=
  match v with
  | Some (_ :: _) => true
  | _ => false
  end.

(** ** [_normalize_duplicate_avid] *)

Definition _DUPLICATE_SUFFIXES : list str := [py "-UC"; py "-C"].

(** The [for suffix in _DUPLICATE_SUFFIXES] loop of one [while] round: the
    first suffix that [avid] ends with is cut off; [None] when [removed]
    stays [False]. *)
Fixpoint remove_first_suffix (suffixes : list str) (avid : str) : option str :=
  match suffixes with
  | [] => None
  | suffix :: rest =>
      if endswith avid suffix then Some (slice_to_neg (length suffix) avid)
      else remove_first_suffix rest avid
  end.

(** The [while True] loop; every round that goes on has shortened [avid], so
    [length avid] rounds after the first are enough. *)
Fixpoint strip_suffixes (fuel : nat) (avid : str) : str :=
  match remove_first_suffix _DUPLICATE_SUFFIXES avid with
  | None => avid
  | Some avid' =>
      match fuel with
      | 0 => avid'
      | S fuel' => strip_suffixes fuel' avid'
      end
  end.

Definition _normalize_duplicate_avid (value : option str) : option str :=
  if truthy value then
    match value with
    | Some v =>
        let avid := upper (strip v) in
        Some (strip_suffixes (length avid) avid)
    | None => None
    end
  else None.

(** The normaliser as the specification words it: from the upper-cased,
    trimmed string, remove the first suffix of the list that matches and
    start again, until none matches. *)
Inductive fully_stripped : str -> str -> Prop :=
| stripped_done (s : str) :
    (forall suffix, In suffix _DUPLICATE_SUFFIXES -> ~ suffix `suffix_of` s) ->
    fully_stripped s s
| stripped_step (s suffix body r : str) (skipped : list str) (later : list str) :
    _DUPLICATE_SUFFIXES = skipped ++ suffix :: later ->
    (forall other, In other skipped -> ~ other `suffix_of` s) ->
    s = body ++ suffix ->
    fully_stripped body r ->
    fully_stripped s r.

(** ** Exceptions *)

Inductive exn : Type :=
| OSError      (* a failed file-system call *)
| ValueError   (* [list.remove(x)] without [x], [relpath] of an empty path *)
| IndexError   (* [s[0]] of an empty string *)
| KeyError     (* a missing [dict] key *)
| ReError.     (* [re.error] raised by [re.compile] *)

Inductive result (A : Type) : Type :=
| Return (a : A)
| Raise (e : exn).

Arguments Return {A} a.
Arguments Raise {A} e.

(** Sequencing: the first exception raised ends the computation. *)
#[global] Instance result_ret : MRet result := fun A a => Return a.
#[global] Instance result_bind : MBind result := fun A B k r =>
  match r with
  | Return a => k a
  | Raise e => Raise e
  end.

(** A loop whose body can raise: [for x in l: acc = body(acc, x)]. *)
Fixpoint for_each {A S : Type} (body : S -> A -> result S) (l : list A) (acc : S)
  : result S :=
  match l with
  | [] => Return acc
  | x :: l' => acc' ← body acc x; for_each body l' acc'
  end.

(** ** More of [str] *)

Definition char_eqb (a b : ascii) : bool := Ascii.eqb a b.

Definition slash : ascii := "/"%char.
Definition newline : ascii := chr 10.

(** [s.replace(a, b)] for single characters. *)
Definition replace_char (a b : ascii) (s : str) : str :=
  map (fun c => if char_eqb c a then b else c) s.

(** [s.find(c)]; [None] stands for -1. *)
Fixpoint find_char (c : ascii) (s : str) : option nat :=
  match s with
  | [] => None
  | a :: s' => if char_eqb a c then Some 0 else S <$> find_char c s'
  end.

(** [s.rfind(c)]; [s.rfind(c, 0, n)] is [rfind_char c (take n s)]. *)
Fixpoint rfind_char (c : ascii) (s : str) : option nat :=
  match s with
  | [] => None
  | a :: s' =>
      match rfind_char c s' with
      | Some i => Some (S i)
      | None => if char_eqb a c then Some 0 else None
      end
  end.

(** [s.split(sep)] for a one-character separator. *)
Fixpoint split_on (sep : ascii) (s : str) : list str :=
  match s with
  | [] => [[]]
  | c :: s' =>
      if char_eqb c sep then [] :: split_on sep s'
      else match split_on sep s' with
           | [] => [[c]]
           | w :: ws => (c :: w) :: ws
           end
  end.

(** [sep.join(l)]. *)
Fixpoint join_with (sep : str) (l : list str) : str :=
  match l with
  | [] => []
  | [s] => s
  | s :: l' => s ++ sep ++ join_with sep l'
  end.

(** [sub in s]. *)
Fixpoint contains (sub s : str) : bool :=
  startswith s sub ||
  match s with
  | [] => false
  | _ :: s' => contains sub s'
  end.

Definition nonempty (s : str) : bool :=
  match s with
  | [] => false
  | _ => true
  end.

Fixpoint take_while (p : ascii -> bool) (s : str) : str :=
  match s with
  | [] => []
  | c :: s' => if p c then c :: take_while p s' else []
  end.

(** ** [posixpath] *)

(** [os.path.join(a, b)]. *)
Definition path_join (a b : str) : str :=
  if startswith b [slash] then b
  else if negb (nonempty a) || endswith a [slash] then a ++ b
  else a ++ [slash] ++ b.

(** [os.path.split(p)]: the head loses its trailing slashes unless it is
    made of slashes only. *)
Definition path_split (p : str) : str * str :=
  let i := match rfind_char slash p with Some k => S k | None => 0 end in
  let head := take i p in
  let tail := drop i p in
  let head :=
    if nonempty head && negb (forallb (char_eqb slash) head)
    then rstrip_by (char_eqb slash) head else head in
  (head, tail).

Definition dirname (p : str) : str := fst (path_split p).

(** [os.path.basename(p)]. *)
Definition basename (p : str) : str :=
  let i := match rfind_char slash p with Some k => S k | None => 0 end in
  drop i p.

(** [os.path.splitext(p)[1]]: the extension starts at the last dot of the
    last component, unless only dots come before it there. *)
Definition splitext_ext (p : str) : str :=
  let sepIndex := rfind_char slash p in
  match rfind_char "."%char p with
  | None => []
  | Some dotIndex =>
      let filenameIndex := match sepIndex with Some k => S k | None => 0 end in
      if (filenameIndex <=? dotIndex) &&
         negb (forallb (char_eqb "."%char)
                 (take (dotIndex - filenameIndex) (drop filenameIndex p)))
      then drop dotIndex p else []
  end.

(** The component loop of [os.path.normpath]. *)
Fixpoint normpath_comps (initial_slashes : nat) (comps : list str) (new_comps : list str)
  : list str :=
  match comps with
  | [] => new_comps
  | comp :: rest =>
      if negb (nonempty comp) || bool_decide (comp = py ".") then
        normpath_comps initial_slashes rest new_comps
      else if negb (bool_decide (comp = py ".."))
              || ((initial_slashes =? 0) && bool_decide (new_comps = []))
              || bool_decide (last new_comps = Some (py "..")) then
        normpath_comps initial_slashes rest (new_comps ++ [comp])
      else
        normpath_comps initial_slashes rest (removelast new_comps)
  end.

(** [os.path.normpath(path)]. *)
Definition normpath (path : str) : str :=
  if negb (nonempty path) then py "."
  else
    let initial_slashes :=
      if startswith path [slash] then
        if startswith path [slash; slash] && negb (startswith path [slash; slash; slash])
        then 2 else 1
      else 0 in
    let new_comps := normpath_comps initial_slashes (split_on slash path) [] in
    let path := repeat slash initial_slashes ++ join_with [slash] new_comps in
    if nonempty path then path else py ".".

(** [os.path.commonprefix(l)] on strings: the longest common prefix. *)
Fixpoint common_prefix2 (a b : str) : str :=
  match a, b with
  | x :: a', y :: b' => if char_eqb x y then x :: common_prefix2 a' b' else []
  | _, _ => []
  end.

Definition commonprefix (l : list str) : str :=
  match l with
  | [] => []
  | s :: l' => fold_left common_prefix2 l' s
  end.

(** ** The file system *)

(** A regular file with its size in bytes, or a directory with its entries
    in the order the system lists them; a directory that is not readable
    cannot be listed.  [Broken] is a name that is listed but cannot be
    examined: a symbolic link to nothing, or a file of a folder that can be
    listed but not searched. *)
Inductive node : Type :=
| File (size : N)
| Dir (readable : bool) (entries : list (str * node))
| Broken.

Definition is_dir (n : node) : bool :=
  match n with
  | Dir _ _ => true
  | File _ => false
  | Broken => false
  end.

Fixpoint lookup_entry (name : str) (entries : list (str * node)) : option node :=
  match entries with
  | [] => None
  | (n, child) :: rest =>
      if bool_decide (n = name) then Some child else lookup_entry name rest
  end.

(** Path resolution from the directory [cur]; [above] holds the directories
    between the root and [cur], the nearest first. *)
Fixpoint resolve_from (above : list node) (cur : node) (comps : list str) : option node :=
  match comps with
  | [] => Some cur
  | comp :: rest =>
      match cur with
      | File _ => None
      | Broken => None
      | Dir _ entries =>
          if negb (nonempty comp) || bool_decide (comp = py ".") then
            resolve_from above cur rest
          else if bool_decide (comp = py "..") then
            match above with
            | [] => resolve_from [] cur rest
            | parent :: above' => resolve_from above' parent rest
            end
          else
            match lookup_entry comp entries with
            | None => None
            | Some child => resolve_from (cur :: above) child rest
            end
      end
  end.

(** The node a path names; relative and absolute paths both start at the
    top of the tree, and the empty path names nothing. *)
Definition resolve (fs : node) (path : str) : option node :=
  if nonempty path then resolve_from [] fs (split_on slash path) else None.

(** [os.path.isdir(path)]. *)
Definition isdir (fs : node) (path : str) : bool :=
  match resolve fs path with
  | Some n => is_dir n
  | None => false
  end.

(** [os.listdir] of a node. *)
Definition listdir_node (n : option node) : result (list str) :=
  match n with
  | Some (Dir true entries) => Return (map fst entries)
  | _ => Raise OSError
  end.

(** [os.listdir(path)]. *)
Definition listdir (fs : node) (path : str) : result (list str) :=
  listdir_node (resolve fs path).

(** ** Configuration *)

(** The options of [Cfg()] that this module reads.  [ignored_folder] is the
    [match] method of the alternation compiled from
    [scanner.ignored_folder_name_pattern]. *)
Record Cfg : Type := {
  output_folder_pattern : str;
  ignored_folder : str -> bool;
  skip_nfo_dir : bool;
  filename_extensions : list str;
  minimum_size : N
}.

(** ** [_split_output_pattern] *)

Definition _split_output_pattern (pattern : str) : str * list str :=
  let normalized := strip (replace_char "\"%char slash pattern) in
  let '(base, tail) :=
    match find_char "{"%char normalized with
    | None => (normalized, [])
    | Some first_placeholder =>
        match rfind_char slash (take first_placeholder normalized) with
        | None => ([], normalized)
        | Some last_sep => (take last_sep normalized, drop (S last_sep) normalized)
        end
    end in
  let base := rstrip_by (char_eqb slash) base in
  let segments := List.filter nonempty (split_on slash tail) in
  (base, segments).

(** ** [_compile_segment_regex] *)

(** The pieces of a compiled segment: escaped literal text, the named group
    [(?P<num>[^/]+)] and the plain [[^/]+]. *)
Inductive part : Type :=
| Lit (text : str)
| NumGroup
| Wildcard.

(** The compiled expression between [^] and [$]: the joined pieces, or [.+]
    when they are empty. *)
Inductive segment_regex : Type :=
| Pieces (parts : list part)
| AnyText.

(** A match of [_PLACEHOLDER_PATTERN], [\{([^}]+)\}], at the start of [s]:
    group 1. *)
Definition placeholder_at (s : str) : option str :=
  match s with
  | c :: s' =>
      if char_eqb c "{"%char then
        let name := take_while (fun a => negb (char_eqb a "}"%char)) s' in
        if nonempty name && startswith (drop (length name) s') [ "}"%char ]
        then Some name else None
      else None
  | [] => None
  end.

Definition part_of_name (name : str) : part :=
  if bool_decide (strip name = py "num") then NumGroup else Wildcard.

(** The [finditer] loop over [segment]: [skip] counts the characters of the
    current match still to pass, [literal] is [segment[last:]] so far. *)
Fixpoint scan_placeholders (s : str) (skip : nat) (literal : str) : list part :=
  match s with
  | [] => [Lit literal]
  | c :: s' =>
      match skip with
      | S k => scan_placeholders s' k literal
      | 0 =>
          match placeholder_at s with
          | Some name =>
              Lit literal :: part_of_name name
                :: scan_placeholders s' (S (length name)) []
          | None => scan_placeholders s' 0 (literal ++ [c])
          end
      end
  end.

Definition is_num_group (p : part) : bool :=
  match p with
  | NumGroup => true
  | _ => false
  end.

Definition is_empty_lit (p : part) : bool :=
  match p with
  | Lit [] => true
  | _ => false
  end.

(** [re.compile] refuses a group name that is defined twice. *)
Definition _compile_segment_regex (segment : str) : result segment_regex :=
  let parts := scan_placeholders segment 0 [] in
  if forallb is_empty_lit parts then Return AnyText
  else if 1 <? length (List.filter is_num_group parts) then Raise ReError
  else Return (Pieces parts).

(** ** Matching a compiled segment *)

Fixpoint first_some {A B : Type} (f : A -> option B) (l : list A) : option B :=
  match l with
  | [] => None
  | x :: l' =>
      match f x with
      | Some b => Some b
      | None => first_some f l'
      end
  end.

(** The lengths a greedy [[^/]+] tries at the start of [s], longest first. *)
Definition greedy_lengths (s : str) : list nat :=
  rev (seq 1 (length (take_while (fun a => negb (char_eqb a slash)) s))).

(** [$]: the end of the string, or the place before a last newline. *)
Definition at_end (s : str) : bool :=
  match s with
  | [] => true
  | [c] => char_eqb c newline
  | _ => false
  end.

(** Backtracking match of the pieces against [s]; the result is the text of
    group [num] if the group is there. *)
Fixpoint match_parts (parts : list part) (s : str) (num : option str)
  : option (option str) :=
  match parts with
  | [] => if at_end s then Some num else None
  | Lit text :: rest =>
      if startswith s text then match_parts rest (drop (length text) s) num else None
  | NumGroup :: rest =>
      first_some (fun n => match_parts rest (drop n s) (Some (take n s)))
                 (greedy_lengths s)
  | Wildcard :: rest =>
      first_some (fun n => match_parts rest (drop n s) num) (greedy_lengths s)
  end.

(** [regex.match(name)] followed by [match.groupdict().get('num')]:
    [None] when there is no match. *)
Definition regex_match (regex : segment_regex) (name : str) : option (option str) :=
  match regex with
  | Pieces parts => match_parts parts name None
  | AnyText =>
      let body := take_while (fun a => negb (char_eqb a newline)) name in
      if nonempty body && at_end (drop (length body) name) then Some None else None
  end.

(** ** [get_existing_summary_avids] *)

(** A candidate: a path and the [captured] dictionary, whose only key can be
    [num]. *)
Definition candidate : Type := str * option str.

(** The body of [for current_path, captured in candidates]: what it appends
    to [next_candidates]. *)
Definition expand_candidate (fs : node) (regex : segment_regex) (cand : candidate)
  : list candidate :=
  let '(current_path, captured) := cand in
  if negb (isdir fs current_path) then []
  else
    match listdir fs current_path with
    | Raise _ => []
    | Return entries =>
        flat_map
          (fun name =>
             let full_path := path_join current_path name in
             if negb (isdir fs full_path) then []
             else
               match regex_match regex name with
               | None => []
               | Some num_value =>
                   let data := if truthy num_value then num_value else captured in
                   [(full_path, data)]
               end)
          entries
    end.

(** The [for regex in compiled_segments] loop with its [break]. *)
Fixpoint expand_segments (fs : node) (compiled_segments : list segment_regex)
    (candidates : list candidate) : list candidate :=
  match compiled_segments with
  | [] => candidates
  | regex :: rest =>
      let next_candidates := flat_map (expand_candidate fs regex) candidates in
      match next_candidates with
      | [] => []
      | _ => expand_segments fs rest next_candidates
      end
  end.

(** The final loop: the normalised captures that are not empty. *)
Fixpoint collect_existing (candidates : list candidate) (existing : gset str) : gset str :=
  match candidates with
  | [] => existing
  | (_, capture) :: rest =>
      let normalized := _normalize_duplicate_avid capture in
      collect_existing rest
        (if truthy normalized
         then match normalized with
              | Some n => existing ∪ {[ n ]}
              | None => existing
              end
         else existing)
  end.

Definition get_existing_summary_avids (cfg : Cfg) (fs : node) (pattern : option str)
  : result (gset str) :=
  let pattern := default (output_folder_pattern cfg) pattern in
  if negb (contains (py "{num}") pattern) then Return ∅
  else
    let '(base_literal, segments) := _split_output_pattern pattern in
    if negb (bool_decide (segments <> [])) then Return ∅
    else
      let base_dir := if nonempty base_literal then base_literal else py "." in
      let base_dir := normpath base_dir in
      if negb (isdir fs base_dir) then Return ∅
      else
        compiled_segments ← for_each
            (fun acc seg => regex ← _compile_segment_regex seg; Return (acc ++ [regex]))
            segments [];
        let candidates := expand_segments fs compiled_segments [(base_dir, None)] in
        Return (collect_existing candidates ∅).

(** [os.path.abspath(path)] with the working directory [/]. *)
Definition abspath (path : str) : str :=
  normpath (if startswith path [slash] then path else path_join [slash] path).

Fixpoint common_prefix_list (a b : list str) : list str :=
  match a, b with
  | x :: a', y :: b' => if bool_decide (x = y) then x :: common_prefix_list a' b' else []
  | _, _ => []
  end.

(** [os.path.relpath(path, start)]. *)
Definition relpath (path start : str) : result str :=
  if negb (nonempty path) then Raise ValueError
  else
    let start_list := List.filter nonempty (split_on slash (abspath start)) in
    let path_list := List.filter nonempty (split_on slash (abspath path)) in
    let i := length (common_prefix_list start_list path_list) in
    let rel_list := repeat (py "..") (length start_list - i) ++ drop i path_list in
    match rel_list with
    | [] => Return (py ".")
    | first :: rest => Return (fold_left path_join rest first)
    end.

(** ** Python [dict] and [list] operations *)

Definition pydict (V : Type) : Type := list (str * V).

Fixpoint dict_get {V : Type} (k : str) (d : pydict V) : option V :=
  match d with
  | [] => None
  | (k', v) :: d' => if bool_decide (k' = k) then Some v else dict_get k d'
  end.

(** [k in d]. *)
Definition dict_has {V : Type} (k : str) (d : pydict V) : bool :=
  match dict_get k d with
  | Some _ => true
  | None => false
  end.

(** [d[k] = v]: a key that is there keeps its place, a new key goes last. *)
Fixpoint dict_set {V : Type} (k : str) (v : V) (d : pydict V) : pydict V :=
  match d with
  | [] => [(k, v)]
  | (k', v') :: d' =>
      if bool_decide (k' = k) then (k, v) :: d' else (k', v') :: dict_set k v d'
  end.

(** [del d[k]], for a key of [d]. *)
Definition dict_del {V : Type} (k : str) (d : pydict V) : pydict V :=
  List.filter (fun kv => negb (bool_decide (fst kv = k))) d.

(** [d.setdefault(k, []).append(x)]; also [d[k].append(x)] and
    [d[k] = [x]]. *)
Definition dict_append (k : str) (x : str) (d : pydict (list str)) : pydict (list str) :=
  match dict_get k d with
  | Some l => dict_set k (l ++ [x]) d
  | None => dict_set k [x] d
  end.

Definition keys {V : Type} (d : pydict V) : list str := map fst d.

(** [l.remove(x)]: the first [x] goes, [ValueError] when there is none. *)
Fixpoint list_remove (x : str) (l : list str) : result (list str) :=
  match l with
  | [] => Raise ValueError
  | y :: l' =>
      if bool_decide (y = x) then Return l'
      else l'' ← list_remove x l'; Return (y :: l'')
  end.

(** [l.index(x)]. *)
Fixpoint list_index (x : ascii) (l : list ascii) : result nat :=
  match l with
  | [] => Raise ValueError
  | y :: l' =>
      if char_eqb y x then Return 0 else i ← list_index x l'; Return (S i)
  end.

(** [l[i]]. *)
Definition list_at {A : Type} (l : list A) (i : nat) : result A :=
  match l !! i with
  | Some a => Return a
  | None => Raise IndexError
  end.

(** [[f(x) for x in l]] for an [f] that can raise. *)
Fixpoint map_result {A B : Type} (f : A -> result B) (l : list A) : result (list B) :=
  match l with
  | [] => Return []
  | x :: l' => y ← f x; ys ← map_result f l'; Return (y :: ys)
  end.

(** Order of strings, by code point, and of characters. *)
Fixpoint str_leb (a b : str) : bool :=
  match a, b with
  | [], _ => true
  | _ :: _, [] => false
  | x :: a', y :: b' =>
      if ord x <? ord y then true
      else if ord y <? ord x then false
      else str_leb a' b'
  end.

Definition str_le (a b : str) : Prop := str_leb a b = true.
Definition char_le (a b : ascii) : Prop := ord a <= ord b.

#[global] Instance str_le_dec : RelDecision str_le.
Proof. intros a b. unfold str_le. apply _. Defined.
#[global] Instance char_le_dec : RelDecision char_le.
Proof. intros a b. unfold char_le. apply _. Defined.

(** Order of the items of a [dict]: the keys differ, so they decide. *)
Definition item_le {V : Type} (a b : str * V) : Prop := str_le (fst a) (fst b).

#[global] Instance item_le_dec {V : Type} : RelDecision (@item_le V).
Proof. intros a b. unfold item_le. apply _. Defined.

(** ** The collaborators of [javsp.avid] and the records of [javsp.datatype] *)

(** Identifier extraction is not part of this module: [get_id] and
    [get_cid] give the identifier found in a path, if any, and
    [guess_av_type] the kind of data source of an identifier. *)
Class AvidLib : Type := {
  get_id : str -> option str;
  get_cid : str -> option str;
  guess_av_type : str -> str
}.

(** The attributes of a [Movie] that the scan sets. *)
Record Movie : Type := {
  dvdid : option str;
  cid : option str;
  files : list str;
  data_src : option str
}.

(** The text that stands for the identifier of a file without one. *)
Definition unrecognized_marker : str := py "无法识别番号".

(** What the scan writes, in order: the calls of [logger] and of [print],
    each with the values that its message is built from. *)
Inductive log_record : Type :=
| Print_skip (name : str)
| Error_no_avid (fullpath : str)
| Info_skipped_named (names : list str) (skipped_cnt : nat)
| Info_skipped (skipped_cnt : nat)
| Debug_skipped_files (skipped_files : list str)
| Debug_slices_unrecognized (prefix : str) (remaining : list str)
| Debug_slices_invalid (sorted_slices : list ascii)
| Error_duplicates (msg : str)
| Debug_data_src (avid src : str).

(** ** [scan_movies]: the walk *)

Record scan_state : Type := {
  dic : pydict (list str);
  small_videos : pydict (list str);
  failed_items : list Movie;
  log : list log_record
}.

Definition empty_state : scan_state :=
  {| dic := []; small_videos := []; failed_items := []; log := [] |}.

Section Scan.

Context `{AvidLib} (cfg : Cfg).

(** [avid = cid if cid else dvdid] *)
Definition avid_of (path : str) : option str :=
  let dvdid := get_id path in
  let cid := get_cid path in
  if truthy cid then cid else dvdid.

(** One round of [for name in dirnames.copy()]: [name] leaves [dirnames]
    when it matches the ignore pattern, and leaves it when the folder holds
    an nfo file and [skip_nfo_dir] is set. *)
Definition prune_step (entries : list (str * node)) (acc : list str * list log_record)
    (name : str) : result (list str * list log_record) :=
  let '(dirnames, out) := acc in
  dirnames ←
    (if ignored_folder cfg name then list_remove name dirnames else Return dirnames);
  if skip_nfo_dir cfg then
    listing ← listdir_node (lookup_entry name entries);
    if existsb (fun file => endswith (lower file) (py ".nfo")) listing then
      dirnames ← list_remove name dirnames;
      Return (dirnames, out ++ [Print_skip name])
    else Return (dirnames, out)
  else Return (dirnames, out).

(** [os.path.getsize] of a directory entry; for a directory the system
    gives the size of its own record, here one block.  The call is not
    guarded: an entry that cannot be examined raises [OSError]. *)
Definition getsize (n : option node) : result N :=
  match n with
  | Some (File size) => Return size
  | Some (Dir _ _) => Return 4096%N
  | Some Broken => Raise OSError
  | None => Raise OSError
  end.

(** One round of [for file in filenames]. *)
Definition visit_file (dirpath : str) (entries : list (str * node)) (st : scan_state)
    (file : str) : result scan_state :=
  let ext := lower (splitext_ext file) in
  if bool_decide (ext ∈ filename_extensions cfg) then
    let fullpath := path_join dirpath file in
    filesize ← getsize (lookup_entry file entries);
    if (filesize <? minimum_size cfg)%N then
      Return {| dic := dic st;
                small_videos := dict_append file fullpath (small_videos st);
                failed_items := failed_items st; log := log st |}
    else
      let avid := avid_of fullpath in
      if truthy avid then
        Return {| dic := dict_append (default [] avid) fullpath (dic st);
                  small_videos := small_videos st;
                  failed_items := failed_items st; log := log st |}
      else
        let fail := {| dvdid := Some unrecognized_marker; cid := None;
                       files := [fullpath]; data_src := None |} in
        Return {| dic := dic st; small_videos := small_videos st;
                  failed_items := failed_items st ++ [fail];
                  log := log st ++ [Error_no_avid fullpath] |}
  else Return st.

Definition walker : Type := scan_state -> result scan_state.

(** The body of [for dirpath, dirnames, filenames in os.walk(root)] for one
    directory, followed by the walk of the folders left in [dirnames];
    [subwalks] are the walks of the entries. *)
Definition visit_dir (dirpath : str) (entries : list (str * node))
    (subwalks : list (str * walker)) : walker :=
  fun st =>
    let dirnames := map fst (List.filter (fun e => is_dir (snd e)) entries) in
    let filenames := map fst (List.filter (fun e => negb (is_dir (snd e))) entries) in
    '(dirnames, out) ← for_each (prune_step entries) dirnames (dirnames, []);
    let st := {| dic := dic st; small_videos := small_videos st;
                 failed_items := failed_items st; log := log st ++ out |} in
    st ← for_each (visit_file dirpath entries) filenames st;
    for_each
      (fun st name =>
         match List.find (fun w => bool_decide (fst w = name)) subwalks with
         | Some (_, w) => w st
         | None => Return st
         end)
      dirnames st.

(** [os.walk(top)] with the loop body run at every directory it yields, top
    down.  A directory that cannot be listed yields nothing: [os.walk]
    ignores the error of [scandir]. *)
Fixpoint walk (dirpath : str) (n : node) {struct n} : walker :=
  match n with
  | Dir true entries =>
      visit_dir dirpath entries
        (map (fun e => (fst e, walk (path_join dirpath (fst e)) (snd e))) entries)
  | _ => fun st => Return st
  end.

(** The walk from [root]; a root that is missing or is not a directory
    fails in [scandir] like any other folder. *)
Definition scan_walk (fs : node) (root : str) : result scan_state :=
  match resolve fs root with
  | Some n => walk root n empty_state
  | None => Return empty_state
  end.

End Scan.

(** ** [scan_movies]: small videos *)

Section Finish.

Context `{AvidLib}.

(** [small_videos.pop(name)], for a key of [small_videos]. *)
Definition dict_pop (name : str) (d : pydict (list str)) : list str * pydict (list str) :=
  (default [] (dict_get name d), dict_del name d).

(** One round of [for name in list(small_videos.keys())]; the state is
    [dic], [small_videos] and [has_avid]. *)
Definition merge_step
    (acc : pydict (list str) * pydict (list str) * pydict str) (name : str)
  : pydict (list str) * pydict (list str) * pydict str :=
  let '(dic, small_videos, has_avid) := acc in
  let avid := avid_of name in
  match avid with
  | Some a =>
      match dict_get a dic with
      | Some group =>
          let '(popped, small_videos) := dict_pop name small_videos in
          (dict_set a (group ++ popped) dic, small_videos, has_avid)
      | None =>
          if truthy avid then (dic, small_videos, dict_set name a has_avid)
          else (dic, small_videos, has_avid)
      end
  | None => (dic, small_videos, has_avid)
  end.

Definition merge_small_videos (dic small_videos : pydict (list str))
  : pydict (list str) * pydict (list str) * pydict str :=
  fold_left merge_step (keys small_videos) (dic, small_videos, []).

(** [{k: sorted(v) for k, v in sorted(small_videos.items())}], chained. *)
Definition skipped_files_of (small_videos : pydict (list str)) : list str :=
  concat (map (fun kv => merge_sort str_le (snd kv))
              (merge_sort item_le small_videos)).

(** The messages about the files that stay skipped. *)
Definition report_skipped (small_videos : pydict (list str)) (has_avid : pydict str)
  : list log_record :=
  let skipped_files := skipped_files_of small_videos in
  let skipped_cnt := length skipped_files in
  if 0 <? skipped_cnt then
    [ if 0 <? length has_avid then Info_skipped_named (keys has_avid) skipped_cnt
      else Info_skipped skipped_cnt;
      Debug_skipped_files skipped_files ]
  else [].

(** ** [scan_movies]: slices *)

Definition is_alnum (c : ascii) : bool := is_lower c || is_upper c || is_digit c.

(** [s] starts with [prefix], letter case ignored. *)
Definition startswith_ci (s prefix : str) : bool :=
  bool_decide (lower prefix = lower (take (length prefix) s)).

(** Modelled from the spec: [re_escape] of [javsp.lib] is not among the
    sources; the escaped common prefix stands for its own text, so the
    pattern always compiles and, with [re.I], matches the prefix in any
    letter case, then white space, one letter or digit, then white space.
    A match at the start of [s] gives the token and the length matched. *)
Definition slice_match_at (prefix s : str) : option (ascii * nat) :=
  if startswith_ci s prefix then
    let after_prefix := drop (length prefix) s in
    let gap := take_while is_space after_prefix in
    match drop (length gap) after_prefix with
    | c :: rest =>
        if is_alnum c
        then Some (c, length prefix + length gap + 1 + length (take_while is_space rest))
        else None
    | [] => None
    end
  else None.

(** [pattern.sub(r'\1', s)]: every match, from the left, is replaced by its
    token; [skip] counts the characters of the current match still to
    pass. *)
Fixpoint sub_slice (prefix s : str) (skip : nat) : str :=
  match s with
  | [] => []
  | c :: s' =>
      match skip with
      | S k => sub_slice prefix s' k
      | 0 =>
          match slice_match_at prefix s with
          | Some (token, len) => token :: sub_slice prefix s' (len - 1)
          | None => c :: sub_slice prefix s' 0
          end
      end
  end.

(** [i[0]]. *)
Definition first_char (s : str) : result ascii :=
  match s with
  | c :: _ => Return c
  | [] => Raise IndexError
  end.

(** What the slice check of a group of files in one folder finds. *)
Inductive slice_verdict : Type :=
| Slices (mapped_files : list str)
| Unrecognized (prefix : str) (remaining : list str)
| Invalid (sorted_slices : list ascii).

Definition remaining_of (files : list str) : list str :=
  let basenames := map basename files in
  let prefix := commonprefix basenames in
  map (fun i => lower (sub_slice prefix i 0)) basenames.

Definition is_first_slice (c : ascii) : bool :=
  char_eqb c "0"%char || char_eqb c "1"%char || char_eqb c "a"%char.

(** [sorted_slices[-1]]. *)
Definition last_char (l : list ascii) : result ascii :=
  match last l with
  | Some c => Return c
  | None => Raise IndexError
  end.

(** The slice check of one group: lines 217 to 246. *)
Definition check_slices (files : list str) : result slice_verdict :=
  let basenames := map basename files in
  let prefix := commonprefix basenames in
  let remaining := remaining_of files in
  let postfixes := map (drop 1) remaining in
  slices ← map_result first_char remaining;
  if negb (length (remove_dups postfixes) =? 1)
     || negb (length slices =? length (remove_dups slices)) then
    Return (Unrecognized prefix remaining)
  else
    let sorted_slices := merge_sort char_le slices in
    first ← list_at sorted_slices 0;
    last ← last_char sorted_slices;
    if negb (is_first_slice first)
       || negb (ord last =? ord first + length sorted_slices - 1) then
      Return (Invalid sorted_slices)
    else
      mapped_files ← map_result
        (fun i => idx ← list_index i slices; list_at files idx) sorted_slices;
      Return (Slices mapped_files).

Record check_state : Type := {
  groups : pydict (list str);
  non_slice_dup : pydict (list str);
  check_log : list log_record
}.

Definition reject (avid : str) (files : list str) (note : list log_record)
    (st : check_state) : check_state :=
  {| groups := dict_del avid (groups st);
     non_slice_dup := dict_set avid files (non_slice_dup st);
     check_log := check_log st ++ note |}.

(** One round of [for avid, files in dic.copy().items()]. *)
Definition check_group (st : check_state) (item : str * list str) : result check_state :=
  let '(avid, files) := item in
  if length files =? 1 then Return st
  else
    let dirs := remove_dups (map dirname files) in
    if 1 <? length dirs then Return (reject avid files [] st)
    else
      verdict ← check_slices files;
      match verdict with
      | Unrecognized prefix remaining =>
          Return (reject avid files [Debug_slices_unrecognized prefix remaining] st)
      | Invalid sorted_slices =>
          Return (reject avid files [Debug_slices_invalid sorted_slices] st)
      | Slices mapped_files =>
          Return {| groups := dict_set avid mapped_files (groups st);
                    non_slice_dup := non_slice_dup st;
                    check_log := check_log st |}
      end.

Definition check_duplicates (dic : pydict (list str)) : result check_state :=
  for_each check_group dic {| groups := dic; non_slice_dup := []; check_log := [] |}.

(** ** [scan_movies]: the message and the movies *)

(** The lines of one identifier in the message. *)
Definition duplicate_lines (root : str) (item : str * list str) : result str :=
  let '(avid, files) := item in
  for_each
    (fun msg f => rel ← relpath f root; Return (msg ++ py "  " ++ rel ++ [newline]))
    files (avid ++ py ": " ++ [newline]).

Definition duplicate_message (root : str) (non_slice_dup : pydict (list str))
  : result str :=
  for_each (fun msg item => lines ← duplicate_lines root item; Return (msg ++ lines))
           non_slice_dup [].

(** One round of [for avid, files in dic.items()]. *)
Definition movie_of (item : str * list str) : result Movie :=
  let '(avid, files) := item in
  let src := guess_av_type avid in
  if negb (bool_decide (src = py "cid")) then
    Return {| dvdid := Some avid; cid := None; files := files; data_src := Some src |}
  else
    first ← list_at files 0;
    Return {| dvdid := get_id first; cid := Some avid; files := files;
              data_src := Some src |}.

(** What a call of [scan_movies] leaves: the list it returns, the items it
    adds to the module's [failed_items] and what it writes. *)
Record scan_outcome : Type := {
  movies : list Movie;
  failures : list Movie;
  written : list log_record
}.

(** [logger.debug] of line 269, written in the round that makes the movie:
    the identifier and its kind. *)
Definition data_src_note (item : str * list str) : log_record :=
  Debug_data_src (fst item) (guess_av_type (fst item)).

(** Everything after the walk: lines 184 to 271. *)
Definition finish_scan (root : str) (st : scan_state) : result scan_outcome :=
  let '(dic, small_videos, has_avid) := merge_small_videos (dic st) (small_videos st) in
  let skipped := report_skipped small_videos has_avid in
  checked ← check_duplicates dic;
  msg ← duplicate_message root (non_slice_dup checked);
  let errors := if nonempty msg then [Error_duplicates msg] else [] in
  movies ← map_result movie_of (groups checked);
  Return {| movies := movies;
            failures := failed_items st;
            written := log st ++ skipped ++ check_log checked ++ errors
                       ++ map data_src_note (groups checked) |}.

Definition scan_movies (cfg : Cfg) (fs : node) (root : str) : result scan_outcome :=
  st ← scan_walk cfg fs root;
  finish_scan root st.

End Finish.

(** ** Notions used to state the properties *)

(** The identifier a movie record was built for. *)
Definition movie_avid (m : Movie) : option str :=
  if bool_decide (data_src m = Some (py "cid")) then cid m else dvdid m.

(** A name that a directory entry can have: not empty, without a slash. *)
Definition good_name (name : str) : bool :=
  nonempty name && forallb (fun c => negb (char_eqb c slash)) name.

Fixpoint wf_names (n : node) : bool :=
  match n with
  | File _ => true
  | Dir _ entries => forallb (fun e => good_name (fst e) && wf_names (snd e)) entries
  | Broken => true
  end.

(** Every entry of the tree can be examined. *)
Fixpoint all_examinable (n : node) : bool :=
  match n with
  | File _ => true
  | Dir _ entries => forallb (fun e => all_examinable (snd e)) entries
  | Broken => false
  end.

(** The slice token of a file within its group as the code takes it
    (line 228): the first character of what the substitution leaves of its
    base name, in lower case, whether or not the pattern matched in the
    name. *)
Definition slice_token (group : list str) (file : str) : option ascii :=
  head (lower (sub_slice (commonprefix (map basename group)) (basename file) 0)).

(** What the code takes as the rest (line 227). *)
Definition slice_postfix (group : list str) (file : str) : str :=
  drop 1 (lower (sub_slice (commonprefix (map basename group)) (basename file) 0)).

(** The first match of the pattern in [s], as [re.search] finds it: the
    character that the group captures. *)
Fixpoint pattern_search (prefix s : str) {struct s} : option ascii :=
  match slice_match_at prefix s with
  | Some (token, _) => Some token
  | None =>
      match s with
      | [] => None
      | _ :: s' => pattern_search prefix s'
      end
  end.

(** The slice token of a file as the specification has it: the letter or
    digit that the pattern of the group captures in its base name, in lower
    case; a name in which the pattern does not match has none. *)
Definition captured_token (group : list str) (file : str) : option ascii :=
  lower_char <$> pattern_search (commonprefix (map basename group)) (basename file).

(** What the duplicate check does with the files of one identifier: they
    stay as they are, they are replaced by the ordered slices, or ([None])
    the identifier is set aside as a duplicate. *)
Definition group_fate (files : list str) : result (option (list str)) :=
  if length files =? 1 then Return (Some files)
  else if 1 <? length (remove_dups (map dirname files)) then Return None
  else
    verdict ← check_slices files;
    match verdict with
    | Slices mapped_files => Return (Some mapped_files)
    | _ => Return None
    end.

(** The small files whose name carries the identifier of a group of [dic]. *)
Definition joins_group `{AvidLib} (dic : pydict (list str)) (name : str) : bool :=
  match avid_of name with
  | Some a => dict_has a dic
  | None => false
  end.

(** The three conditions of the slice check, as the specification words
    them: one postfix, distinct tokens, and tokens that in ascending order
    are the code points [first], [first+1], ... with [first] one of [0],
    [1], [a]. *)
Definition same_postfix (group : list str) : Prop :=
  forall f g, f ∈ group -> g ∈ group -> slice_postfix group f = slice_postfix group g.

Definition distinct_tokens (group : list str) : Prop :=
  NoDup (map (slice_token group) group).

Definition contiguous_run (group : list str) (sorted : list ascii) : Prop :=
  map Some sorted ≡ₚ map (slice_token group) group /\
  exists first,
    is_first_slice first = true /\
    map ord sorted = seq (ord first) (length group).

Definition slices_ok (group : list str) : Prop :=
  same_postfix group /\ distinct_tokens group /\ exists sorted, contiguous_run group sorted.

(** [mapped] is [group] put in the order of [sorted], the tokens of the
    group in ascending order. *)
Definition ordered_by_token (group mapped : list str) (sorted : list ascii) : Prop :=
  mapped ≡ₚ group /\ map (slice_token group) mapped = map Some sorted.

(** The groups that the duplicate check leaves in [dic], in order, and the
    ones it moves to [non_slice_dup]. *)
Definition kept_groups (dic : pydict (list str)) : pydict (list str) :=
  flat_map
    (fun item =>
       match group_fate (snd item) with
       | Return (Some files) => [(fst item, files)]
       | _ => []
       end)
    dic.

Definition set_aside (dic : pydict (list str)) : pydict (list str) :=
  List.filter
    (fun item =>
       match group_fate (snd item) with
       | Return None => true
       | _ => false
       end)
    dic.

(** The block of the message for one identifier, given the relative paths
    of its files. *)
Definition message_block (avid : str) (rels : list str) : str :=
  avid ++ py ": " ++ [newline] ++ concat (map (fun rel => py "  " ++ rel ++ [newline]) rels).

(** [dic] as it is when the duplicate check starts (line 204). *)
Definition scan_groups `{AvidLib} (cfg : Cfg) (fs : node) (root : str)
  : result (pydict (list str)) :=
  st ← scan_walk cfg fs root;
  Return (merge_small_videos (dic st) (small_videos st)).1.1.

(** What the walk keeps true of [dic] and of [small_videos]: the keys are
    distinct, no path has an empty base name, and a small file is filed
    under its own name. *)
Definition dic_ok (dic : pydict (list str)) : Prop :=
  NoDup (keys dic) /\
  Forall (fun item => Forall (fun p => basename p <> []) (snd item)) dic.

Definition small_ok (small_videos : pydict (list str)) : Prop :=
  NoDup (keys small_videos) /\
  Forall (fun item => fst item <> [] /\ Forall (fun p => basename p = fst item) (snd item))
         small_videos.

Definition state_ok (st : scan_state) : Prop :=
  dic_ok (dic st) /\ small_ok (small_videos st).

(** The buckets of small files that stay in [small_videos]. *)
Definition stays_skipped `{AvidLib} (dic : pydict (list str)) (item : str * list str)
  : bool :=
  negb (joins_group dic (fst item)).

(** ** [movie_duplicate_key] *)

(** [Movie.attr_str] of [javsp.datatype], the suffix for the variant of a
    movie, is not among the sources: it is taken as it comes. *)
Class MovieAttr : Type := {
  attr_str : Movie -> str
}.

Definition movie_duplicate_key `{MovieAttr} (movie : Movie) : option str :=
  let avid := if truthy (dvdid movie) then dvdid movie else cid movie in
  if truthy avid then
    match avid with
    | Some a => _normalize_duplicate_avid (Some (a ++ attr_str movie))
    | None => None
    end
  else None.

(** ** Notions used to state what the walk gathers *)

(** The extension of the last component of [p] is one that the scan looks
    for. *)
Definition listed (cfg : Cfg) (p : str) : Prop :=
  lower (splitext_ext (basename p)) ∈ filename_extensions cfg.

(** What the walk gathers under [dic] and [small_videos] has a listed
    extension. *)
Definition gathered_ok (cfg : Cfg) (st : scan_state) : Prop :=
  Forall (fun item => Forall (listed cfg) (snd item)) (dic st) /\
  Forall (fun item => Forall (listed cfg) (snd item)) (small_videos st).

(** What the walk keeps true of the items that it adds to [failed_items]. *)
Definition failure_ok `{AvidLib} (cfg : Cfg) (written : list log_record) (fail : Movie)
  : Prop :=
  dvdid fail = Some unrecognized_marker /\ cid fail = None /\
  exists fullpath,
    files fail = [fullpath] /\
    truthy (get_id fullpath) = false /\ truthy (get_cid fullpath) = false /\
    listed cfg fullpath /\
    Error_no_avid fullpath ∈ written.

(** ** [replace_illegal_chars] *)

(** The characters that this function writes lie outside the range of
    [ascii]: here a text is the list of its code points. *)
Definition text : Type := list N.

Definition text_of (s : str) : text := map N_of_ascii s.

(** [name.replace(c, rep)] for single characters. *)
Definition replace_code (c rep : N) (name : text) : text :=
  map (fun x => if (x =? c)%N then rep else x) name.

(** [charmap], in the order of its items: the characters that a file name
    cannot hold on Windows, each with the code point of its look-alike. *)
Definition charmap : list (N * N) :=
  [(60, 10094); (62, 10095); (58, 65306); (34, 8243); (47, 65295);
   (92, 65340); (124, 65372); (63, 65311); (42, 42510)]%N.

Definition dot : N := 46.
Definition ellipsis : N := 8230.

(** [os.pardir in name]: two dots in a row. *)
Fixpoint has_pardir (name : text) : bool :=
  match name with
  | [] => false
  | a :: rest =>
      match rest with
      | b :: _ => (a =? dot)%N && (b =? dot)%N
      | [] => false
      end || has_pardir rest
  end.

(** What a run of [dots] dots becomes under [_PARDIR_REPLACE.sub]: the
    pattern takes a run of two or more as a whole. *)
Definition sub_run (dots : nat) : text :=
  match dots with
  | 0 => []
  | 1 => [dot]
  | _ => [ellipsis]
  end.

(** [_PARDIR_REPLACE.sub('…', name)], with the length of the run of dots
    that is being read. *)
Fixpoint sub_pardir (dots : nat) (name : text) : text :=
  match name with
  | [] => sub_run dots
  | c :: rest =>
      if (c =? dot)%N then sub_pardir (S dots) rest
      else sub_run dots ++ c :: sub_pardir 0 rest
  end.

(** [platform] is [sys.platform]. *)
Definition replace_illegal_chars (platform : str) (name : text) : text :=
  let name :=
    if bool_decide (platform = py "win32") then
      fold_left (fun name item => replace_code (fst item) (snd item) name) charmap name
    else if bool_decide (platform = py "darwin") then replace_code 58 65306 name
    else replace_code 47 65295 name in
  if has_pardir name then sub_pardir 0 name else name.

(** ** [find_subtitle_in_dir] *)

Definition SUB_EXTENSIONS : list str := [py ".srt"; py ".ass"].

(** [os.path.splitext(p)[0]]. *)
Definition splitext_root (p : str) : str :=
  let sepIndex := rfind_char slash p in
  match rfind_char "."%char p with
  | None => p
  | Some dotIndex =>
      let filenameIndex := match sepIndex with Some k => S k | None => 0 end in
      if (filenameIndex <=? dotIndex) &&
         negb (forallb (char_eqb "."%char)
                 (take (dotIndex - filenameIndex) (drop filenameIndex p)))
      then take dotIndex p else p
  end.

Section Subtitles.

Context `{AvidLib}.

(** One round of [for file in filenames]. *)
Definition sub_visit_file (dirpath : str) (folder_data : pydict str) (file : str)
  : pydict str :=
  let basename := splitext_root file in
  let ext := splitext_ext file in
  if bool_decide (ext ∈ SUB_EXTENSIONS) then
    let match_id := get_id basename in
    if truthy match_id then
      dict_set (upper (default [] match_id)) (path_join dirpath file) folder_data
    else folder_data
  else folder_data.

Definition sub_walker : Type := pydict str -> pydict str.

(** The body of [for dirpath, dirnames, filenames in os.walk(folder)] for
    one directory, followed by the walk of its folders; [subwalks] are the
    walks of the entries. *)
Definition sub_visit_dir (dirpath : str) (entries : list (str * node))
    (subwalks : list (str * sub_walker)) : sub_walker :=
  fun folder_data =>
    let dirnames := map fst (List.filter (fun e => is_dir (snd e)) entries) in
    let filenames := map fst (List.filter (fun e => negb (is_dir (snd e))) entries) in
    let folder_data := fold_left (sub_visit_file dirpath) filenames folder_data in
    fold_left
      (fun folder_data name =>
         match List.find (fun w => bool_decide (fst w = name)) subwalks with
         | Some (_, w) => w folder_data
         | None => folder_data
         end)
      dirnames folder_data.

(** [os.walk(folder)] with the loop body run at every directory, top down;
    a directory that cannot be listed yields nothing. *)
Fixpoint sub_walk (dirpath : str) (n : node) {struct n} : sub_walker :=
  match n with
  | Dir true entries =>
      sub_visit_dir dirpath entries
        (map (fun e => (fst e, sub_walk (path_join dirpath (fst e)) (snd e))) entries)
  | _ => fun folder_data => folder_data
  end.

(** The call gets the module's [_sub_files] and gives it back with what it
    returns. *)
Definition find_subtitle_in_dir (fs : node) (_sub_files : pydict (pydict str))
    (folder dvdid : str) : option str * pydict (pydict str) :=
  match dict_get folder _sub_files with
  | None =>
      let folder_data :=
        match resolve fs folder with
        | Some n => sub_walk folder n []
        | None => []
        end in
      (dict_get (upper dvdid) folder_data, dict_set folder folder_data _sub_files)
  | Some folder_data => (dict_get (upper dvdid) folder_data, _sub_files)
  end.

End Subtitles.

(** ** Notions used to state what [replace_illegal_chars] gives *)

(** The characters that the function replaces on a platform. *)
Definition illegal_codes (platform : str) : list N :=
  if bool_decide (platform = py "win32") then map fst charmap
  else if bool_decide (platform = py "darwin") then [58%N]
  else [47%N].

(** ** Notions used to state what [find_subtitle_in_dir] gives *)


(** ** Notions used to state where the files of a movie come from *)

(** A name as a directory lists it: not empty, without a slash, and neither
    of the two names that stand for the directory and for its parent. *)
Definition proper_name (name : str) : bool :=
  good_name name && negb (bool_decide (name = py "."))
  && negb (bool_decide (name = py "..")).

Fixpoint proper_names (n : node) : bool :=
  match n with
  | Dir _ entries => forallb (fun e => proper_name (fst e) && proper_names (snd e)) entries
  | _ => true
  end.

(** [os.path.getsize(p)] gives at least the minimum size. *)
Definition full_size (cfg : Cfg) (fs : node) (p : str) : Prop :=
  exists size, getsize (resolve fs p) = Return size /\ (minimum_size cfg <= size)%N.

(** What the walk keeps true of an item of [dic]: it has a file, and each
    of its files is of full size and has the key as the identifier of its
    own path. *)
Definition from_full_size `{AvidLib} (cfg : Cfg) (fs : node) (item : str * list str)
  : Prop :=
  snd item <> [] /\
  Forall (fun p => avid_of p = Some (fst item) /\ full_size cfg fs p) (snd item).

(** ** Sample inputs *)

Definition sample_cfg : Cfg := {|
  output_folder_pattern := py "#sorted/{actress}/[{num}] {title}";
  ignored_folder := fun name => startswith name (py "#") || startswith name (py "@");
  skip_nfo_dir := false;
  filename_extensions := [py ".mp4"; py ".mkv"; py ".avi"];
  minimum_size := 1000
|}.

(** [media/ABC-123/video.mp4] and [media/ABC-123-C/video.mp4] as regular
    files. *)
Definition media_with_files : node :=
  Dir true [(py "media", Dir true [
    (py "ABC-123", Dir true [(py "video.mp4", File 5000)]);
    (py "ABC-123-C", Dir true [(py "video.mp4", File 5000)])])].

(** The same names with [video.mp4] as directories. *)
Definition media_with_folders : node :=
  Dir true [(py "media", Dir true [
    (py "ABC-123", Dir true [(py "video.mp4", Dir true [])]);
    (py "ABC-123-C", Dir true [(py "video.mp4", Dir true [])])])].

(** A stand-in for [javsp.avid]: the identifier of a path is the one a table
    gives for a text that the base name contains. *)
Definition table_id (table : list (str * str)) (path : str) : option str :=
  snd <$> List.find (fun entry => contains (fst entry) (basename path)) table.

Definition table_lib (ids cids : list (str * str)) : AvidLib := {|
  get_id := table_id ids;
  get_cid := table_id cids;
  guess_av_type := fun avid =>
    if bool_decide (avid ∈ map snd cids) then py "cid" else py "normal"
|}.

Definition sample_lib : AvidLib :=
  table_lib
    [(py "movie", py "MOVIE-001"); (py "clip", py "CLIP-002");
     (py "x.mp4", py "XYZ-003"); (py "y.mp4", py "XYZ-003");
     (py "ABC-123", py "ABC-123")]
    [(py "h_001abc", py "h_001abc00123")].

Definition file_of (name : string) (size : N) : str * node := (py name, File size).
Definition folder_of (name : string) (entries : list (str * node)) : str * node :=
  (py name, Dir true entries).

(** Three slices of one movie, listed out of order, and a lone movie. *)
Definition slices_tree : node :=
  Dir true [folder_of "videos" [
    file_of "movie.c.mp4" 5000; file_of "movie.a.mp4" 5000;
    file_of "movie.b.mp4" 5000; file_of "clip.mkv" 7000;
    file_of "notes.txt" 10; file_of "unknown.avi" 9000]].

(** Slices a and c without b, and slices b and c without a. *)
Definition gap_tree : node :=
  Dir true [folder_of "videos" [
    file_of "movie.a.mp4" 5000; file_of "movie.c.mp4" 5000;
    file_of "clip.b.mkv" 5000; file_of "clip.c.mkv" 5000]].

(** One identifier in two folders. *)
Definition cross_tree : node :=
  Dir true [folder_of "root" [
    folder_of "A" [file_of "x.mp4" 5000];
    folder_of "B" [file_of "y.mp4" 5000];
    folder_of "C" [file_of "clip.mkv" 5000]]].

(** A small second slice next to a large first one, and a small file of
    its own. *)
Definition small_tree : node :=
  Dir true [folder_of "videos" [
    file_of "movie.a.mp4" 5000; file_of "movie.b.mp4" 300;
    file_of "clip.mkv" 200; file_of "sample.mp4" 100]].

(** A folder that cannot be listed next to a readable one. *)
Definition locked_tree : node :=
  Dir true [folder_of "videos" [
    (py "private", Dir false [file_of "movie.a.mp4" 5000]);
    folder_of "open" [file_of "clip.mkv" 7000]]].

(** An ignored folder that holds an nfo file. *)
Definition recycle_tree : node :=
  Dir true [folder_of "videos" [
    folder_of "#recycle" [file_of "movie.nfo" 10];
    folder_of "open" [file_of "clip.mkv" 7000]]].

Definition nfo_cfg : Cfg := {|
  output_folder_pattern := output_folder_pattern sample_cfg;
  ignored_folder := ignored_folder sample_cfg;
  skip_nfo_dir := true;
  filename_extensions := filename_extensions sample_cfg;
  minimum_size := minimum_size sample_cfg
|}.

(** Twenty-seven files in one folder, named by the code points 97 (a) to
    123 (an opening brace) followed by [ ABC-123.mp4]. *)
Definition many_slices_tree : node :=
  Dir true [folder_of "videos"
    (map (fun n => (chr n :: py " ABC-123.mp4", File 5000)) (seq 97 27))].

(** The groups of [cross_tree], [slices_tree] and [gap_tree] when the
    check starts. *)
Definition cross_groups : pydict (list str) :=
  [(py "XYZ-003", [py "/root/A/x.mp4"; py "/root/B/y.mp4"]);
   (py "CLIP-002", [py "/root/C/clip.mkv"])].

Definition slices_groups : pydict (list str) :=
  [(py "MOVIE-001",
    [py "videos/movie.c.mp4"; py "videos/movie.a.mp4"; py "videos/movie.b.mp4"]);
   (py "CLIP-002", [py "videos/clip.mkv"])].

Definition gap_groups : pydict (list str) :=
  [(py "MOVIE-001", [py "videos/movie.a.mp4"; py "videos/movie.c.mp4"]);
   (py "CLIP-002", [py "videos/clip.b.mkv"; py "videos/clip.c.mkv"])].

(** Two files of one identifier whose names have the first letter in
    common; only the second has a letter after it. *)
Definition unmatched_lib : AvidLib := table_lib [(py "a", py "A-001")] [].

Definition unmatched_tree : node :=
  Dir true [folder_of "videos" [file_of "a.mp4" 5000; file_of "ab.mp4" 5000]].

Definition unmatched_group : list str := [py "videos/a.mp4"; py "videos/ab.mp4"].

(** Movies whose variant suffix is written in their data source field, for
    the examples of [movie_duplicate_key]. *)
Definition sample_attr : MovieAttr := {|
  attr_str := fun movie => default [] (data_src movie)
|}.

Definition movie_with (id : string) (suffix : string) : Movie :=
  {| dvdid := Some (py id); cid := None; files := []; data_src := Some (py suffix) |}.

(** The state after the walk of [slices_tree] and what its scan leaves. *)
Definition unknown_item : Movie :=
  {| dvdid := Some unrecognized_marker; cid := None;
     files := [py "videos/unknown.avi"]; data_src := None |}.

Definition slices_state : scan_state :=
  {| dic := slices_groups; small_videos := [];
     failed_items := [unknown_item];
     log := [Error_no_avid (py "videos/unknown.avi")] |}.

Definition movie_abc : Movie :=
  {| dvdid := Some (py "MOVIE-001"); cid := None;
     files := [py "videos/movie.a.mp4"; py "videos/movie.b.mp4"; py "videos/movie.c.mp4"];
     data_src := Some (py "normal") |}.

Definition movie_clip : Movie :=
  {| dvdid := Some (py "CLIP-002"); cid := None;
     files := [py "videos/clip.mkv"]; data_src := Some (py "normal") |}.

Definition slices_outcome : scan_outcome :=
  {| movies := [movie_abc; movie_clip];
     failures := [unknown_item];
     written := [Error_no_avid (py "videos/unknown.avi");
                 Debug_data_src (py "MOVIE-001") (py "normal");
                 Debug_data_src (py "CLIP-002") (py "normal")] |}.


(** A symbolic link to nothing next to a movie. *)
Definition dangling_tree : node :=
  Dir true [folder_of "videos" [
    file_of "clip.mkv" 7000; (py "movie.mp4", Broken)]].
(** * Properties *)

(** ** Characters and strings *)

Lemma is_space_upper_char c : is_space (upper_char c) = is_space c.
Proof. destruct c as [[] [] [] [] [] [] [] []]; reflexivity. Qed.

Lemma upper_char_idemp c : upper_char (upper_char c) = upper_char c.
Proof. destruct c as [[] [] [] [] [] [] [] []]; reflexivity. Qed.

Lemma lstrip_by_map (p : ascii -> bool) (f : ascii -> ascii) s :
  (forall c, p (f c) = p c) ->
  lstrip_by p (map f s) = map f (lstrip_by p s).
Proof.
  intros Hpf. induction s as [|c s IH]; simpl; [reflexivity|].
  rewrite Hpf. destruct (p c); [exact IH | reflexivity].
Qed.

Lemma rstrip_by_map (p : ascii -> bool) (f : ascii -> ascii) s :
  (forall c, p (f c) = p c) ->
  rstrip_by p (map f s) = map f (rstrip_by p s).
Proof.
  intros Hpf. unfold rstrip_by.
  rewrite <- map_rev, lstrip_by_map by exact Hpf. now rewrite map_rev.
Qed.

Lemma strip_upper s : strip (upper s) = upper (strip s).
Proof.
  unfold strip, upper.
  rewrite lstrip_by_map, rstrip_by_map; auto using is_space_upper_char.
Qed.

Lemma lstrip_by_head p s c t : lstrip_by p s = c :: t -> p c = false.
Proof.
  induction s as [|a s IH]; simpl; [discriminate|].
  destruct (p a) eqn:Ea; [exact IH|].
  intros [= <- _]. exact Ea.
Qed.

Lemma lstrip_by_suffix p s : lstrip_by p s `suffix_of` s.
Proof.
  induction s as [|a s IH]; simpl; [reflexivity|].
  destruct (p a); [|reflexivity]. now apply suffix_cons_r.
Qed.

Lemma lstrip_by_id p s : head s ≫= (fun c => Some (p c)) <> Some true -> lstrip_by p s = s.
Proof. destruct s as [|a s]; simpl; [reflexivity|]. destruct (p a); congruence. Qed.

Lemma rstrip_by_prefix p s : rstrip_by p s `prefix_of` s.
Proof.
  unfold rstrip_by. destruct (lstrip_by_suffix p (rev s)) as [k Hk].
  exists (rev k). rewrite <- rev_app_distr, <- Hk. now rewrite rev_involutive.
Qed.

Lemma strip_head s c t : strip s = c :: t -> is_space c = false.
Proof.
  unfold strip. intros Hs.
  destruct (rstrip_by_prefix is_space (lstrip_by is_space s)) as [k Hk].
  rewrite Hs in Hk. simpl in Hk. exact (lstrip_by_head _ _ _ _ Hk).
Qed.

Lemma strip_clean s :
  (forall c, head s = Some c -> is_space c = false) ->
  (forall c, last s = Some c -> is_space c = false) ->
  strip s = s.
Proof.
  intros Hh Hl. unfold strip.
  assert (E : lstrip_by is_space s = s).
  { destruct s as [|a s]; [reflexivity|]. simpl. now rewrite (Hh a eq_refl). }
  rewrite E. unfold rstrip_by.
  assert (E' : lstrip_by is_space (rev s) = rev s).
  { destruct (rev s) as [|a r] eqn:Er; [reflexivity|]. simpl.
    assert (last s = Some a) as Ha.
    { rewrite <- (rev_involutive s), Er. simpl. now rewrite last_snoc. }
    now rewrite (Hl a Ha). }
  rewrite E'. apply rev_involutive.
Qed.

Lemma upper_prefix_fixed r s : r `prefix_of` upper s -> upper r = r.
Proof.
  intros [k Hk]. unfold upper in *.
  assert (E : map upper_char (r ++ k) = r ++ k).
  { rewrite <- Hk, map_map. apply map_ext. intros c. apply upper_char_idemp. }
  rewrite map_app in E. apply app_inj_1 in E; [tauto|]. now rewrite length_map.
Qed.

(** ** The identifier normaliser *)

Lemma slice_to_neg_app body suffix :
  suffix <> [] -> slice_to_neg (length suffix) (body ++ suffix) = body.
Proof.
  intros Hne. unfold slice_to_neg.
  destruct (length suffix) eqn:El; [destruct suffix; [congruence | discriminate]|].
  rewrite <- El, length_app.
  replace (length body + length suffix - length suffix) with (length body) by lia.
  now rewrite take_app_length.
Qed.

Lemma remove_first_suffix_Some suffixes avid avid' :
  Forall (fun s => s <> []) suffixes ->
  remove_first_suffix suffixes avid = Some avid' ->
  exists skipped suffix later,
    suffixes = skipped ++ suffix :: later /\
    (forall other, In other skipped -> ~ other `suffix_of` avid) /\
    suffix <> [] /\ avid = avid' ++ suffix.
Proof.
  induction 1 as [|suffix rest Hne Hrest IH]; simpl; [discriminate|].
  unfold endswith. case_bool_decide as Hs.
  - intros [= <-]. exists [], suffix, rest. split; [reflexivity|].
    split; [intros ? []|]. split; [exact Hne|].
    destruct Hs as [k ->]. now rewrite slice_to_neg_app.
  - intros Hr. destruct (IH Hr) as (skipped & suf & later & -> & Hsk & Hn & Hav).
    exists (suffix :: skipped), suf, later. split; [reflexivity|].
    split; [|auto]. intros other [<-|Hin]; auto.
Qed.

Lemma remove_first_suffix_None suffixes avid :
  remove_first_suffix suffixes avid = None ->
  forall suffix, In suffix suffixes -> ~ suffix `suffix_of` avid.
Proof.
  induction suffixes as [|s rest IH]; simpl; [intros _ ? []|].
  unfold endswith. case_bool_decide as Hs; [discriminate|].
  intros Hr suffix [<-|Hin]; auto.
Qed.

Lemma remove_first_suffix_fixed suffixes avid :
  (forall suffix, In suffix suffixes -> ~ suffix `suffix_of` avid) ->
  remove_first_suffix suffixes avid = None.
Proof.
  induction suffixes as [|s rest IH]; simpl; [reflexivity|].
  intros H. unfold endswith. case_bool_decide as Hs.
  - exfalso. exact (H s (or_introl eq_refl) Hs).
  - apply IH. intros suffix Hin. apply H. now right.
Qed.

Lemma duplicate_suffixes_nonempty : Forall (fun s : str => s <> []) _DUPLICATE_SUFFIXES.
Proof. repeat constructor; discriminate. Qed.

Lemma strip_suffixes_fully_stripped fuel avid :
  length avid <= fuel -> fully_stripped avid (strip_suffixes fuel avid).
Proof.
  revert avid. induction fuel as [|fuel IH]; intros avid Hlen; cbn [strip_suffixes].
  - destruct (remove_first_suffix _DUPLICATE_SUFFIXES avid) as [avid'|] eqn:Er.
    + apply remove_first_suffix_Some in Er; [|exact duplicate_suffixes_nonempty].
      destruct Er as (? & suffix & ? & _ & _ & Hne & ->).
      rewrite length_app in Hlen. destruct suffix; [congruence | simpl in Hlen; lia].
    + constructor. now apply remove_first_suffix_None.
  - destruct (remove_first_suffix _DUPLICATE_SUFFIXES avid) as [avid'|] eqn:Er.
    + apply remove_first_suffix_Some in Er; [|exact duplicate_suffixes_nonempty].
      destruct Er as (skipped & suffix & later & Hsplit & Hsk & Hne & ->).
      eapply stripped_step; eauto. apply IH.
      rewrite length_app in Hlen. destruct suffix; [congruence | simpl in Hlen; lia].
    + constructor. now apply remove_first_suffix_None.
Qed.

Lemma fully_stripped_prefix s r : fully_stripped s r -> r `prefix_of` s.
Proof.
  induction 1 as [s _|s suffix body r ? ? _ _ -> _ IH]; [reflexivity|].
  now apply prefix_app_r.
Qed.

Lemma fully_stripped_fixed s r :
  fully_stripped s r ->
  forall suffix, In suffix _DUPLICATE_SUFFIXES -> ~ suffix `suffix_of` r.
Proof. induction 1 as [s Hs|s suffix body r skipped later _ _ _ _ IH]; [exact Hs | exact IH]. Qed.

Lemma strip_suffixes_fixed fuel r :
  (forall suffix, In suffix _DUPLICATE_SUFFIXES -> ~ suffix `suffix_of` r) ->
  strip_suffixes fuel r = r.
Proof.
  intros H. destruct fuel; cbn [strip_suffixes]; now rewrite remove_first_suffix_fixed.
Qed.

(** C6. The normaliser returns null for a null or an empty input; for any
    other input of ASCII characters it trims and upper-cases the string (in
    either order) and returns what is left once the suffixes -UC and -C,
    tried in that order from the start of the list after every removal, no
    longer match.  Both ABC-123-C-UC and ABC-123-UC-C are normalised to
    ABC-123. *)
Theorem normalize_strips_cosmetic_suffixes (v : str)
    (Hv : v <> []) (Hascii : ascii_text v) :
  (exists r,
      _normalize_duplicate_avid (Some v) = Some r /\
      fully_stripped (upper (strip v)) r /\
      upper (strip v) = strip (upper v)) /\
  _normalize_duplicate_avid None = None /\
  _normalize_duplicate_avid (Some []) = None /\
  _normalize_duplicate_avid (Some (py "ABC-123-C-UC")) = Some (py "ABC-123") /\
  _normalize_duplicate_avid (Some (py "ABC-123-UC-C")) = Some (py "ABC-123").
Proof.
  split; [|repeat split; reflexivity].
  destruct v as [|c v]; [congruence|].
  eexists. split; [reflexivity|].
  split; [|now rewrite strip_upper].
  now apply strip_suffixes_fully_stripped.
Qed.

Lemma normalize_strips_cosmetic_suffixes_witness :
  exists r,
    _normalize_duplicate_avid (Some (py " abc-123-c-uc-c ")) = Some r /\
    fully_stripped (upper (strip (py " abc-123-c-uc-c "))) r /\
    upper (strip (py " abc-123-c-uc-c ")) = strip (upper (py " abc-123-c-uc-c ")).
Proof.
  apply (normalize_strips_cosmetic_suffixes (py " abc-123-c-uc-c ")).
  - discriminate.
  - reflexivity.
Defined.

(** C7, as the specification states it, fails: once the suffixes are cut
    off the result can end in white space, or be empty, and a second call
    then trims it, or returns null. *)
Lemma normalize_not_idempotent :
  _normalize_duplicate_avid (_normalize_duplicate_avid (Some (py "ABC-123 -C")))
    <> _normalize_duplicate_avid (Some (py "ABC-123 -C")) /\
  _normalize_duplicate_avid (_normalize_duplicate_avid (Some (py "-C")))
    <> _normalize_duplicate_avid (Some (py "-C")).
Proof. split; vm_compute; discriminate. Qed.

(** C7, amended. For an input of ASCII characters, normalising twice is
    normalising once whenever the first result is null, or is a non-empty
    string that does not end in a white space character. *)
Theorem normalize_idempotent_on_clean_results (x : option str)
    (Hascii : forall v, x = Some v -> ascii_text v)
    (Hclean : forall r, _normalize_duplicate_avid x = Some r ->
                r <> [] /\ forall c, last r = Some c -> is_space c = false) :
  _normalize_duplicate_avid (_normalize_duplicate_avid x) = _normalize_duplicate_avid x.
Proof.
  destruct (_normalize_duplicate_avid x) as [r|] eqn:Ex; [|reflexivity].
  destruct (Hclean r eq_refl) as [Hne Hlast].
  unfold _normalize_duplicate_avid in Ex.
  destruct (truthy x); [|discriminate]. destruct x as [v|]; [|discriminate].
  injection Ex as Ex.
  pose proof (strip_suffixes_fully_stripped (length (upper (strip v))) _ (le_n _)) as Hfs.
  rewrite Ex in Hfs.
  pose proof (fully_stripped_prefix _ _ Hfs) as Hpre.
  assert (Hstrip : strip r = r).
  { apply strip_clean; [|exact Hlast].
    intros c Hc. destruct r as [|c' r']; [discriminate|]. injection Hc as ->.
    destruct Hpre as [k Hk]. rewrite <- strip_upper in Hk.
    exact (strip_head _ _ _ Hk). }
  assert (Hupper : upper r = r) by exact (upper_prefix_fixed _ _ Hpre).
  unfold _normalize_duplicate_avid.
  destruct r as [|c r']; [congruence|]. simpl truthy. cbv iota.
  rewrite Hstrip, Hupper. f_equal.
  apply strip_suffixes_fixed. exact (fully_stripped_fixed _ _ Hfs).
Qed.

Lemma normalize_idempotent_on_clean_results_witness :
  _normalize_duplicate_avid (_normalize_duplicate_avid (Some (py " abc-123-uc-c ")))
    = _normalize_duplicate_avid (Some (py " abc-123-uc-c ")).
Proof.
  apply (normalize_idempotent_on_clean_results (Some (py " abc-123-uc-c "))).
  - intros v [= <-]. reflexivity.
  - intros r Hr. vm_compute in Hr. injection Hr as <-.
    split; [discriminate|]. intros c Hc. vm_compute in Hc. injection Hc as <-.
    reflexivity.
Defined.

(** ** Identifiers that exist in the output folders *)

Example split_output_pattern_media :
  _split_output_pattern (py "media/{num}/video.mp4")
  = (py "media", [py "{num}"; py "video.mp4"]).
Proof. reflexivity. Qed.

Example compile_segment_actress_num :
  _compile_segment_regex (py "[{actress}] { num }-x")
  = Return (Pieces [Lit (py "["); Wildcard; Lit (py "] "); NumGroup; Lit (py "-x")]).
Proof. reflexivity. Qed.

Example compile_segment_num_twice :
  _compile_segment_regex (py "{num}-{num}") = Raise ReError.
Proof. reflexivity. Qed.

Example match_greedy_wildcard :
  regex_match (Pieces [Lit []; Wildcard; Lit (py "-"); NumGroup; Lit []]) (py "a-b-c")
  = Some (Some (py "c")).
Proof. reflexivity. Qed.

(** C8, as the specification states it, fails: every template segment is
    matched against directories only, so with [video.mp4] a regular file no
    candidate is left at the last segment and the result is empty. *)
Lemma existing_avids_media_files_empty :
  get_existing_summary_avids sample_cfg media_with_files
      (Some (py "media/{num}/video.mp4")) = Return ∅ /\
  get_existing_summary_avids sample_cfg media_with_files
      (Some (py "media/{num}/video.mp4")) <> Return {[ py "ABC-123" ]}.
Proof. split; [vm_compute; reflexivity | vm_compute; discriminate]. Qed.

(** C8, amended. With the template media/{num}/video.mp4 the result is
    {ABC-123} when media/ABC-123/video.mp4 and media/ABC-123-C/video.mp4 are
    directories, and it is empty when they are regular files; over the
    regular files the template media/{num} gives {ABC-123}. *)
Theorem existing_avids_media_folders (cfg : Cfg) :
  get_existing_summary_avids cfg media_with_folders
      (Some (py "media/{num}/video.mp4")) = Return {[ py "ABC-123" ]} /\
  get_existing_summary_avids cfg media_with_files
      (Some (py "media/{num}/video.mp4")) = Return ∅ /\
  get_existing_summary_avids cfg media_with_files
      (Some (py "media/{num}")) = Return {[ py "ABC-123" ]}.
Proof. repeat split; vm_compute; reflexivity. Qed.

(** C9. The result is the empty set, and nothing is raised, when the
    template does not contain {num} and when the directory named by the
    literal prefix of the template (the working directory for an empty
    prefix) is not an existing directory. *)
Theorem existing_avids_empty_without_num_or_prefix_dir
    (cfg : Cfg) (fs : node) (pattern : option str)
    (Hcase :
       let template := default (output_folder_pattern cfg) pattern in
       let base_literal := fst (_split_output_pattern template) in
       contains (py "{num}") template = false \/
       isdir fs (normpath (if nonempty base_literal then base_literal else py "."))
         = false) :
  get_existing_summary_avids cfg fs pattern = Return ∅.
Proof.
  unfold get_existing_summary_avids. cbv zeta in Hcase.
  destruct (contains (py "{num}") (default (output_folder_pattern cfg) pattern));
    [|reflexivity].
  destruct Hcase as [Hc|Hd]; [discriminate|]. cbn [negb].
  destruct (_split_output_pattern (default (output_folder_pattern cfg) pattern))
    as [base_literal segments].
  cbn [fst] in Hd. rewrite Hd.
  destruct (negb (bool_decide (segments <> []))); reflexivity.
Qed.

Lemma existing_avids_empty_without_num_or_prefix_dir_witness :
  get_existing_summary_avids sample_cfg media_with_files (Some (py "media/{title}"))
    = Return ∅ /\
  get_existing_summary_avids sample_cfg media_with_files (Some (py "sorted/{num}"))
    = Return ∅ /\
  get_existing_summary_avids sample_cfg media_with_files None = Return ∅.
Proof.
  split; [|split].
  - apply (existing_avids_empty_without_num_or_prefix_dir
             sample_cfg media_with_files (Some (py "media/{title}"))).
    left. reflexivity.
  - apply (existing_avids_empty_without_num_or_prefix_dir
             sample_cfg media_with_files (Some (py "sorted/{num}"))).
    right. reflexivity.
  - apply (existing_avids_empty_without_num_or_prefix_dir
             sample_cfg media_with_files None).
    right. reflexivity.
Defined.

(** ** The scan: roots that cannot be walked *)

Example scan_slices_tree :
  movies <$> (match @scan_movies sample_lib sample_cfg slices_tree (py "videos") with
              | Return out => Some out
              | Raise _ => None
              end)
  = Some [ {| dvdid := Some (py "MOVIE-001"); cid := None;
              files := [py "videos/movie.a.mp4"; py "videos/movie.b.mp4";
                        py "videos/movie.c.mp4"];
              data_src := Some (py "normal") |};
           {| dvdid := Some (py "CLIP-002"); cid := None;
              files := [py "videos/clip.mkv"]; data_src := Some (py "normal") |} ].
Proof. vm_compute. reflexivity. Qed.

(** C4, as the specification states it, fails: the walk of a root that does
    not exist yields nothing, and the scan returns an empty list of movies
    like any scan that finds no movie. *)
Lemma scan_missing_root_returns_empty :
  resolve recycle_tree (py "nowhere") = None /\
  @scan_movies sample_lib sample_cfg recycle_tree (py "nowhere")
  = Return {| movies := []; failures := []; written := [] |}.
Proof. split; vm_compute; reflexivity. Qed.

(** C4, amended. For every root that is not a directory that can be listed
    (it does not exist, it is a regular file, or it is not readable) the
    scan raises nothing and returns an empty list of movies, with no failed
    item and no message. *)
Theorem scan_unwalkable_root_returns_empty `{AvidLib}
    (cfg : Cfg) (fs : node) (root : str)
    (Hroot : forall entries, resolve fs root <> Some (Dir true entries)) :
  scan_movies cfg fs root = Return {| movies := []; failures := []; written := [] |}.
Proof.
  unfold scan_movies, scan_walk.
  destruct (resolve fs root) as [[size|[|] entries|]|] eqn:Er; try reflexivity.
  exfalso. exact (Hroot entries eq_refl).
Qed.

Lemma scan_unwalkable_root_returns_empty_witness :
  @scan_movies sample_lib sample_cfg locked_tree (py "videos/private")
  = Return {| movies := []; failures := []; written := [] |}.
Proof.
  apply (@scan_unwalkable_root_returns_empty sample_lib sample_cfg locked_tree
           (py "videos/private")).
  intros entries. vm_compute. discriminate.
Defined.

(** ** The scan: exceptions during the walk *)

(** C5 breaks on the code when [skip_nfo_dir] is set.  The listing of a
    subfolder, made to look for an nfo file, is not guarded: a subfolder
    that cannot be read raises [OSError] and ends the scan.  A subfolder
    that matches the ignore pattern and holds an nfo file is removed from
    [dirnames] twice, and the second removal raises [ValueError].  With the
    option off both trees are scanned to the end. *)
Theorem scan_aborts_when_skip_nfo_dir_is_set :
  @scan_movies sample_lib nfo_cfg locked_tree (py "videos") = Raise OSError /\
  @scan_movies sample_lib nfo_cfg recycle_tree (py "videos") = Raise ValueError /\
  (exists out, @scan_movies sample_lib sample_cfg locked_tree (py "videos") = Return out /\
               map files (movies out) = [[py "videos/open/clip.mkv"]]) /\
  (exists out, @scan_movies sample_lib sample_cfg recycle_tree (py "videos") = Return out /\
               map files (movies out) = [[py "videos/open/clip.mkv"]]).
Proof.
  split; [vm_compute; reflexivity|].
  split; [vm_compute; reflexivity|].
  split; eexists; (split; [vm_compute; reflexivity | reflexivity]).
Qed.

(** ** The scan: the size of a group of slices *)

(** C10 breaks on the code.  The slice token of a file is the first
    character left after the substitution whether or not the pattern
    matched there, so with an empty common prefix the tokens can run past
    the letter z: twenty-seven files whose names start with the code points
    97 to 123 are accepted as the slices of one movie. *)
Theorem scan_accepts_twenty_seven_slices :
  exists m out,
    @scan_movies sample_lib sample_cfg many_slices_tree (py "videos") = Return out /\
    movies out = [m] /\
    length (files m) = 27 /\
    map (slice_token (files m)) (files m) = map (fun n => Some (chr n)) (seq 97 27) /\
    written out = [Debug_data_src (py "ABC-123") (py "normal")].
Proof.
  eexists. eexists. split; [vm_compute; reflexivity|].
  split; [reflexivity|]. split; [reflexivity|].
  split; vm_compute; reflexivity.
Qed.

(** ** Lists, results and sorting *)

Lemma bind_Return {A B : Type} (a : A) (k : A -> result B) : (Return a ≫= k) = k a.
Proof. reflexivity. Qed.

Lemma bind_Raise {A B : Type} (e : exn) (k : A -> result B) : (Raise e ≫= k) = Raise e.
Proof. reflexivity. Qed.

Ltac step_bind := rewrite ?bind_Return, ?bind_Raise; cbv beta.

(** Case analysis on the first comparison of numbers in the goal. *)
Ltac case_eqb H :=
  match goal with
  | |- context [Nat.eqb ?a ?b] => destruct (Nat.eqb_spec a b) as [H|H]
  end.

Lemma map_result_Forall2 {A B : Type} (f : A -> result B) l l' :
  map_result f l = Return l' <-> Forall2 (fun x y => f x = Return y) l l'.
Proof.
  revert l'. induction l as [|x l IH]; intros l'; cbn [map_result].
  - split; [intros [= <-]; constructor | intros Hf; inversion Hf; reflexivity].
  - split.
    + destruct (f x) as [y|e] eqn:Ef; cbn; [|discriminate].
      destruct (map_result f l) as [ys|e] eqn:El; cbn; [|discriminate].
      intros [= <-]. constructor; [exact Ef|]. now apply IH.
    + intros Hf. inversion Hf as [|x' y l1 ys Hxy Hrest]; subst.
      rewrite Hxy. cbn. apply IH in Hrest. rewrite Hrest. reflexivity.
Qed.

Lemma map_result_total {A B : Type} (f : A -> result B) l :
  Forall (fun x => exists y, f x = Return y) l -> exists l', map_result f l = Return l'.
Proof.
  induction 1 as [|x l [y Hy] _ [ys Hys]]; cbn [map_result].
  - eexists; reflexivity.
  - rewrite Hy. cbn. rewrite Hys. cbn. eexists; reflexivity.
Qed.

Lemma for_each_app {A S : Type} (body : S -> A -> result S) l1 l2 acc :
  for_each body (l1 ++ l2) acc = acc' ← for_each body l1 acc; for_each body l2 acc'.
Proof.
  revert acc. induction l1 as [|x l1 IH]; intros acc; cbn; [reflexivity|].
  destruct (body acc x); cbn; [apply IH | reflexivity].
Qed.

Lemma remove_dups_length_le {A : Type} `{EqDecision A} (l : list A) :
  length (remove_dups l) <= length l.
Proof.
  induction l as [|x l IH]; cbn; [lia|].
  destruct (decide_rel elem_of x l); cbn; lia.
Qed.

Lemma remove_dups_length_NoDup {A : Type} `{EqDecision A} (l : list A) :
  length (remove_dups l) = length l <-> NoDup l.
Proof.
  induction l as [|x l IH]; cbn.
  - split; [constructor | reflexivity].
  - destruct (decide_rel elem_of x l) as [Hin|Hin]; cbn.
    + pose proof (remove_dups_length_le l). split; [lia|].
      intros Hnd. apply NoDup_cons in Hnd as [Hx _]. contradiction.
    + split.
      * intros [= Hl]. apply NoDup_cons. split; [exact Hin | now apply IH].
      * intros Hnd. apply NoDup_cons in Hnd as [_ Hnd]. f_equal. now apply IH.
Qed.

Lemma remove_dups_singleton {A : Type} `{EqDecision A} (l : list A) :
  length (remove_dups l) = 1 <-> l <> [] /\ forall x y, x ∈ l -> y ∈ l -> x = y.
Proof.
  split.
  - intros Hlen. destruct (remove_dups l) as [|p [|q r]] eqn:Er; try discriminate.
    assert (Hall : forall x, x ∈ l -> x = p).
    { intros x Hx. apply elem_of_remove_dups in Hx. rewrite Er in Hx.
      now apply list_elem_of_singleton in Hx. }
    split.
    + intros ->. discriminate.
    + intros x y Hx Hy. now rewrite (Hall x Hx), (Hall y Hy).
  - intros [Hne Hall]. induction l as [|x l IH]; [congruence|]. cbn.
    destruct (decide_rel elem_of x l) as [Hin|Hin].
    + apply IH.
      * intros ->. now apply elem_of_nil in Hin.
      * intros a b Ha Hb. apply Hall; now apply elem_of_cons; right.
    + destruct l as [|y l]; [reflexivity|]. exfalso. apply Hin.
      rewrite (Hall x y); [left | left | right; left].
Qed.

Lemma ord_inj a b : ord a = ord b -> a = b.
Proof.
  unfold ord. intros Hab.
  rewrite <- (ascii_nat_embedding a), <- (ascii_nat_embedding b). now rewrite Hab.
Qed.

#[global] Instance char_le_total : Total char_le.
Proof. intros a b. unfold char_le. lia. Qed.

#[global] Instance char_le_trans : Transitive char_le.
Proof. intros a b c. unfold char_le. lia. Qed.

Lemma strict_run_last_ge l a d :
  StronglySorted lt (a :: l) -> last (a :: l) = Some d -> a + length l <= d.
Proof.
  revert a. induction l as [|b l IH]; intros a Hs Hl.
  - cbn in Hl. injection Hl as <-. cbn. lia.
  - rewrite last_cons_cons in Hl. apply StronglySorted_inv in Hs as [Hs Hall].
    apply Forall_cons in Hall as [Hab _]. specialize (IH b Hs Hl). cbn. lia.
Qed.

(** A strictly ascending list of numbers whose last element is the first
    plus the length minus one has no gap. *)
Lemma strict_run_contiguous l a d :
  StronglySorted lt (a :: l) -> last (a :: l) = Some d -> d = a + length l ->
  a :: l = seq a (S (length l)).
Proof.
  revert a. induction l as [|b l IH]; intros a Hs Hl Hd; [reflexivity|].
  rewrite last_cons_cons in Hl.
  pose proof Hs as Hs'. apply StronglySorted_inv in Hs' as [Hsb Hall].
  apply Forall_cons in Hall as [Hab _].
  pose proof (strict_run_last_ge l b d Hsb Hl) as Hge. cbn in Hd.
  assert (b = S a) as -> by lia.
  cbn [seq length]. f_equal. apply IH; [exact Hsb | exact Hl | lia].
Qed.

Lemma sorted_chars_strict chars :
  NoDup chars -> StronglySorted char_le chars -> StronglySorted lt (map ord chars).
Proof.
  intros Hnd Hs. induction Hs as [|a l Hs IH Hall]; cbn; [constructor|].
  apply NoDup_cons in Hnd as [Ha Hnd]. constructor; [now apply IH|].
  apply Forall_forall. intros n Hn.
  apply list_elem_of_In, in_map_iff in Hn as (c & <- & Hc).
  apply list_elem_of_In in Hc.
  rewrite Forall_forall in Hall. specialize (Hall c Hc).
  unfold char_le in Hall.
  assert (ord a <> ord c).
  { intros Heq. apply ord_inj in Heq. subst c. exact (Ha Hc). }
  lia.
Qed.

Lemma list_index_lookup c l i : list_index c l = Return i -> l !! i = Some c.
Proof.
  revert i. induction l as [|y l IH]; intros i; cbn; [discriminate|].
  unfold char_eqb. destruct (Ascii.eqb_spec y c) as [->|Hne].
  - intros [= <-]. reflexivity.
  - destruct (list_index c l) as [j|e]; cbn; [|discriminate].
    intros [= <-]. cbn. now apply IH.
Qed.

Lemma list_index_elem c l : c ∈ l -> exists i, list_index c l = Return i.
Proof.
  induction l as [|y l IH]; intros Hin; [now apply elem_of_nil in Hin|]. cbn.
  unfold char_eqb. destruct (Ascii.eqb_spec y c) as [->|Hne]; [eexists; reflexivity|].
  apply elem_of_cons in Hin as [->|Hin]; [congruence|].
  destruct (IH Hin) as [i ->]. cbn. eexists; reflexivity.
Qed.

Lemma list_index_NoDup c l i : NoDup l -> l !! i = Some c -> list_index c l = Return i.
Proof.
  intros Hnd Hi. destruct (list_index_elem c l) as [j Hj].
  { apply list_elem_of_lookup. eauto. }
  rewrite Hj. f_equal. apply list_index_lookup in Hj.
  exact (NoDup_lookup l j i c Hnd Hj Hi).
Qed.

(** ** The slice check *)

Lemma last_map {A B : Type} (f : A -> B) (l : list A) : last (map f l) = f <$> last l.
Proof.
  induction l as [|x [|y l] IH]; [reflexivity | reflexivity |].
  cbn [map] in *. now rewrite !last_cons_cons.
Qed.

Lemma first_chars_heads l cs :
  map_result first_char l = Return cs -> map head l = map Some cs.
Proof.
  intros Hm. apply map_result_Forall2 in Hm.
  induction Hm as [|r c l cs Hrc _ IH]; [reflexivity|]. cbn. rewrite IH. f_equal.
  destruct r; [discriminate|]. now injection Hrc as ->.
Qed.

Lemma remaining_tokens files :
  map head (remaining_of files) = map (slice_token files) files.
Proof. unfold remaining_of. rewrite !map_map. reflexivity. Qed.

Lemma remaining_postfixes files :
  map (drop 1) (remaining_of files) = map (slice_postfix files) files.
Proof. unfold remaining_of. rewrite !map_map. reflexivity. Qed.

Lemma remaining_length files : length (remaining_of files) = length files.
Proof. unfold remaining_of. now rewrite !length_map. Qed.

Lemma sub_slice_nonempty prefix s : s <> [] -> sub_slice prefix s 0 <> [].
Proof.
  destruct s as [|c s]; [congruence|]. intros _. cbn [sub_slice].
  destruct (slice_match_at prefix (c :: s)) as [[token len]|]; discriminate.
Qed.

Lemma slices_of_files files :
  Forall (fun f => basename f <> []) files ->
  exists slices, map_result first_char (remaining_of files) = Return slices.
Proof.
  intros Hb. apply map_result_total. unfold remaining_of.
  apply Forall_forall. intros r Hr.
  apply list_elem_of_In, in_map_iff in Hr as (b & <- & Hb').
  apply in_map_iff in Hb' as (f & <- & Hf).
  rewrite Forall_forall in Hb. specialize (Hb f (proj2 (list_elem_of_In _ _) Hf)).
  pose proof (sub_slice_nonempty (commonprefix (map basename files)) _ Hb) as Hne.
  destruct (sub_slice _ (basename f) 0) as [|c r]; [congruence|].
  eexists; reflexivity.
Qed.

Lemma same_postfix_remove_dups files :
  length (remove_dups (map (slice_postfix files) files)) = 1 <->
  files <> [] /\ same_postfix files.
Proof.
  rewrite remove_dups_singleton. unfold same_postfix. split.
  - intros [Hne Hall]. split; [intros ->; now apply Hne|].
    intros f g Hf Hg. apply Hall; apply list_elem_of_In, in_map; now apply list_elem_of_In.
  - intros [Hne Hall]. split; [destruct files; [congruence | discriminate]|].
    intros x y Hx Hy.
    apply list_elem_of_In, in_map_iff in Hx as (f & <- & Hf).
    apply list_elem_of_In, in_map_iff in Hy as (g & <- & Hg).
    apply Hall; now apply list_elem_of_In.
Qed.

Lemma map_Some_inj {A : Type} (l k : list A) : map Some l = map Some k -> l = k.
Proof.
  revert k. induction l as [|x l IH]; intros [|y k]; cbn; try discriminate; [reflexivity|].
  intros [= -> Hlk]. f_equal. now apply IH.
Qed.

Lemma map_fmap {A B : Type} (f : A -> B) (l : list A) : map f l = f <$> l.
Proof. reflexivity. Qed.

Lemma NoDup_map_Some {A : Type} (l : list A) : NoDup (map Some l) <-> NoDup l.
Proof. rewrite map_fmap. apply NoDup_fmap. intros x y [= ->]. reflexivity. Qed.

#[global] Instance char_le_antisymm : AntiSymm eq char_le.
Proof. intros a b Hab Hba. apply ord_inj. unfold char_le in *. lia. Qed.

Lemma seq_sorted_chars (chars : list ascii) a :
  map ord chars = seq a (length chars) -> StronglySorted char_le chars.
Proof.
  revert a. induction chars as [|c chars IH]; intros a Hm; [constructor|].
  cbn in Hm. injection Hm as Hc Hm. constructor; [exact (IH _ Hm)|].
  apply Forall_forall. intros x Hx. unfold char_le. rewrite Hc.
  assert (In (ord x) (seq (S a) (length chars))) as Hin.
  { rewrite <- Hm. apply in_map. now apply list_elem_of_In. }
  apply in_seq in Hin. lia.
Qed.

Lemma sorted_slices_facts slices :
  NoDup slices ->
  let sorted := merge_sort char_le slices in
  sorted ≡ₚ slices /\ NoDup sorted /\ StronglySorted char_le sorted /\
  StronglySorted lt (map ord sorted).
Proof.
  intros Hnd sorted.
  assert (Hp : sorted ≡ₚ slices) by apply merge_sort_Permutation.
  assert (Hnd' : NoDup sorted) by now rewrite Hp.
  assert (Hs : StronglySorted char_le sorted) by apply (StronglySorted_merge_sort _).
  repeat split; auto using sorted_chars_strict.
Qed.

(** The files picked for the sorted tokens are the files of the group. *)
Lemma mapped_files_spec files slices sorted mapped :
  map (slice_token files) files = map Some slices ->
  NoDup slices -> sorted ≡ₚ slices ->
  map_result (fun i => idx ← list_index i slices; list_at files idx) sorted
    = Return mapped ->
  mapped ≡ₚ files /\ map (slice_token files) mapped = map Some sorted.
Proof.
  intros Htok Hnd Hperm Hm.
  assert (Hlen : length files = length slices).
  { apply (f_equal length) in Htok. now rewrite !length_map in Htok. }
  set (pick := fun i => idx ← list_index i slices; list_at files idx) in *.
  set (g := fun i => match pick i with Return f => f | Raise _ => [] end).
  assert (Hg : mapped = map g sorted).
  { apply map_result_Forall2 in Hm. clear -Hm. subst g.
    induction Hm as [|c f l k Hcf _ IH]; [reflexivity|]. cbn. now rewrite Hcf, IH. }
  assert (Hpick : forall i c f, slices !! i = Some c -> files !! i = Some f ->
                                pick c = Return f).
  { intros i c f Hc Hf. unfold pick. rewrite (list_index_NoDup c slices i Hnd Hc).
    cbn. unfold list_at. now rewrite Hf. }
  assert (Hfiles : map g slices = files).
  { apply list_eq. intros i. rewrite map_fmap, list_lookup_fmap.
    destruct (slices !! i) as [c|] eqn:Hc; cbn.
    - destruct (lookup_lt_is_Some_2 files i) as [f Hf].
      { rewrite Hlen. eapply lookup_lt_Some; eauto. }
      rewrite Hf. f_equal. unfold g. now rewrite (Hpick i c f Hc Hf).
    - symmetry. apply lookup_ge_None. rewrite Hlen. now apply lookup_ge_None. }
  split.
  - rewrite Hg, <- Hfiles. now apply Permutation_map.
  - rewrite Hg, map_map. apply map_ext_in. intros c Hc.
    assert (c ∈ slices) as Hin by (rewrite <- Hperm; now apply list_elem_of_In).
    apply list_elem_of_lookup in Hin as [i Hi].
    destruct (lookup_lt_is_Some_2 files i) as [f Hf].
    { rewrite Hlen. eapply lookup_lt_Some; eauto. }
    unfold g. rewrite (Hpick i c f Hi Hf).
    assert (map (slice_token files) files !! i = Some (slice_token files f)) as Ht.
    { rewrite map_fmap, list_lookup_fmap, Hf. reflexivity. }
    rewrite Htok, map_fmap, list_lookup_fmap, Hi in Ht. cbn in Ht. congruence.
Qed.

(** When the check accepts, the three conditions hold and the files come
    back in the order of their tokens. *)
Lemma check_slices_accepts files mapped :
  check_slices files = Return (Slices mapped) ->
  slices_ok files /\
  exists sorted, contiguous_run files sorted /\ ordered_by_token files mapped sorted.
Proof.
  unfold check_slices.
  destruct (map_result first_char (remaining_of files)) as [slices|] eqn:Hs;
    step_bind; [|discriminate].
  rewrite remaining_postfixes.
  case_eqb Hpost; cbn [negb orb]; [|discriminate].
  case_eqb Hdup; cbn [negb orb]; [|discriminate].
  remember (merge_sort char_le slices) as sorted eqn:Hsorted.
  destruct (list_at sorted 0) as [first|] eqn:Hfirst; step_bind; [|discriminate].
  destruct (last_char sorted) as [final|] eqn:Hlast; step_bind; [|discriminate].
  destruct (is_first_slice first) eqn:Hstart; cbn [negb orb]; [|discriminate].
  case_eqb Hend; cbn [negb orb]; [|discriminate].
  destruct (map_result _ sorted) as [m|] eqn:Hm; step_bind; [|discriminate].
  intros [= <-].
  assert (Htok : map (slice_token files) files = map Some slices).
  { rewrite <- remaining_tokens. now apply first_chars_heads. }
  assert (Hnd : NoDup slices) by (apply remove_dups_length_NoDup; now symmetry).
  destruct (sorted_slices_facts slices Hnd) as (Hperm & _ & _ & Hstrict).
  rewrite <- Hsorted in Hperm, Hstrict. clear Hsorted.
  assert (Hlen : length sorted = length files).
  { rewrite Hperm. apply (f_equal length) in Htok. now rewrite !length_map in Htok. }
  assert (Hrun : contiguous_run files sorted).
  { split; [rewrite Htok; now apply Permutation_map|].
    exists first. split; [exact Hstart|].
    destruct sorted as [|c rest]; [discriminate|].
    unfold list_at in Hfirst. cbn in Hfirst. injection Hfirst as ->.
    unfold last_char in Hlast.
    destruct (last (first :: rest)) as [d|] eqn:Hd; [|discriminate].
    injection Hlast as ->.
    rewrite <- Hlen. cbn [length map] in *.
    rewrite <- (length_map ord rest).
    apply (strict_run_contiguous _ _ (ord final)); [exact Hstrict | |].
    - change (last (map ord (first :: rest)) = Some (ord final)).
      now rewrite last_map, Hd.
    - rewrite length_map. lia. }
  destruct (mapped_files_spec files slices sorted m Htok Hnd Hperm Hm) as [Hp Ht].
  split; [|exists sorted; split; [exact Hrun | split; assumption]].
  split; [now apply same_postfix_remove_dups in Hpost|].
  split; [unfold distinct_tokens; rewrite Htok; now apply NoDup_map_Some|].
  exists sorted. exact Hrun.
Qed.

Lemma Permutation_map_Some {A : Type} (l k : list A) :
  map Some l ≡ₚ map Some k -> l ≡ₚ k.
Proof.
  intros Hp. apply Permutation_map_inv in Hp as (l3 & Heq & Hp).
  apply map_Some_inj in Heq. subst l3. now symmetry.
Qed.

Lemma tokens_of_slices files slices :
  map_result first_char (remaining_of files) = Return slices ->
  map (slice_token files) files = map Some slices /\ length slices = length files.
Proof.
  intros Hs. assert (Htok : map (slice_token files) files = map Some slices).
  { rewrite <- remaining_tokens. now apply first_chars_heads. }
  split; [exact Htok|]. apply (f_equal length) in Htok. now rewrite !length_map in Htok.
Qed.

(** When the three conditions hold, the check accepts. *)
Lemma check_slices_complete files verdict :
  files <> [] -> slices_ok files -> check_slices files = Return verdict ->
  exists mapped, verdict = Slices mapped.
Proof.
  intros Hne (Hpost & Hdist & sorted' & Hperm' & first' & Hstart' & Hrun').
  unfold check_slices.
  destruct (map_result first_char (remaining_of files)) as [slices|] eqn:Hs;
    step_bind; [|discriminate].
  destruct (tokens_of_slices files slices Hs) as [Htok Hlen].
  rewrite remaining_postfixes.
  case_eqb Hp; cbn [negb orb];
    [|exfalso; apply Hp; apply same_postfix_remove_dups; now split].
  assert (Hnd : NoDup slices).
  { apply NoDup_map_Some. rewrite <- Htok. exact Hdist. }
  case_eqb Hd; cbn [negb orb];
    [|exfalso; apply Hd; symmetry; now apply remove_dups_length_NoDup].
  rewrite Htok in Hperm'. apply Permutation_map_Some in Hperm'.
  assert (Hlen' : length sorted' = length files) by now rewrite Hperm'.
  assert (Hsorted : merge_sort char_le slices = sorted').
  { apply (StronglySorted_unique char_le).
    - apply (StronglySorted_merge_sort _).
    - apply (seq_sorted_chars _ (ord first')). now rewrite Hlen'.
    - rewrite Hperm'. apply merge_sort_Permutation. }
  rewrite Hsorted.
  destruct sorted' as [|c rest]; [destruct files; [congruence | discriminate]|].
  rewrite <- Hlen' in Hrun'. cbn [length map seq] in Hrun'.
  injection Hrun' as Hc Hrest. apply ord_inj in Hc. subst c.
  change (list_at (first' :: rest) 0) with (Return (A:=ascii) first'). step_bind.
  assert (Hlast : last (first' :: rest) = Some (chr (ord first' + length rest))
                  /\ ord (chr (ord first' + length rest)) = ord first' + length rest).
  { assert (Hl : last (map ord (first' :: rest)) = Some (ord first' + length rest)).
    { cbn [map]. rewrite Hrest.
      change (ord first' :: seq (S (ord first')) (length rest))
        with (seq (ord first') (S (length rest))).
      rewrite seq_S. apply last_snoc. }
    rewrite last_map in Hl. destruct (last (first' :: rest)) as [d|]; [|discriminate].
    injection Hl as Hl. rewrite <- Hl. unfold chr, ord.
    now rewrite ascii_nat_embedding. }
  destruct Hlast as [Hlast Hord].
  unfold last_char. rewrite Hlast. step_bind. rewrite Hstart', Hord.
  cbn [negb orb length].
  replace (ord first' + S (length rest) - 1) with (ord first' + length rest) by lia.
  rewrite Nat.eqb_refl. cbn [negb].
  destruct (map_result _ (first' :: rest)) as [m|e]; step_bind; [|discriminate].
  intros [= <-]. now exists m.
Qed.

(** The check raises nothing when no base name is empty. *)
Lemma check_slices_total files :
  Forall (fun f => basename f <> []) files ->
  exists verdict, check_slices files = Return verdict.
Proof.
  intros Hb. destruct (slices_of_files files Hb) as [slices Hs].
  destruct (tokens_of_slices files slices Hs) as [Htok Hlen].
  unfold check_slices. rewrite Hs. step_bind. rewrite remaining_postfixes.
  case_eqb Hp; cbn [negb orb]; [|eexists; reflexivity].
  case_eqb Hd; cbn [negb orb]; [|eexists; reflexivity].
  apply same_postfix_remove_dups in Hp as [Hne _].
  pose proof (merge_sort_Permutation char_le slices) as Hperm.
  remember (merge_sort char_le slices) as sorted eqn:Hsorted. clear Hsorted.
  destruct sorted as [|c rest].
  { apply Permutation_nil in Hperm. subst slices.
    destruct files; [congruence | discriminate]. }
  change (list_at (c :: rest) 0) with (Return (A:=ascii) c). step_bind.
  unfold last_char.
  destruct (last (c :: rest)) as [d|] eqn:Hl;
    [|apply last_None in Hl; discriminate].
  step_bind.
  destruct (negb (is_first_slice c) || negb (ord d =? ord c + length (c :: rest) - 1));
    [eexists; reflexivity|].
  destruct (map_result_total
              (fun i => idx ← list_index i slices; list_at files idx) (c :: rest))
    as [m Hm].
  { apply Forall_forall. intros x Hx. rewrite Hperm in Hx.
    destruct (list_index_elem x slices Hx) as [i Hi]. rewrite Hi. step_bind.
    apply list_index_lookup, lookup_lt_Some in Hi. rewrite Hlen in Hi.
    destruct (lookup_lt_is_Some_2 files i Hi) as [f Hf].
    exists f. unfold list_at. now rewrite Hf. }
  rewrite Hm. step_bind. eexists; reflexivity.
Qed.

Example check_slices_movie_abc :
  check_slices [py "videos/movie.c.mp4"; py "videos/movie.a.mp4"; py "videos/movie.b.mp4"]
  = Return (Slices [py "videos/movie.a.mp4"; py "videos/movie.b.mp4";
                    py "videos/movie.c.mp4"]).
Proof. vm_compute. reflexivity. Qed.

Example check_slices_gap :
  check_slices [py "videos/movie.a.mp4"; py "videos/movie.c.mp4"]
  = Return (Invalid (py "ac")).
Proof. vm_compute. reflexivity. Qed.

Example check_slices_wrong_start :
  check_slices [py "videos/movie.b.mp4"; py "videos/movie.c.mp4"]
  = Return (Invalid (py "bc")).
Proof. vm_compute. reflexivity. Qed.

(** ** Dictionaries *)

Lemma keys_app {V : Type} (d1 d2 : pydict V) : keys (d1 ++ d2) = keys d1 ++ keys d2.
Proof. unfold keys. apply map_app. Qed.

Lemma elem_keys {V : Type} k v (d : pydict V) : (k, v) ∈ d -> k ∈ keys d.
Proof.
  intros Hin. apply list_elem_of_In. apply list_elem_of_In in Hin.
  exact (in_map fst _ _ Hin).
Qed.

Lemma keys_elem {V : Type} k (d : pydict V) : k ∈ keys d -> exists v, (k, v) ∈ d.
Proof.
  intros Hin. apply list_elem_of_In, in_map_iff in Hin as ([k' v] & <- & Hin).
  exists v. now apply list_elem_of_In.
Qed.

Lemma dict_get_None {V : Type} k (d : pydict V) : dict_get k d = None <-> k ∉ keys d.
Proof.
  induction d as [|[k' v] d IH]; cbn.
  - split; [intros _; apply not_elem_of_nil | reflexivity].
  - case_bool_decide as Hk; subst.
    + split; [discriminate|]. intros Hn. exfalso. apply Hn. left.
    + rewrite IH. rewrite not_elem_of_cons. split; [auto | tauto].
Qed.

Lemma dict_get_elem {V : Type} k v (d : pydict V) : dict_get k d = Some v -> (k, v) ∈ d.
Proof.
  induction d as [|[k' v'] d IH]; cbn; [discriminate|].
  case_bool_decide as Hk; subst.
  - intros [= ->]. left.
  - intros Hg. right. now apply IH.
Qed.

Lemma dict_get_NoDup {V : Type} k v (d : pydict V) :
  NoDup (keys d) -> (k, v) ∈ d -> dict_get k d = Some v.
Proof.
  induction d as [|[k' v'] d IH]; cbn; intros Hnd Hin; [now apply elem_of_nil in Hin|].
  apply NoDup_cons in Hnd as [Hk' Hnd].
  apply elem_of_cons in Hin as [[= -> ->]|Hin].
  - now rewrite bool_decide_eq_true_2.
  - case_bool_decide as Hk; [|now apply IH]. subst k'.
    exfalso. apply Hk'. exact (elem_keys _ _ _ Hin).
Qed.

Lemma dict_set_fresh {V : Type} k v (d : pydict V) :
  k ∉ keys d -> dict_set k v d = d ++ [(k, v)].
Proof.
  induction d as [|[k' v'] d IH]; cbn; [reflexivity|]. intros Hk.
  apply not_elem_of_cons in Hk as [Hne Hk].
  rewrite bool_decide_eq_false_2 by congruence. now rewrite IH.
Qed.

Lemma dict_set_mid {V : Type} k v v0 (d1 d2 : pydict V) :
  k ∉ keys d1 -> dict_set k v (d1 ++ (k, v0) :: d2) = d1 ++ (k, v) :: d2.
Proof.
  induction d1 as [|[k' v'] d1 IH]; cbn.
  - intros _. now rewrite bool_decide_eq_true_2.
  - intros Hk. apply not_elem_of_cons in Hk as [Hne Hk].
    rewrite bool_decide_eq_false_2 by congruence. now rewrite IH.
Qed.

Lemma dict_del_fresh {V : Type} k (d : pydict V) : k ∉ keys d -> dict_del k d = d.
Proof.
  unfold dict_del. induction d as [|[k' v'] d IH]; cbn; [reflexivity|]. intros Hk.
  apply not_elem_of_cons in Hk as [Hne Hk].
  rewrite bool_decide_eq_false_2 by congruence. cbn. now rewrite IH.
Qed.

Lemma dict_del_mid {V : Type} k v0 (d1 d2 : pydict V) :
  k ∉ keys d1 -> k ∉ keys d2 -> dict_del k (d1 ++ (k, v0) :: d2) = d1 ++ d2.
Proof.
  intros H1 H2. unfold dict_del. rewrite List.filter_app. cbn.
  rewrite bool_decide_eq_true_2 by reflexivity. cbn.
  fold (dict_del k d1). fold (dict_del k d2). now rewrite !dict_del_fresh.
Qed.

Lemma dict_get_mid {V : Type} k v (d1 d2 : pydict V) :
  k ∉ keys d1 -> dict_get k (d1 ++ (k, v) :: d2) = Some v.
Proof.
  induction d1 as [|[k' v'] d1 IH]; cbn.
  - intros _. now rewrite bool_decide_eq_true_2.
  - intros Hk. apply not_elem_of_cons in Hk as [Hne Hk].
    rewrite bool_decide_eq_false_2 by congruence. now apply IH.
Qed.

Lemma elem_split {A : Type} (x : A) (l : list A) : x ∈ l -> exists l1 l2, l = l1 ++ x :: l2.
Proof. intros Hin. apply list_elem_of_In, in_split in Hin. exact Hin. Qed.

Lemma NoDup_keys_mid {V : Type} k v (d1 d2 : pydict V) :
  NoDup (keys (d1 ++ (k, v) :: d2)) -> (k ∉ keys d1) /\ (k ∉ keys d2).
Proof.
  rewrite keys_app. cbn. intros Hnd. apply NoDup_app in Hnd as (_ & Hd & Hnd).
  apply NoDup_cons in Hnd as [Hk _]. split; [|exact Hk].
  intros Hin. apply (Hd k Hin). left.
Qed.

(** ** The duplicate check *)

Lemma kept_groups_app d1 d2 : kept_groups (d1 ++ d2) = kept_groups d1 ++ kept_groups d2.
Proof. unfold kept_groups. apply flat_map_app. Qed.

Lemma set_aside_app d1 d2 : set_aside (d1 ++ d2) = set_aside d1 ++ set_aside d2.
Proof. unfold set_aside. apply List.filter_app. Qed.

Lemma kept_groups_keys k d : k ∈ keys (kept_groups d) -> k ∈ keys d.
Proof.
  induction d as [|[k' files] d IH]; [auto|].
  change ((k', files) :: d) with ([(k', files)] ++ d).
  rewrite kept_groups_app, !keys_app, !elem_of_app. intros [Hk|Hk]; [|right; now apply IH].
  left. unfold kept_groups in Hk. cbn [flat_map fst snd] in Hk.
  destruct (group_fate files) as [[m|]|e]; cbn in Hk;
    try (now apply elem_of_nil in Hk).
  apply list_elem_of_singleton in Hk. subst. left.
Qed.

Lemma set_aside_keys k d : k ∈ keys (set_aside d) -> k ∈ keys d.
Proof.
  intros Hk. apply keys_elem in Hk as [v Hin]. unfold set_aside in Hin.
  apply list_elem_of_In, filter_In in Hin as [Hin _].
  apply (elem_keys k v). now apply list_elem_of_In.
Qed.

Lemma group_fate_single files :
  length files = 1 -> group_fate files = Return (Some files).
Proof. intros Hl. unfold group_fate. now rewrite Hl. Qed.

Lemma check_group_single st avid files :
  length files = 1 -> check_group st (avid, files) = Return st.
Proof. intros Hl. unfold check_group. now rewrite Hl. Qed.

Lemma check_group_kept st avid files mapped :
  length files <> 1 -> group_fate files = Return (Some mapped) ->
  check_group st (avid, files)
  = Return {| groups := dict_set avid mapped (groups st);
              non_slice_dup := non_slice_dup st; check_log := check_log st |}.
Proof.
  intros Hl. unfold group_fate, check_group.
  apply Nat.eqb_neq in Hl. rewrite Hl.
  destruct (1 <? length (remove_dups (map dirname files))); [discriminate|].
  destruct (check_slices files) as [[m|p r|s]|e]; step_bind; try discriminate.
  now intros [= ->].
Qed.

Lemma check_group_set_aside st avid files :
  group_fate files = Return None ->
  exists note, check_group st (avid, files) = Return (reject avid files note st).
Proof.
  unfold group_fate, check_group.
  destruct (length files =? 1); [discriminate|].
  destruct (1 <? length (remove_dups (map dirname files))); [eexists; reflexivity|].
  destruct (check_slices files) as [[m|p r|s]|e]; step_bind; try discriminate;
    intros _; eexists; reflexivity.
Qed.

(** The loop of the duplicate check, from the state reached after the
    items [done]: every identifier is dealt with by its own round. *)
Lemma check_loop rest :
  forall done notes,
    NoDup (keys (done ++ rest)) ->
    Forall (fun item => exists fate, group_fate (snd item) = Return fate) rest ->
    exists notes',
      for_each check_group rest
        {| groups := kept_groups done ++ rest; non_slice_dup := set_aside done;
           check_log := notes |}
      = Return {| groups := kept_groups (done ++ rest);
                  non_slice_dup := set_aside (done ++ rest);
                  check_log := notes' |}.
Proof.
  induction rest as [|[avid files] rest IH]; intros done notes Hnd Hfate.
  - cbn. rewrite !app_nil_r. eexists; reflexivity.
  - apply Forall_cons in Hfate as [[fate Hf] Hfate]. cbn [snd] in Hf.
    pose proof (NoDup_keys_mid _ _ _ _ Hnd) as [Hd Hr].
    assert (Hk : avid ∉ keys (kept_groups done)).
    { intros Hin. apply Hd. now apply kept_groups_keys. }
    assert (Hs : avid ∉ keys (set_aside done)).
    { intros Hin. apply Hd. now apply set_aside_keys. }
    specialize (IH (done ++ [(avid, files)])).
    rewrite <- !app_assoc in IH. cbn [app] in IH.
    rewrite kept_groups_app, set_aside_app in IH.
    cbn [for_each].
    unfold kept_groups at 2 in IH. unfold set_aside at 2 in IH.
    cbn [flat_map List.filter snd fst] in IH. rewrite Hf in IH.
    destruct fate as [mapped|].
    + destruct (Nat.eq_dec (length files) 1) as [Hl|Hl].
      * rewrite check_group_single by exact Hl. step_bind.
        rewrite group_fate_single in Hf by exact Hl. injection Hf as <-.
        rewrite !app_nil_r in IH. rewrite <- !app_assoc in IH. cbn [app] in IH.
        now apply IH.
      * rewrite (check_group_kept _ _ _ mapped Hl Hf). step_bind. cbn [groups non_slice_dup check_log].
        rewrite dict_set_mid by exact Hk.
        rewrite !app_nil_r in IH. rewrite <- !app_assoc in IH. cbn [app] in IH.
        now apply IH.
    + destruct (check_group_set_aside
                  {| groups := kept_groups done ++ (avid, files) :: rest;
                     non_slice_dup := set_aside done; check_log := notes |}
                  avid files Hf) as [note ->].
      step_bind. unfold reject. cbn [groups non_slice_dup check_log].
      rewrite dict_del_mid by assumption. rewrite dict_set_fresh by exact Hs.
      rewrite !app_nil_r in IH. now apply IH.
Qed.

Lemma check_duplicates_spec dic :
  NoDup (keys dic) ->
  Forall (fun item => exists fate, group_fate (snd item) = Return fate) dic ->
  exists notes,
    check_duplicates dic
    = Return {| groups := kept_groups dic; non_slice_dup := set_aside dic;
                check_log := notes |}.
Proof.
  intros Hnd Hfate. unfold check_duplicates.
  exact (check_loop dic [] [] Hnd Hfate).
Qed.

Lemma group_fate_total files :
  Forall (fun f => basename f <> []) files ->
  exists fate, group_fate files = Return fate.
Proof.
  intros Hb. unfold group_fate.
  destruct (length files =? 1); [eexists; reflexivity|].
  destruct (1 <? length (remove_dups (map dirname files))); [eexists; reflexivity|].
  destruct (check_slices_total files Hb) as [verdict ->]. step_bind.
  destruct verdict; eexists; reflexivity.
Qed.

Lemma check_slices_nil : check_slices [] = Return (Unrecognized [] []).
Proof. reflexivity. Qed.

(** A group that is kept has one file, or lies in one folder and passed the
    slice check; its files are those of the group. *)
Lemma group_fate_kept files mapped :
  group_fate files = Return (Some mapped) ->
  mapped ≡ₚ files /\ files <> [] /\
  ((length files = 1 /\ mapped = files) \/
   (length files <> 1 /\ length (remove_dups (map dirname files)) <= 1 /\
    check_slices files = Return (Slices mapped))).
Proof.
  unfold group_fate. destruct (Nat.eqb_spec (length files) 1) as [Hl|Hl].
  - intros [= <-]. split; [reflexivity|]. split; [|now left].
    intros ->. discriminate.
  - destruct (Nat.ltb_spec 1 (length (remove_dups (map dirname files)))) as [Hd|Hd];
      [discriminate|].
    destruct (check_slices files) as [[m|p r|s]|e] eqn:Hc; step_bind; try discriminate.
    intros [= ->].
    destruct (check_slices_accepts files mapped Hc) as (_ & sorted & _ & Hperm & _).
    split; [exact Hperm|]. split; [|right; auto].
    intros ->. rewrite check_slices_nil in Hc. discriminate.
Qed.

Lemma group_fate_set_aside_multi files :
  2 <= length files -> 1 < length (remove_dups (map dirname files)) ->
  group_fate files = Return None.
Proof.
  intros Hl Hd. unfold group_fate.
  destruct (Nat.eqb_spec (length files) 1); [lia|].
  apply Nat.ltb_lt in Hd. now rewrite Hd.
Qed.

Lemma kept_groups_elem avid mapped d :
  (avid, mapped) ∈ kept_groups d <->
  exists files, (avid, files) ∈ d /\ group_fate files = Return (Some mapped).
Proof.
  unfold kept_groups. rewrite list_elem_of_In, in_flat_map. split.
  - intros ([k files] & Hin & Hm). cbn [fst snd] in Hm.
    destruct (group_fate files) as [[m|]|e] eqn:Hf; cbn in Hm; try contradiction.
    destruct Hm as [[= -> ->]|[]]. exists files. split; [now apply list_elem_of_In|].
    exact Hf.
  - intros (files & Hin & Hf). exists (avid, files).
    split; [now apply list_elem_of_In|]. cbn [fst snd]. rewrite Hf. now left.
Qed.

Lemma set_aside_elem avid files d :
  (avid, files) ∈ set_aside d <-> (avid, files) ∈ d /\ group_fate files = Return None.
Proof.
  unfold set_aside. rewrite list_elem_of_In, filter_In, <- list_elem_of_In. cbn [snd].
  destruct (group_fate files) as [[m|]|e]; intuition congruence.
Qed.

(** ** The message and the movie records *)

Lemma relpath_total path start : path <> [] -> exists rel, relpath path start = Return rel.
Proof.
  intros Hne. unfold relpath. destruct path as [|c path]; [congruence|]. cbn [nonempty negb].
  match goal with |- context [match ?l with [] => _ | _ :: _ => _ end] => destruct l end;
    eexists; reflexivity.
Qed.

Lemma basename_nonempty_path p : basename p <> [] -> p <> [].
Proof. intros Hb ->. now apply Hb. Qed.

Lemma duplicate_lines_for root files :
  forall acc rels,
    map_result (fun f => relpath f root) files = Return rels ->
    for_each
      (fun msg f => rel ← relpath f root; Return (msg ++ py "  " ++ rel ++ [newline]))
      files acc
    = Return (acc ++ concat (map (fun rel => py "  " ++ rel ++ [newline]) rels)).
Proof.
  induction files as [|f files IH]; intros acc rels; cbn [map_result for_each].
  - intros [= <-]. cbn. now rewrite app_nil_r.
  - destruct (relpath f root) as [rel|e]; step_bind; [|discriminate].
    destruct (map_result _ files) as [rels'|e] eqn:Hm; step_bind; [|discriminate].
    intros [= <-]. rewrite (IH _ rels' eq_refl). cbn [map concat].
    now rewrite <- !app_assoc.
Qed.

Lemma duplicate_lines_spec root avid files :
  Forall (fun f => f <> []) files ->
  exists rels,
    map_result (fun f => relpath f root) files = Return rels /\
    duplicate_lines root (avid, files) = Return (message_block avid rels).
Proof.
  intros Hne.
  destruct (map_result_total (fun f => relpath f root) files) as [rels Hr].
  { eapply Forall_impl; [exact Hne|]. intros f Hf. now apply relpath_total. }
  exists rels. split; [exact Hr|]. unfold duplicate_lines, message_block.
  rewrite (duplicate_lines_for root files _ rels Hr). now rewrite <- !app_assoc.
Qed.

Lemma duplicate_message_for root d :
  Forall (fun item => Forall (fun f => f <> []) (snd item)) d ->
  forall acc,
  exists body,
    for_each (fun msg item => lines ← duplicate_lines root item; Return (msg ++ lines))
             d acc = Return (acc ++ body) /\
    forall avid files, (avid, files) ∈ d ->
      exists rels pre post,
        map_result (fun f => relpath f root) files = Return rels /\
        body = pre ++ message_block avid rels ++ post.
Proof.
  induction 1 as [|[avid files] d Hfiles _ IH]; intros acc.
  - exists []. split; [cbn; now rewrite app_nil_r|].
    intros ? ? Hin. now apply elem_of_nil in Hin.
  - cbn [snd] in Hfiles. destruct (duplicate_lines_spec root avid files Hfiles) as (rels & Hr & Hl).
    cbn [for_each]. rewrite Hl. step_bind.
    destruct (IH (acc ++ message_block avid rels)) as (body & Hbody & Hin).
    exists (message_block avid rels ++ body). split.
    + rewrite Hbody. now rewrite <- app_assoc.
    + intros a fs Ha. apply elem_of_cons in Ha as [[= -> ->]|Ha].
      * exists rels, [], body. split; [exact Hr | reflexivity].
      * destruct (Hin a fs Ha) as (rels' & pre & post & Hr' & ->).
        exists rels', (message_block avid rels ++ pre), post.
        split; [exact Hr' | now rewrite <- app_assoc].
Qed.

Lemma duplicate_message_spec root d :
  Forall (fun item => Forall (fun f => f <> []) (snd item)) d ->
  exists msg,
    duplicate_message root d = Return msg /\
    forall avid files, (avid, files) ∈ d ->
      exists rels pre post,
        map_result (fun f => relpath f root) files = Return rels /\
        msg = pre ++ message_block avid rels ++ post.
Proof.
  intros Hd. destruct (duplicate_message_for root d Hd []) as (body & Hb & Hin).
  exists body. split; [exact Hb | exact Hin].
Qed.

Lemma message_block_nonempty avid rels pre post :
  nonempty (pre ++ message_block avid rels ++ post) = true.
Proof.
  unfold message_block.
  destruct pre; [|reflexivity]. destruct avid; reflexivity.
Qed.

Section Movies.

Context `{AvidLib}.

Lemma movie_of_spec avid group :
  group <> [] ->
  exists m, movie_of (avid, group) = Return m /\
            movie_avid m = Some avid /\ files m = group.
Proof.
  intros Hne. unfold movie_of.
  case_bool_decide as Hsrc; cbn [negb].
  - destruct group as [|f group]; [congruence|].
    change (list_at (f :: group) 0) with (Return (A:=str) f). step_bind.
    eexists. split; [reflexivity|]. split; [|reflexivity].
    unfold movie_avid. cbn [data_src cid]. rewrite Hsrc.
    now rewrite bool_decide_eq_true_2.
  - eexists. split; [reflexivity|]. split; [|reflexivity].
    unfold movie_avid. cbn [data_src dvdid].
    rewrite bool_decide_eq_false_2; [reflexivity|]. intros [= Heq]. now apply Hsrc.
Qed.

Lemma movies_spec d :
  Forall (fun item => snd item <> []) d ->
  exists ms,
    map_result movie_of d = Return ms /\
    Forall2 (fun item m => movie_avid m = Some (fst item) /\ files m = snd item) d ms.
Proof.
  induction 1 as [|[avid group] d Hne _ (ms & Hms & Hall)]; cbn [map_result].
  - exists []. split; [reflexivity | constructor].
  - destruct (movie_of_spec avid group Hne) as (m & -> & Ha & Hf). step_bind.
    rewrite Hms. step_bind. exists (m :: ms). split; [reflexivity|].
    constructor; [split; assumption | exact Hall].
Qed.

End Movies.

(** ** Everything after the walk *)

Section FinishSpec.

Context `{AvidLib}.

Lemma kept_groups_nonempty d :
  Forall (fun item : str * list str => snd item <> []) (kept_groups d).
Proof.
  apply Forall_forall. intros [avid mapped] Hin.
  apply kept_groups_elem in Hin as (files & _ & Hf).
  destruct (group_fate_kept files mapped Hf) as (Hperm & Hne & _). cbn [snd].
  intros ->. apply Permutation_nil in Hperm. congruence.
Qed.

Lemma set_aside_paths d :
  dic_ok d ->
  Forall (fun item : str * list str => Forall (fun f => f <> []) (snd item)) (set_aside d).
Proof.
  intros [_ Hpaths]. apply Forall_forall. intros [avid files] Hin.
  apply set_aside_elem in Hin as [Hin _].
  rewrite Forall_forall in Hpaths. specialize (Hpaths _ Hin). cbn [snd] in *.
  eapply Forall_impl; [exact Hpaths|]. intros f. apply basename_nonempty_path.
Qed.

(** From a state whose groups are well formed the rest of the scan raises
    nothing: the movies are built from the groups that are kept, in order,
    and the message lists the groups that are set aside. *)
Lemma finish_scan_spec root st d' s' has_avid :
  merge_small_videos (dic st) (small_videos st) = (d', s', has_avid) ->
  dic_ok d' ->
  exists ms notes msg,
    finish_scan root st
    = Return {| movies := ms; failures := failed_items st;
                written := log st ++ report_skipped s' has_avid ++ notes
                           ++ (if nonempty msg then [Error_duplicates msg] else [])
                           ++ map data_src_note (kept_groups d') |} /\
    Forall2 (fun item m => movie_avid m = Some (fst item) /\ files m = snd item)
            (kept_groups d') ms /\
    (forall avid files, (avid, files) ∈ set_aside d' ->
       exists rels pre post,
         map_result (fun f => relpath f root) files = Return rels /\
         msg = pre ++ message_block avid rels ++ post).
Proof.
  intros Hmerge Hok. unfold finish_scan. rewrite Hmerge.
  destruct (check_duplicates_spec d') as [notes Hcheck].
  { exact (proj1 Hok). }
  { eapply Forall_impl; [exact (proj2 Hok)|]. intros item. apply group_fate_total. }
  rewrite Hcheck. step_bind. cbn [groups non_slice_dup check_log].
  destruct (duplicate_message_spec root (set_aside d') (set_aside_paths d' Hok))
    as (msg & Hmsg & Hblocks).
  rewrite Hmsg. step_bind.
  destruct (movies_spec (kept_groups d') (kept_groups_nonempty d')) as (ms & Hms & Hall).
  rewrite Hms. step_bind.
  exists ms, notes, msg. split; [reflexivity|]. split; [exact Hall | exact Hblocks].
Qed.

End FinishSpec.

(** ** Small videos *)

Lemma dict_has_true {V : Type} a (d : pydict V) : dict_has a d = true <-> a ∈ keys d.
Proof.
  unfold dict_has. destruct (dict_get a d) as [v|] eqn:Hg.
  - split; [intros _|reflexivity]. apply dict_get_elem in Hg. exact (elem_keys _ _ _ Hg).
  - split; [discriminate|]. intros Hin. now apply dict_get_None in Hg.
Qed.

Lemma dict_has_keys {V W : Type} a (d1 : pydict V) (d2 : pydict W) :
  keys d1 = keys d2 -> dict_has a d1 = dict_has a d2.
Proof.
  intros Hk. apply eq_true_iff_eq. rewrite !dict_has_true. now rewrite Hk.
Qed.

Lemma keys_dict_set {V : Type} k v (d : pydict V) :
  keys (dict_set k v d) = if dict_has k d then keys d else keys d ++ [k].
Proof.
  unfold dict_has, keys. induction d as [|[k' v'] d IH]; cbn; [reflexivity|].
  case_bool_decide as Hk; subst; [reflexivity|]. cbn. rewrite IH.
  destruct (dict_get k d); reflexivity.
Qed.

Lemma dict_get_set_eq {V : Type} k v (d : pydict V) : dict_get k (dict_set k v d) = Some v.
Proof.
  induction d as [|[k' v'] d IH]; cbn.
  - now rewrite bool_decide_eq_true_2.
  - case_bool_decide as Hk; subst; cbn.
    + now rewrite bool_decide_eq_true_2.
    + now rewrite bool_decide_eq_false_2.
Qed.

Lemma dict_get_set_ne {V : Type} k k' v (d : pydict V) :
  k <> k' -> dict_get k' (dict_set k v d) = dict_get k' d.
Proof.
  intros Hne. induction d as [|[k0 v0] d IH]; cbn.
  - now rewrite bool_decide_eq_false_2.
  - case_bool_decide as Hk; subst; cbn.
    + now rewrite !bool_decide_eq_false_2.
    + case_bool_decide; [reflexivity | exact IH].
Qed.

Lemma keys_dict_set_elem {V : Type} x k v (d : pydict V) :
  x ∈ keys (dict_set k v d) <-> x = k \/ x ∈ keys d.
Proof.
  rewrite keys_dict_set. destruct (dict_has k d) eqn:Hh.
  - apply dict_has_true in Hh. split; [now right|]. intros [->|Hx]; assumption.
  - rewrite elem_of_app, list_elem_of_singleton. tauto.
Qed.

Lemma NoDup_keys_dict_set {V : Type} k v (d : pydict V) :
  NoDup (keys d) -> NoDup (keys (dict_set k v d)).
Proof.
  intros Hnd. rewrite keys_dict_set. destruct (dict_has k d) eqn:Hh; [exact Hnd|].
  apply NoDup_app. split; [exact Hnd|]. split; [|apply NoDup_singleton].
  intros x Hx Hk. apply list_elem_of_singleton in Hk. subst x.
  apply dict_has_true in Hx. congruence.
Qed.

Lemma dict_set_elem {V : Type} k v k' v' (d : pydict V) :
  (k', v') ∈ dict_set k v d -> (k' = k /\ v' = v) \/ (k', v') ∈ d.
Proof.
  induction d as [|[k0 v0] d IH]; cbn.
  - intros Hin. apply list_elem_of_singleton in Hin. injection Hin as -> ->. now left.
  - case_bool_decide as Hk; subst.
    + intros Hin. apply elem_of_cons in Hin as [[= -> ->]|Hin]; [now left|].
      right. now right.
    + intros Hin. apply elem_of_cons in Hin as [[= -> ->]|Hin]; [right; left|].
      destruct (IH Hin) as [?|?]; [now left | right; now right].
Qed.

Section Merge.

Context `{AvidLib}.

Lemma joins_group_keys d1 d2 name :
  keys d1 = keys d2 -> joins_group d1 name = joins_group d2 name.
Proof.
  intros Hk. unfold joins_group. destruct (avid_of name); [|reflexivity].
  now apply dict_has_keys.
Qed.

Lemma joins_group_true d name :
  joins_group d name = true <->
  exists a g, avid_of name = Some a /\ dict_get a d = Some g.
Proof.
  unfold joins_group, dict_has. destruct (avid_of name) as [a|].
  - destruct (dict_get a d) as [g|] eqn:Hg.
    + split; [intros _; now exists a, g | reflexivity].
    + split; [discriminate|]. intros (a' & g & [= <-] & Hg'). congruence.
  - split; [discriminate|]. intros (a & g & Ha & _). discriminate.
Qed.

Lemma merge_step_join d kept rest h name paths a g :
  avid_of name = Some a -> dict_get a d = Some g ->
  name ∉ keys kept -> name ∉ keys rest ->
  merge_step (d, kept ++ (name, paths) :: rest, h) name
  = (dict_set a (g ++ paths) d, kept ++ rest, h).
Proof.
  intros Ha Hg Hk Hr. unfold merge_step. rewrite Ha, Hg. unfold dict_pop.
  rewrite dict_get_mid by exact Hk. rewrite dict_del_mid by assumption. reflexivity.
Qed.

Lemma merge_step_stay d small h name :
  joins_group d name = false ->
  merge_step (d, small, h) name
  = (d, small,
     if truthy (avid_of name) then dict_set name (default [] (avid_of name)) h else h).
Proof.
  intros Hj. unfold merge_step. unfold joins_group, dict_has in Hj.
  destruct (avid_of name) as [a|]; [|reflexivity].
  destruct (dict_get a d); [discriminate|]. destruct (truthy (Some a)); reflexivity.
Qed.

Lemma filter_stays_keys d1 d2 (l : pydict (list str)) :
  keys d1 = keys d2 -> List.filter (stays_skipped d1) l = List.filter (stays_skipped d2) l.
Proof.
  intros Hk. apply List.filter_ext. intros item. unfold stays_skipped.
  now rewrite (joins_group_keys d1 d2).
Qed.

(** The loop over the names of the small files, from the state reached
    after the buckets [kept] stayed: a bucket whose name carries the
    identifier of a group is moved to the end of that group, the others
    stay, and no group is added or loses a file. *)
Lemma merge_fold rest :
  forall kept d h,
    NoDup (keys (kept ++ rest)) ->
    exists d' h',
      fold_left merge_step (keys rest) (d, kept ++ rest, h)
      = (d', kept ++ List.filter (stays_skipped d) rest, h') /\
      keys d' = keys d /\
      (forall a g, dict_get a d = Some g ->
         exists extra, dict_get a d' = Some (g ++ extra) /\
           forall p, p ∈ extra -> exists name paths, (name, paths) ∈ rest /\ p ∈ paths) /\
      (forall name paths a, (name, paths) ∈ rest -> avid_of name = Some a ->
         dict_has a d = true ->
         exists g, dict_get a d' = Some g /\ forall p, p ∈ paths -> p ∈ g) /\
      (forall name, name ∈ keys h' <->
         name ∈ keys h \/
         (name ∈ keys rest /\ truthy (avid_of name) = true /\ joins_group d name = false)).
Proof.
  induction rest as [|[name paths] rest IH]; intros kept d h Hnd.
  - exists d, h. cbn [keys map fold_left List.filter]. split; [reflexivity|].
    split; [reflexivity|]. split.
    { intros a g Hg. exists []. rewrite app_nil_r. split; [exact Hg|].
      intros p Hp. now apply elem_of_nil in Hp. }
    split.
    { intros ? ? ? Hin. now apply elem_of_nil in Hin. }
    intros n. split; [now left|]. intros [Hn|(Hn & _)]; [exact Hn|].
    now apply elem_of_nil in Hn.
  - pose proof (NoDup_keys_mid _ _ _ _ Hnd) as [Hk Hr].
    change (keys ((name, paths) :: rest)) with (name :: keys rest).
    cbn [fold_left List.filter]. unfold stays_skipped at 1. cbn [fst].
    destruct (joins_group d name) eqn:Hj; cbn [negb].
    + (* the bucket joins a group *)
      pose proof Hj as Hj'. apply joins_group_true in Hj' as (a & g & Ha & Hg).
      rewrite (merge_step_join d kept rest h name paths a g Ha Hg Hk Hr).
      assert (Hnd' : NoDup (keys (kept ++ rest))).
      { rewrite keys_app in *. cbn in Hnd. apply NoDup_app in Hnd as (H1 & H2 & H3).
        apply NoDup_cons in H3 as [_ H3]. apply NoDup_app. split; [exact H1|].
        split; [|exact H3]. intros x Hx Hx'. apply (H2 x Hx). now right. }
      assert (Hkeys : keys (dict_set a (g ++ paths) d) = keys d).
      { rewrite keys_dict_set. unfold dict_has. now rewrite Hg. }
      destruct (IH kept (dict_set a (g ++ paths) d) h Hnd')
        as (d' & h' & Hfold & Hkd & Hgrow & Hjoin & Hhas).
      exists d', h'. split.
      { rewrite Hfold. now rewrite (filter_stays_keys _ d). }
      split; [congruence|]. split.
      { intros a' g' Hg'. destruct (decide (a = a')) as [<-|Hne].
        - assert (g' = g) as -> by congruence.
          destruct (Hgrow a (g ++ paths) (dict_get_set_eq _ _ _)) as (extra & He & Hp).
          exists (paths ++ extra). rewrite app_assoc. split; [exact He|].
          intros p Hin. apply elem_of_app in Hin as [Hin|Hin].
          + exists name, paths. split; [left | exact Hin].
          + destruct (Hp p Hin) as (n & ps & Hn & Hps).
            exists n, ps. split; [now right | exact Hps].
        - rewrite <- (dict_get_set_ne a a' (g ++ paths) d Hne) in Hg'.
          destruct (Hgrow a' g' Hg') as (extra & He & Hp).
          exists extra. split; [exact He|].
          intros p Hin. destruct (Hp p Hin) as (n & ps & Hn & Hps).
          exists n, ps. split; [now right | exact Hps]. }
      split.
      { intros n ps a' Hin Ha' Hhas'.
        apply elem_of_cons in Hin as [[= -> ->]|Hin].
        - assert (a' = a) as -> by congruence.
          destruct (Hgrow a (g ++ paths) (dict_get_set_eq _ _ _)) as (extra & He & _).
          exists ((g ++ paths) ++ extra). split; [exact He|].
          intros p Hp. rewrite !elem_of_app. auto.
        - apply (Hjoin n ps a' Hin Ha').
          now rewrite (dict_has_keys a' _ d Hkeys). }
      intros n. rewrite Hhas. rewrite (joins_group_keys _ d n Hkeys).
      split; (intros [Hn|(Hn & Ht & Hf)]; [now left|right]).
      * split; [now right | now split].
      * split; [|now split]. apply elem_of_cons in Hn as [->|Hn]; [congruence | exact Hn].
    + (* the bucket stays *)
      rewrite (merge_step_stay d _ h name Hj).
      set (h1 := if truthy (avid_of name)
                 then dict_set name (default [] (avid_of name)) h else h).
      assert (Hnd' : NoDup (keys ((kept ++ [(name, paths)]) ++ rest))).
      { now rewrite <- app_assoc. }
      destruct (IH (kept ++ [(name, paths)]) d h1 Hnd')
        as (d' & h' & Hfold & Hkd & Hgrow & Hjoin & Hhas).
      rewrite <- !app_assoc in Hfold. cbn [app] in Hfold.
      exists d', h'. split; [exact Hfold|]. split; [exact Hkd|]. split.
      { intros a g Hg. destruct (Hgrow a g Hg) as (extra & He & Hp).
        exists extra. split; [exact He|].
        intros p Hin. destruct (Hp p Hin) as (n & ps & Hn & Hps).
        exists n, ps. split; [now right | exact Hps]. }
      split.
      { intros n ps a Hin Ha Hhas'.
        apply elem_of_cons in Hin as [[= -> ->]|Hin]; [|now apply (Hjoin n ps a)].
        exfalso. unfold joins_group in Hj. rewrite Ha in Hj. congruence. }
      intros n. rewrite Hhas. subst h1.
      destruct (truthy (avid_of name)) eqn:Ht.
      * rewrite keys_dict_set_elem. rewrite elem_of_cons.
        split.
        -- intros [[->|Hn]|(Hn & Ht' & Hf)]; [right | now left | right]; auto.
        -- intros [Hn|([->|Hn] & Ht' & Hf)]; auto.
      * rewrite elem_of_cons. split.
        -- intros [Hn|(Hn & Ht' & Hf)]; [now left | right; auto].
        -- intros [Hn|([->|Hn] & Ht' & Hf)]; [now left | congruence | right; auto].
Qed.

(** The merge as a whole. *)
Lemma merge_small_videos_spec d s :
  NoDup (keys s) ->
  exists d' h',
    merge_small_videos d s = (d', List.filter (stays_skipped d) s, h') /\
    keys d' = keys d /\
    (forall a g, dict_get a d = Some g ->
       exists extra, dict_get a d' = Some (g ++ extra) /\
         forall p, p ∈ extra -> exists name paths, (name, paths) ∈ s /\ p ∈ paths) /\
    (forall name paths a, (name, paths) ∈ s -> avid_of name = Some a ->
       dict_has a d = true ->
       exists g, dict_get a d' = Some g /\ forall p, p ∈ paths -> p ∈ g) /\
    (forall name, name ∈ keys h' <->
       (name ∈ keys s /\ truthy (avid_of name) = true /\ joins_group d name = false)).
Proof.
  intros Hnd. destruct (merge_fold s [] d [] Hnd) as (d' & h' & Hf & Hk & Hg & Hj & Hh).
  exists d', h'. split; [exact Hf|]. split; [exact Hk|]. split; [exact Hg|].
  split; [exact Hj|]. intros n. rewrite Hh. split; [|now right].
  intros [Hn|Hn]; [now apply elem_of_nil in Hn | exact Hn].
Qed.

End Merge.

(** ** Paths *)

Lemma char_eqb_eq a b : char_eqb a b = true <-> a = b.
Proof. unfold char_eqb. apply Ascii.eqb_eq. Qed.

Lemma rfind_char_lt c s k : rfind_char c s = Some k -> k < length s.
Proof.
  revert k. induction s as [|a s IH]; intros k; cbn; [discriminate|].
  destruct (rfind_char c s) as [i|].
  - intros [= <-]. specialize (IH i eq_refl). lia.
  - destruct (char_eqb a c); [|discriminate]. intros [= <-]. lia.
Qed.

Lemma rfind_char_app_absent c x b :
  forallb (fun a => negb (char_eqb a c)) b = true ->
  rfind_char c (x ++ b) = rfind_char c x.
Proof.
  intros Hb. induction x as [|a x IH]; cbn.
  - induction b as [|a b IHb]; [reflexivity|]. cbn in *.
    apply andb_true_iff in Hb as [Ha Hb]. rewrite (IHb Hb).
    apply negb_true_iff in Ha. now rewrite Ha.
  - now rewrite IH.
Qed.

Lemma rfind_char_snoc c x : rfind_char c (x ++ [c]) = Some (length x).
Proof.
  induction x as [|a x IH]; cbn.
  - now rewrite (proj2 (char_eqb_eq c c) eq_refl).
  - now rewrite IH.
Qed.

Lemma basename_app_name x name :
  forallb (fun a => negb (char_eqb a slash)) name = true ->
  basename (x ++ name) = basename x ++ name.
Proof.
  intros Hn. unfold basename. rewrite (rfind_char_app_absent slash x name Hn).
  destruct (rfind_char slash x) as [k|] eqn:Hk; [|reflexivity].
  apply rfind_char_lt in Hk. rewrite drop_app_le by lia. reflexivity.
Qed.

Lemma basename_slash x : basename (x ++ [slash]) = [].
Proof.
  unfold basename. rewrite rfind_char_snoc.
  apply drop_ge. rewrite length_app. cbn. lia.
Qed.

(** The base name of a directory entry is its name. *)
Lemma basename_path_join dirpath name :
  good_name name = true -> basename (path_join dirpath name) = name.
Proof.
  unfold good_name. intros Hg. apply andb_true_iff in Hg as [Hne Hns].
  unfold path_join.
  assert (Hs : startswith name [slash] = false).
  { unfold startswith. apply bool_decide_eq_false_2. intros [k ->].
    cbn in Hns. discriminate. }
  rewrite Hs.
  destruct dirpath as [|c dirpath]; cbn [nonempty negb orb].
  - rewrite (basename_app_name [] name Hns). reflexivity.
  - unfold endswith. case_bool_decide as He.
    + destruct He as [k ->]. rewrite basename_app_name by exact Hns.
      now rewrite basename_slash.
    + rewrite app_assoc, basename_app_name by exact Hns.
      now rewrite basename_slash.
Qed.

Lemma good_name_nonempty name : good_name name = true -> name <> [].
Proof. unfold good_name. destruct name; [discriminate | discriminate]. Qed.

(** ** The walk keeps the groups well formed *)

Lemma node_induction (P : node -> Prop) :
  (forall size, P (File size)) ->
  (forall readable entries, Forall (fun e => P (snd e)) entries -> P (Dir readable entries)) ->
  P Broken ->
  forall n, P n.
Proof.
  intros Hfile Hdir Hbroken. fix IH 1.
  intros [size|readable entries|]; [apply Hfile| |exact Hbroken].
  apply Hdir. induction entries as [|[name child] entries IHe]; constructor.
  - apply IH.
  - exact IHe.
Qed.

Lemma for_each_invariant {A S : Type} (I : S -> Prop) (Q : A -> Prop)
    (body : S -> A -> result S) l :
  (forall s x s', Q x -> body s x = Return s' -> I s -> I s') ->
  Forall Q l ->
  forall s s', for_each body l s = Return s' -> I s -> I s'.
Proof.
  intros Hbody. induction 1 as [|x l Hx _ IH]; intros s s'; cbn [for_each].
  - now intros [= <-].
  - destruct (body s x) as [s1|e] eqn:Hb; step_bind; [|discriminate].
    intros Hrest Hs. apply (IH s1 s' Hrest). exact (Hbody s x s1 Hx Hb Hs).
Qed.

Lemma dict_append_elem k x d k' l' :
  (k', l') ∈ dict_append k x d ->
  (k', l') ∈ d \/ (k' = k /\ exists l, (l = [] \/ (k, l) ∈ d) /\ l' = l ++ [x]).
Proof.
  unfold dict_append. destruct (dict_get k d) as [l|] eqn:Hg; intros Hin;
    apply dict_set_elem in Hin as [[-> ->]|Hin]; auto; right; (split; [reflexivity|]).
  - exists l. split; [right; now apply dict_get_elem | reflexivity].
  - exists []. split; [now left | reflexivity].
Qed.

Lemma dict_append_NoDup k x d : NoDup (keys d) -> NoDup (keys (dict_append k x d)).
Proof.
  intros Hnd. unfold dict_append. destruct (dict_get k d); now apply NoDup_keys_dict_set.
Qed.

Lemma dic_ok_append k x d : basename x <> [] -> dic_ok d -> dic_ok (dict_append k x d).
Proof.
  intros Hx [Hnd Hp]. split; [now apply dict_append_NoDup|].
  rewrite Forall_forall in *. intros [k' l'] Hin. cbn [snd].
  apply dict_append_elem in Hin as [Hin|(-> & l & Hl & ->)].
  - exact (Hp _ Hin).
  - apply Forall_app. split; [|now constructor].
    destruct Hl as [->|Hl]; [constructor | exact (Hp _ Hl)].
Qed.

Lemma small_ok_append name x d :
  name <> [] -> basename x = name -> small_ok d -> small_ok (dict_append name x d).
Proof.
  intros Hn Hx [Hnd Hp]. split; [now apply dict_append_NoDup|].
  rewrite Forall_forall in *. intros [k' l'] Hin. cbn [fst snd].
  apply dict_append_elem in Hin as [Hin|(-> & l & Hl & ->)].
  - exact (Hp _ Hin).
  - split; [exact Hn|]. apply Forall_app. split; [|now constructor].
    destruct Hl as [->|Hl]; [constructor | exact (proj2 (Hp _ Hl))].
Qed.

Section WalkInvariant.

Context `{AvidLib} (cfg : Cfg).

Lemma visit_file_ok dirpath entries st file st' :
  good_name file = true ->
  visit_file cfg dirpath entries st file = Return st' ->
  state_ok st -> state_ok st'.
Proof.
  intros Hgood. unfold visit_file.
  pose proof (basename_path_join dirpath file Hgood) as Hbase.
  pose proof (good_name_nonempty file Hgood) as Hne.
  case_bool_decide; [|now intros [= <-]].
  destruct (getsize (lookup_entry file entries)) as [filesize|e]; step_bind; [|discriminate].
  destruct (filesize <? minimum_size cfg)%N.
  - intros [= <-] [Hd Hs]. split; cbn [dic small_videos]; [exact Hd|].
    now apply small_ok_append.
  - destruct (truthy (avid_of (path_join dirpath file))).
    + intros [= <-] [Hd Hs]. split; cbn [dic small_videos]; [|exact Hs].
      apply dic_ok_append; [|exact Hd]. now rewrite Hbase.
    + intros [= <-] [Hd Hs]. split; assumption.
Qed.

Lemma wf_names_entries readable entries e :
  wf_names (Dir readable entries) = true -> e ∈ entries ->
  good_name (fst e) = true /\ wf_names (snd e) = true.
Proof.
  cbn [wf_names]. intros Hwf Hin. rewrite forallb_forall in Hwf.
  apply list_elem_of_In in Hin. now apply andb_true_iff, Hwf.
Qed.

Lemma walk_ok n :
  forall dirpath st st',
    wf_names n = true -> walk cfg dirpath n st = Return st' -> state_ok st -> state_ok st'.
Proof.
  induction n as [size|readable entries IH|] using node_induction;
    intros dirpath st st' Hwf; [now intros [= <-]| |now intros [= <-]].
  destruct readable; [|now intros [= <-]].
  cbn [walk]. unfold visit_dir.
  destruct (for_each (prune_step cfg entries) _ _) as [[dirnames out]|e];
    step_bind; [|discriminate].
  destruct (for_each (visit_file cfg dirpath entries) _ _) as [st1|e] eqn:Hfiles;
    step_bind; [|discriminate].
  intros Hdirs Hst.
  assert (Hst1 : state_ok st1).
  { eapply (for_each_invariant state_ok (fun file => good_name file = true));
      [| |exact Hfiles|exact Hst].
    - intros s x s' Hx Hv. eapply visit_file_ok; eauto.
    - apply Forall_forall. intros file Hin.
      apply list_elem_of_In, in_map_iff in Hin as (e & <- & He).
      apply filter_In in He as [He _].
      apply list_elem_of_In in He. exact (proj1 (wf_names_entries _ _ e Hwf He)). }
  revert Hdirs Hst1. apply (for_each_invariant state_ok (fun _ : str => True)).
  - intros s name s' _.
    destruct (List.find _ _) as [[name' w]|] eqn:Hfind; [|now intros [= <-]].
    apply find_some in Hfind as [Hin _].
    apply in_map_iff in Hin as (e & [= _ <-] & He). apply list_elem_of_In in He.
    rewrite Forall_forall in IH. apply (IH e He).
    exact (proj2 (wf_names_entries _ _ e Hwf He)).
  - apply Forall_forall. auto.
Qed.

Lemma empty_state_ok : state_ok empty_state.
Proof. repeat split; cbn; constructor. Qed.

(** The node at a path of a well-formed tree is well formed. *)
Lemma lookup_entry_elem name entries child :
  lookup_entry name entries = Some child -> (name, child) ∈ entries.
Proof.
  induction entries as [|[n c] entries IH]; cbn; [discriminate|].
  case_bool_decide as Hn; subst.
  - intros [= ->]. left.
  - intros Hl. right. now apply IH.
Qed.

Lemma resolve_from_wf comps :
  forall above cur n,
    Forall (fun a => wf_names a = true) above -> wf_names cur = true ->
    resolve_from above cur comps = Some n -> wf_names n = true.
Proof.
  induction comps as [|comp comps IH]; intros above cur n Ha Hc; cbn [resolve_from].
  - now intros [= <-].
  - destruct cur as [size|readable entries|]; [discriminate| |discriminate].
    destruct (negb (nonempty comp) || bool_decide (comp = py ".")); [now apply IH|].
    case_bool_decide.
    + destruct above as [|parent above']; [now apply IH|].
      apply Forall_cons in Ha as [Hp Ha]. now apply IH.
    + destruct (lookup_entry comp entries) as [child|] eqn:Hl; [|discriminate].
      apply lookup_entry_elem in Hl.
      apply IH; [now constructor|].
      exact (proj2 (wf_names_entries _ _ _ Hc Hl)).
Qed.

Lemma scan_walk_ok fs root st :
  wf_names fs = true -> scan_walk cfg fs root = Return st -> state_ok st.
Proof.
  intros Hwf. unfold scan_walk, resolve.
  destruct (nonempty root); [|intros [= <-]; apply empty_state_ok].
  destruct (resolve_from [] fs (split_on slash root)) as [n|] eqn:Hr;
    [|intros [= <-]; apply empty_state_ok].
  intros Hw. apply (walk_ok n root empty_state st); [|exact Hw|apply empty_state_ok].
  refine (resolve_from_wf _ [] fs n _ Hwf Hr). constructor.
Qed.

End WalkInvariant.

(** ** The scan as a whole *)

Section ScanSpec.

Context `{AvidLib} (cfg : Cfg).

Lemma merged_dic_ok st d' s' h :
  state_ok st -> merge_small_videos (dic st) (small_videos st) = (d', s', h) -> dic_ok d'.
Proof.
  intros [[Hnd Hp] [Hnds Hps]] Hm.
  destruct (merge_small_videos_spec (dic st) (small_videos st) Hnds)
    as (d1 & h1 & Hm1 & Hkeys & Hgrow & _).
  rewrite Hm in Hm1. injection Hm1 as <- _ _.
  split; [now rewrite Hkeys|].
  apply Forall_forall. intros [a g'] Hin. cbn [snd].
  assert (Hnd' : NoDup (keys d')) by now rewrite Hkeys.
  pose proof (dict_get_NoDup a g' d' Hnd' Hin) as Hg'.
  assert (Ha : a ∈ keys (dic st)) by (rewrite <- Hkeys; exact (elem_keys _ _ _ Hin)).
  destruct (dict_get a (dic st)) as [g|] eqn:Hg;
    [|apply dict_get_None in Hg; contradiction].
  destruct (Hgrow a g Hg) as (extra & He & Hfrom).
  assert (g' = g ++ extra) as -> by congruence.
  apply Forall_app. split.
  - rewrite Forall_forall in Hp. exact (Hp _ (dict_get_elem _ _ _ Hg)).
  - apply Forall_forall. intros p Hpin.
    destruct (Hfrom p Hpin) as (name & paths & Hn & Hpp).
    rewrite Forall_forall in Hps. destruct (Hps _ Hn) as [Hne Hb]. cbn [fst snd] in *.
    rewrite Forall_forall in Hb. now rewrite (Hb p Hpp).
Qed.

(** Once the walk has returned, a scan of a well-formed tree returns. *)
Lemma scan_after_walk fs root st d' s' h :
  wf_names fs = true ->
  scan_walk cfg fs root = Return st ->
  merge_small_videos (dic st) (small_videos st) = (d', s', h) ->
  dic_ok d' /\
  exists ms notes msg,
    scan_movies cfg fs root
    = Return {| movies := ms; failures := failed_items st;
                written := log st ++ report_skipped s' h ++ notes
                           ++ (if nonempty msg then [Error_duplicates msg] else [])
                           ++ map data_src_note (kept_groups d') |} /\
    Forall2 (fun item m => movie_avid m = Some (fst item) /\ files m = snd item)
            (kept_groups d') ms /\
    (forall avid group, (avid, group) ∈ set_aside d' ->
       exists rels pre post,
         map_result (fun f => relpath f root) group = Return rels /\
         msg = pre ++ message_block avid rels ++ post).
Proof.
  intros Hwf Hwalk Hmerge.
  pose proof (scan_walk_ok cfg fs root st Hwf Hwalk) as Hst.
  pose proof (merged_dic_ok st d' s' h Hst Hmerge) as Hok.
  split; [exact Hok|].
  destruct (finish_scan_spec root st d' s' h Hmerge Hok) as (ms & notes & msg & Hf & Hms & Hb).
  exists ms, notes, msg. split; [|split; assumption].
  unfold scan_movies. rewrite Hwalk. step_bind. exact Hf.
Qed.

Lemma scan_groups_walk fs root d' :
  scan_groups cfg fs root = Return d' ->
  exists st s' h,
    scan_walk cfg fs root = Return st /\
    merge_small_videos (dic st) (small_videos st) = (d', s', h).
Proof.
  unfold scan_groups. destruct (scan_walk cfg fs root) as [st|e]; step_bind; [|discriminate].
  intros [= <-]. exists st.
  destruct (merge_small_videos (dic st) (small_videos st)) as [[d s] h].
  now exists s, h.
Qed.

(** The movies of a scan are the groups that the check kept; a group that
    was set aside has no movie and has its block in the message. *)
Lemma scan_of_groups fs root d' :
  wf_names fs = true ->
  scan_groups cfg fs root = Return d' ->
  exists out,
    scan_movies cfg fs root = Return out /\
    (forall avid group,
       dict_get avid d' = Some group -> exists fate, group_fate group = Return fate) /\
    (forall avid group mapped,
       dict_get avid d' = Some group -> group_fate group = Return (Some mapped) ->
       exists m, m ∈ movies out /\ movie_avid m = Some avid /\ files m = mapped) /\
    (forall avid group,
       dict_get avid d' = Some group -> group_fate group = Return None ->
       (forall m, m ∈ movies out -> movie_avid m <> Some avid) /\
       exists msg rels pre post,
         Error_duplicates msg ∈ written out /\
         map_result (fun f => relpath f root) group = Return rels /\
         msg = pre ++ message_block avid rels ++ post).
Proof.
  intros Hwf Hg. destruct (scan_groups_walk fs root d' Hg) as (st & s' & h & Hwalk & Hmerge).
  destruct (scan_after_walk fs root st d' s' h Hwf Hwalk Hmerge)
    as ([Hnd Hpaths] & ms & notes & msg & Hscan & Hms & Hblocks).
  eexists. split; [exact Hscan|]. cbn [movies written]. split.
  { intros avid group Hget. apply group_fate_total.
    rewrite Forall_forall in Hpaths. exact (Hpaths _ (dict_get_elem _ _ _ Hget)). }
  split.
  - intros avid group mapped Hget Hfate.
    assert (Hin : (avid, mapped) ∈ kept_groups d').
    { apply kept_groups_elem. exists group. split; [now apply dict_get_elem | exact Hfate]. }
    apply list_elem_of_lookup in Hin as [i Hi].
    destruct (Forall2_lookup_l _ _ _ _ _ Hms Hi) as (m & Hm & Ha & Hf).
    exists m. split; [|split; assumption]. apply list_elem_of_lookup. now exists i.
  - intros avid group Hget Hfate. split.
    + intros m Hm Ha. apply list_elem_of_lookup in Hm as [i Hi].
      destruct (Forall2_lookup_r _ _ _ _ _ Hms Hi) as ([k mapped] & Hk & Hka & _).
      cbn [fst] in Hka. assert (k = avid) as -> by congruence.
      assert (Hin : (avid, mapped) ∈ kept_groups d').
      { apply list_elem_of_lookup. now exists i. }
      apply kept_groups_elem in Hin as (group' & Hin & Hfate').
      rewrite (dict_get_NoDup avid group' d' Hnd Hin) in Hget. congruence.
    + assert (Hin : (avid, group) ∈ set_aside d').
      { apply set_aside_elem. split; [now apply dict_get_elem | exact Hfate]. }
      destruct (Hblocks avid group Hin) as (rels & pre & post & Hr & ->).
      exists (pre ++ message_block avid rels ++ post), rels, pre, post.
      split; [|split; [exact Hr | reflexivity]].
      rewrite message_block_nonempty. rewrite !elem_of_app. right. right. right. left. left.
Qed.

End ScanSpec.

(** ** Groups of several files *)

Lemma group_fate_rejected_by_slices group :
  length group <> 1 -> length (remove_dups (map dirname group)) <= 1 ->
  group_fate group = Return None ->
  exists verdict, check_slices group = Return verdict /\
                  forall mapped, verdict <> Slices mapped.
Proof.
  intros Hl Hd. unfold group_fate.
  apply Nat.eqb_neq in Hl. rewrite Hl.
  destruct (Nat.ltb_spec 1 (length (remove_dups (map dirname group)))); [lia|].
  destruct (check_slices group) as [[m|p r|s]|e]; step_bind; try discriminate;
    intros _; eexists; (split; [reflexivity | discriminate]).
Qed.

(** C2. An identifier whose two or more files lie in more than one folder
    is set aside at once, without a slice check: the scan returns, no movie
    of the returned list is built for the identifier, and the message
    written at the end holds the block of the identifier with the relative
    path of every one of its files. *)
Theorem cross_directory_duplicate_is_set_aside `{AvidLib}
    (cfg : Cfg) (fs : node) (root : str) (by_avid : pydict (list str))
    (avid : str) (group : list str)
    (Hwf : wf_names fs = true)
    (Hgroups : scan_groups cfg fs root = Return by_avid)
    (Hget : dict_get avid by_avid = Some group)
    (Hlen : 2 <= length group)
    (Hdirs : 1 < length (remove_dups (map dirname group))) :
  (forall st, check_group st (avid, group) = Return (reject avid group [] st)) /\
  exists out,
    scan_movies cfg fs root = Return out /\
    (forall m, m ∈ movies out -> movie_avid m <> Some avid) /\
    exists msg rels pre post,
      Error_duplicates msg ∈ written out /\
      map_result (fun f => relpath f root) group = Return rels /\
      msg = pre ++ message_block avid rels ++ post.
Proof.
  split.
  - intros st. unfold check_group.
    destruct (Nat.eqb_spec (length group) 1); [lia|].
    apply Nat.ltb_lt in Hdirs. now rewrite Hdirs.
  - destruct (scan_of_groups cfg fs root by_avid Hwf Hgroups) as (out & Hscan & _ & _ & Haside).
    exists out. split; [exact Hscan|].
    exact (Haside avid group Hget (group_fate_set_aside_multi group Hlen Hdirs)).
Qed.

Lemma cross_directory_duplicate_is_set_aside_witness :
  (forall st, check_group st (py "XYZ-003", [py "/root/A/x.mp4"; py "/root/B/y.mp4"])
              = Return (reject (py "XYZ-003") [py "/root/A/x.mp4"; py "/root/B/y.mp4"] [] st)) /\
  exists out,
    @scan_movies sample_lib sample_cfg cross_tree (py "/root") = Return out /\
    (forall m, m ∈ movies out -> movie_avid m <> Some (py "XYZ-003")) /\
    exists msg rels pre post,
      Error_duplicates msg ∈ written out /\
      map_result (fun f => relpath f (py "/root")) [py "/root/A/x.mp4"; py "/root/B/y.mp4"]
        = Return rels /\
      msg = pre ++ message_block (py "XYZ-003") rels ++ post.
Proof.
  apply (@cross_directory_duplicate_is_set_aside sample_lib sample_cfg cross_tree
           (py "/root") cross_groups).
  - reflexivity.
  - vm_compute. reflexivity.
  - reflexivity.
  - simpl. lia.
  - vm_compute. lia.
Defined.

Example scan_cross_tree :
  @scan_movies sample_lib sample_cfg cross_tree (py "/root")
  = Return {| movies := [ {| dvdid := Some (py "CLIP-002"); cid := None;
                             files := [py "/root/C/clip.mkv"];
                             data_src := Some (py "normal") |} ];
              failures := [];
              written := [Error_duplicates
                            (py "XYZ-003: " ++ [newline] ++
                             py "  A/x.mp4" ++ [newline] ++
                             py "  B/y.mp4" ++ [newline]);
                          Debug_data_src (py "CLIP-002") (py "normal")] |}.
Proof. vm_compute. reflexivity. Qed.

(** With the token of a file read as the code reads it, the first
    character of what the substitution leaves, the scan does one of two
    things for a group of two or more files of one identifier in one
    folder.  Either the three conditions hold (one postfix, distinct
    tokens, and tokens that in ascending order are the code points first,
    first+1, ... from a first token 0, 1 or a) and the movie of the
    identifier holds the files of the group in the ascending order of their
    tokens; or a condition fails, no movie is built for the identifier and
    the group is listed in the message about duplicates.  The files
    movie.c.mp4, movie.a.mp4 and movie.b.mp4 come back in the order a, b,
    c. *)
Theorem slice_group_is_ordered_or_set_aside `{AvidLib}
    (cfg : Cfg) (fs : node) (root : str) (by_avid : pydict (list str))
    (avid : str) (group : list str)
    (Hwf : wf_names fs = true)
    (Hgroups : scan_groups cfg fs root = Return by_avid)
    (Hget : dict_get avid by_avid = Some group)
    (Hlen : 2 <= length group)
    (Hdirs : length (remove_dups (map dirname group)) <= 1) :
  (exists out,
     scan_movies cfg fs root = Return out /\
     ((slices_ok group /\
       exists m sorted,
         m ∈ movies out /\ movie_avid m = Some avid /\
         contiguous_run group sorted /\ ordered_by_token group (files m) sorted)
      \/
      (~ slices_ok group /\
       (forall m, m ∈ movies out -> movie_avid m <> Some avid) /\
       exists msg rels pre post,
         Error_duplicates msg ∈ written out /\
         map_result (fun f => relpath f root) group = Return rels /\
         msg = pre ++ message_block avid rels ++ post))) /\
  check_slices [py "videos/movie.c.mp4"; py "videos/movie.a.mp4"; py "videos/movie.b.mp4"]
  = Return (Slices [py "videos/movie.a.mp4"; py "videos/movie.b.mp4";
                    py "videos/movie.c.mp4"]).
Proof.
  split; [|exact check_slices_movie_abc].
  destruct (scan_of_groups cfg fs root by_avid Hwf Hgroups)
    as (out & Hscan & Htotal & Hkept & Haside).
  exists out. split; [exact Hscan|].
  assert (Hl : length group <> 1) by lia.
  assert (Hne : group <> []) by (intros ->; cbn in Hlen; lia).
  destruct (Htotal avid group Hget) as [[mapped|] Hfate].
  - left. destruct (Hkept avid group mapped Hget Hfate) as (m & Hm & Ha & Hf).
    destruct (group_fate_kept group mapped Hfate) as (_ & _ & [[Hl' _]|(_ & _ & Hc)]);
      [contradiction|].
    destruct (check_slices_accepts group mapped Hc) as (Hok & sorted & Hrun & Hord).
    split; [exact Hok|]. exists m, sorted. rewrite Hf. auto.
  - right. destruct (group_fate_rejected_by_slices group Hl Hdirs Hfate) as (v & Hv & Hno).
    split.
    + intros Hok. destruct (check_slices_complete group v Hne Hok Hv) as [mapped ->].
      exact (Hno mapped eq_refl).
    + exact (Haside avid group Hget Hfate).
Qed.

Lemma slice_group_is_ordered_or_set_aside_witness :
  (exists out,
     @scan_movies sample_lib sample_cfg slices_tree (py "videos") = Return out /\
     ((slices_ok [py "videos/movie.c.mp4"; py "videos/movie.a.mp4"; py "videos/movie.b.mp4"] /\
       exists m sorted,
         m ∈ movies out /\ movie_avid m = Some (py "MOVIE-001") /\
         contiguous_run
           [py "videos/movie.c.mp4"; py "videos/movie.a.mp4"; py "videos/movie.b.mp4"]
           sorted /\
         ordered_by_token
           [py "videos/movie.c.mp4"; py "videos/movie.a.mp4"; py "videos/movie.b.mp4"]
           (files m) sorted)
      \/
      (~ slices_ok [py "videos/movie.c.mp4"; py "videos/movie.a.mp4"; py "videos/movie.b.mp4"] /\
       (forall m, m ∈ movies out -> movie_avid m <> Some (py "MOVIE-001")) /\
       exists msg rels pre post,
         Error_duplicates msg ∈ written out /\
         map_result (fun f => relpath f (py "videos"))
           [py "videos/movie.c.mp4"; py "videos/movie.a.mp4"; py "videos/movie.b.mp4"]
           = Return rels /\
         msg = pre ++ message_block (py "MOVIE-001") rels ++ post))) /\
  check_slices [py "videos/movie.c.mp4"; py "videos/movie.a.mp4"; py "videos/movie.b.mp4"]
  = Return (Slices [py "videos/movie.a.mp4"; py "videos/movie.b.mp4";
                    py "videos/movie.c.mp4"]).
Proof.
  apply (@slice_group_is_ordered_or_set_aside sample_lib sample_cfg slices_tree
           (py "videos") slices_groups).
  - reflexivity.
  - vm_compute. reflexivity.
  - reflexivity.
  - simpl. lia.
  - vm_compute. lia.
Defined.

(** C1 breaks on the code.  The check takes the first character of what
    the substitution leaves of a name as the slice token of the file,
    whether or not the pattern matched in the name.  In the group of a.mp4
    and ab.mp4 the common prefix is the letter a, and the pattern (the
    prefix, then one letter or digit) matches in ab.mp4 only: it captures
    no token in a.mp4.  The name a.mp4 is left as it is, its first letter
    is taken for its token, and the scan accepts the two files as the
    slices a and b of one movie and reports no duplicate. *)
Theorem scan_accepts_file_without_token :
  commonprefix (map basename unmatched_group) = py "a" /\
  captured_token unmatched_group (py "videos/a.mp4") = None /\
  captured_token unmatched_group (py "videos/ab.mp4") = Some "b"%char /\
  map (slice_token unmatched_group) unmatched_group = [Some "a"%char; Some "b"%char] /\
  check_slices unmatched_group = Return (Slices unmatched_group) /\
  exists m out,
    @scan_movies unmatched_lib sample_cfg unmatched_tree (py "videos") = Return out /\
    movies out = [m] /\
    files m = unmatched_group /\
    written out = [Debug_data_src (py "A-001") (py "normal")].
Proof.
  repeat (split; [vm_compute; reflexivity|]).
  eexists. eexists. split; [vm_compute; reflexivity|].
  repeat split; reflexivity.
Qed.

Example scan_gap_tree :
  exists out,
    @scan_movies sample_lib sample_cfg gap_tree (py "/videos") = Return out /\
    movies out = [] /\
    written out
    = [Debug_slices_invalid (py "ac"); Debug_slices_invalid (py "bc");
       Error_duplicates
         (py "MOVIE-001: " ++ [newline] ++
          py "  movie.a.mp4" ++ [newline] ++ py "  movie.c.mp4" ++ [newline] ++
          py "CLIP-002: " ++ [newline] ++
          py "  clip.b.mkv" ++ [newline] ++ py "  clip.c.mkv" ++ [newline])].
Proof. eexists. split; [vm_compute; reflexivity|]. split; reflexivity. Qed.

(** ** Small files *)

Lemma skipped_files_elem p small :
  p ∈ skipped_files_of small <-> exists name paths, (name, paths) ∈ small /\ p ∈ paths.
Proof.
  unfold skipped_files_of. rewrite list_elem_of_In, in_concat. split.
  - intros (l & Hl & Hp). apply in_map_iff in Hl as ([name paths] & <- & Hin).
    cbn [snd] in Hp. exists name, paths. split.
    + rewrite <- (merge_sort_Permutation item_le small). now apply list_elem_of_In.
    + rewrite <- (merge_sort_Permutation str_le paths). now apply list_elem_of_In.
  - intros (name & paths & Hin & Hp). exists (merge_sort str_le paths). split.
    + apply in_map_iff. exists (name, paths). split; [reflexivity|].
      apply list_elem_of_In. now rewrite (merge_sort_Permutation item_le small).
    + apply list_elem_of_In. now rewrite (merge_sort_Permutation str_le paths).
Qed.

(** C3, as the specification states it, fails in its last part: a small
    file that joins no group is not reported by a count alone.  The name of
    clip.mkv, which has an identifier, is part of the summary, and the
    paths of clip.mkv and sample.mp4 are listed in a second message. *)
Lemma skipped_files_are_listed :
  exists out,
    @scan_movies sample_lib sample_cfg small_tree (py "videos") = Return out /\
    written out
    = [Info_skipped_named [py "clip.mkv"] 2;
       Debug_skipped_files [py "videos/clip.mkv"; py "videos/sample.mp4"];
       Debug_data_src (py "MOVIE-001") (py "normal")] /\
    Info_skipped 2 ∉ written out.
Proof.
  eexists. split; [vm_compute; reflexivity|]. split; [reflexivity|].
  cbn [written]. rewrite !not_elem_of_cons. repeat split; try discriminate.
  apply not_elem_of_nil.
Qed.

(** C3, amended. A file set aside for its size is looked at again after
    the walk.  If the identifier found in its name has a group, the file is
    added to the files of that group and is not among the skipped files.
    Otherwise it stays among the skipped files, which are reported by two
    messages: a summary with their number, which also names the skipped
    files that have an identifier, and the list of their paths. *)
Theorem small_file_joins_group_or_stays_skipped `{AvidLib}
    (cfg : Cfg) (fs : node) (root : str) (st : scan_state)
    (by_avid small : pydict (list str)) (has_avid : pydict str)
    (name : str) (paths : list str) (p : str)
    (Hwf : wf_names fs = true)
    (Hwalk : scan_walk cfg fs root = Return st)
    (Hmerge : merge_small_videos (dic st) (small_videos st) = (by_avid, small, has_avid))
    (Hbucket : dict_get name (small_videos st) = Some paths)
    (Hp : p ∈ paths) :
  exists out,
    scan_movies cfg fs root = Return out /\
    ((joins_group (dic st) name = true /\
      (exists a group,
         avid_of name = Some a /\ dict_get a by_avid = Some group /\ p ∈ group) /\
      p ∉ skipped_files_of small)
     \/
     (joins_group (dic st) name = false /\
      p ∈ skipped_files_of small /\
      (name ∈ keys has_avid <-> truthy (avid_of name) = true) /\
      exists before after,
        written out
        = before
          ++ [ if 0 <? length has_avid
               then Info_skipped_named (keys has_avid) (length (skipped_files_of small))
               else Info_skipped (length (skipped_files_of small));
               Debug_skipped_files (skipped_files_of small) ]
          ++ after)).
Proof.
  pose proof (scan_walk_ok cfg fs root st Hwf Hwalk) as [_ [Hnd Hsmall]].
  destruct (scan_after_walk cfg fs root st by_avid small has_avid Hwf Hwalk Hmerge)
    as (_ & ms & notes & msg & Hscan & _ & _).
  destruct (merge_small_videos_spec (dic st) (small_videos st) Hnd)
    as (d' & h' & Hm & _ & _ & Hjoin & Hhas).
  rewrite Hmerge in Hm. injection Hm as <- Hstay <-.
  pose proof (dict_get_elem _ _ _ Hbucket) as Hin.
  eexists. split; [exact Hscan|]. cbn [written].
  destruct (joins_group (dic st) name) eqn:Hj; [left | right]; (split; [reflexivity|]).
  - split.
    + pose proof Hj as Hj'. apply joins_group_true in Hj' as (a & g & Ha & Hg).
      destruct (Hjoin name paths a Hin Ha) as (group & Hgroup & Hall).
      { unfold dict_has. now rewrite Hg. }
      exists a, group. split; [exact Ha|]. split; [exact Hgroup | now apply Hall].
    + intros Hskip. apply skipped_files_elem in Hskip as (k & ps & Hk & Hps).
      rewrite Hstay in Hk. apply list_elem_of_In, filter_In in Hk as [Hk Hs].
      apply list_elem_of_In in Hk.
      rewrite Forall_forall in Hsmall.
      destruct (Hsmall _ Hk) as [_ Hbk]. destruct (Hsmall _ Hin) as [_ Hbn].
      cbn [fst snd] in *. rewrite Forall_forall in Hbk, Hbn.
      assert (k = name) as -> by (rewrite <- (Hbk p Hps); exact (Hbn p Hp)).
      unfold stays_skipped in Hs. cbn [fst] in Hs. rewrite Hj in Hs. discriminate.
  - assert (Hskip : p ∈ skipped_files_of small).
    { apply skipped_files_elem. exists name, paths. split; [|exact Hp].
      rewrite Hstay. apply list_elem_of_In, filter_In. split; [now apply list_elem_of_In|].
      unfold stays_skipped. cbn [fst]. now rewrite Hj. }
    split; [exact Hskip|]. split.
    + rewrite Hhas. split; [tauto|]. intros Ht. split; [|split; [exact Ht | exact Hj]].
      exact (elem_keys _ _ _ Hin).
    + exists (log st), (notes ++ (if nonempty msg then [Error_duplicates msg] else [])
                               ++ map data_src_note (kept_groups by_avid)).
      assert (Hreport : report_skipped small has_avid
                = [ if 0 <? length has_avid
                    then Info_skipped_named (keys has_avid)
                           (length (skipped_files_of small))
                    else Info_skipped (length (skipped_files_of small));
                    Debug_skipped_files (skipped_files_of small) ]).
      { unfold report_skipped.
        destruct (skipped_files_of small) as [|q rest];
          [now apply elem_of_nil in Hskip | reflexivity]. }
      rewrite Hreport. reflexivity.
Qed.

Lemma small_file_joins_group_or_stays_skipped_witness :
  (exists out,
     @scan_movies sample_lib sample_cfg small_tree (py "videos") = Return out /\
     ((@joins_group sample_lib [(py "MOVIE-001", [py "videos/movie.a.mp4"])]
         (py "movie.b.mp4") = true /\
       (exists a group,
          @avid_of sample_lib (py "movie.b.mp4") = Some a /\
          dict_get a [(py "MOVIE-001", [py "videos/movie.a.mp4"; py "videos/movie.b.mp4"])]
            = Some group /\
          py "videos/movie.b.mp4" ∈ group) /\
       py "videos/movie.b.mp4"
         ∉ skipped_files_of [(py "clip.mkv", [py "videos/clip.mkv"]);
                             (py "sample.mp4", [py "videos/sample.mp4"])])
      \/
      (@joins_group sample_lib [(py "MOVIE-001", [py "videos/movie.a.mp4"])]
         (py "movie.b.mp4") = false /\
       py "videos/movie.b.mp4"
         ∈ skipped_files_of [(py "clip.mkv", [py "videos/clip.mkv"]);
                             (py "sample.mp4", [py "videos/sample.mp4"])] /\
       (py "movie.b.mp4" ∈ keys [(py "clip.mkv", py "CLIP-002")]
        <-> truthy (@avid_of sample_lib (py "movie.b.mp4")) = true) /\
       exists before after,
         written out
         = before
           ++ [ if 0 <? length [(py "clip.mkv", py "CLIP-002")]
                then Info_skipped_named (keys [(py "clip.mkv", py "CLIP-002")])
                       (length (skipped_files_of
                                  [(py "clip.mkv", [py "videos/clip.mkv"]);
                                   (py "sample.mp4", [py "videos/sample.mp4"])]))
                else Info_skipped
                       (length (skipped_files_of
                                  [(py "clip.mkv", [py "videos/clip.mkv"]);
                                   (py "sample.mp4", [py "videos/sample.mp4"])]));
                Debug_skipped_files
                  (skipped_files_of [(py "clip.mkv", [py "videos/clip.mkv"]);
                                     (py "sample.mp4", [py "videos/sample.mp4"])]) ]
           ++ after))).
Proof.
  apply (@small_file_joins_group_or_stays_skipped sample_lib sample_cfg small_tree
           (py "videos")
           {| dic := [(py "MOVIE-001", [py "videos/movie.a.mp4"])];
              small_videos := [(py "movie.b.mp4", [py "videos/movie.b.mp4"]);
                               (py "clip.mkv", [py "videos/clip.mkv"]);
                               (py "sample.mp4", [py "videos/sample.mp4"])];
              failed_items := []; log := [] |}
           [(py "MOVIE-001", [py "videos/movie.a.mp4"; py "videos/movie.b.mp4"])]
           [(py "clip.mkv", [py "videos/clip.mkv"]);
            (py "sample.mp4", [py "videos/sample.mp4"])]
           [(py "clip.mkv", py "CLIP-002")]
           (py "movie.b.mp4") [py "videos/movie.b.mp4"] (py "videos/movie.b.mp4")).
  - reflexivity.
  - vm_compute. reflexivity.
  - vm_compute. reflexivity.
  - reflexivity.
  - left.
Defined.

(** ** What holds of every scan *)

Lemma for_each_total {A S : Type} (Q : A -> Prop) (body : S -> A -> result S) l :
  (forall s x, Q x -> exists s', body s x = Return s') ->
  Forall Q l -> forall s, exists s', for_each body l s = Return s'.
Proof.
  intros Hbody. induction 1 as [|x l Hx _ IH]; intros s; cbn [for_each].
  - eexists; reflexivity.
  - destruct (Hbody s x Hx) as [s1 ->]. step_bind. apply IH.
Qed.

Lemma list_remove_mid x l1 l2 :
  x ∉ l1 -> list_remove x (l1 ++ x :: l2) = Return (l1 ++ l2).
Proof.
  induction l1 as [|y l1 IH]; cbn [app list_remove]; intros Hx.
  - now rewrite bool_decide_eq_true_2.
  - apply not_elem_of_cons in Hx as [Hne Hx].
    rewrite bool_decide_eq_false_2 by congruence. rewrite (IH Hx). reflexivity.
Qed.

Section WalkReturns.

Context `{AvidLib} (cfg : Cfg) (Hnfo : skip_nfo_dir cfg = false).

(** Without [skip_nfo_dir] the pruning of [dirnames] removes the ignored
    names and raises nothing. *)
Lemma prune_returns entries rest :
  forall kept out,
    Forall (fun name => ignored_folder cfg name = false) kept ->
    for_each (prune_step cfg entries) rest (kept ++ rest, out)
    = Return (kept ++ List.filter (fun name => negb (ignored_folder cfg name)) rest, out).
Proof.
  induction rest as [|name rest IH]; intros kept out Hkept; cbn [for_each List.filter].
  - reflexivity.
  - unfold prune_step at 2. rewrite Hnfo.
    destruct (ignored_folder cfg name) eqn:Hi; cbn [negb].
    + rewrite list_remove_mid.
      * step_bind. now apply IH.
      * intros Hin. rewrite Forall_forall in Hkept. specialize (Hkept name Hin). congruence.
    + step_bind. specialize (IH (kept ++ [name]) out).
      rewrite <- !app_assoc in IH. cbn [app] in IH. apply IH.
      apply Forall_app. split; [exact Hkept | now constructor].
Qed.

Lemma lookup_entry_is_Some name entries :
  name ∈ map fst entries -> exists child, lookup_entry name entries = Some child.
Proof.
  induction entries as [|[n c] entries IH]; cbn; intros Hin; [now apply elem_of_nil in Hin|].
  case_bool_decide as Hn; [now exists c|].
  apply elem_of_cons in Hin as [->|Hin]; [congruence | now apply IH].
Qed.

Lemma visit_file_returns dirpath entries st file :
  file ∈ map fst entries ->
  forallb (fun e => all_examinable (snd e)) entries = true ->
  exists st', visit_file cfg dirpath entries st file = Return st'.
Proof.
  intros Hin Hex. unfold visit_file. case_bool_decide; [|eexists; reflexivity].
  destruct (lookup_entry_is_Some file entries Hin) as [child Hchild]. rewrite Hchild.
  apply lookup_entry_elem in Hchild. rewrite forallb_forall in Hex.
  apply list_elem_of_In in Hchild. specialize (Hex _ Hchild). cbn [snd] in Hex.
  destruct child as [size|readable sub|]; [| |discriminate]; cbn [getsize]; step_bind.
  - destruct (size <? minimum_size cfg)%N; [eexists; reflexivity|].
    destruct (truthy (avid_of (path_join dirpath file))); eexists; reflexivity.
  - destruct (4096 <? minimum_size cfg)%N; [eexists; reflexivity|].
    destruct (truthy (avid_of (path_join dirpath file))); eexists; reflexivity.
Qed.

Lemma walk_returns n :
  all_examinable n = true ->
  forall dirpath st, exists st', walk cfg dirpath n st = Return st'.
Proof.
  induction n as [size|readable entries IH|] using node_induction; intros Hex dirpath st;
    [eexists; reflexivity| |discriminate].
  destruct readable; [|eexists; reflexivity].
  cbn [all_examinable] in Hex.
  cbn [walk]. unfold visit_dir.
  pose proof (prune_returns entries
                (map fst (List.filter (fun e => is_dir (snd e)) entries))
                [] [] (Forall_nil_2 _)) as Hprune.
  cbn [app] in Hprune. rewrite Hprune. clear Hprune. step_bind.
  destruct (for_each_total (fun file => file ∈ map fst entries)
              (visit_file cfg dirpath entries)
              (map fst (List.filter (fun e => negb (is_dir (snd e))) entries)))
    with (s := {| dic := dic st; small_videos := small_videos st;
                  failed_items := failed_items st; log := log st ++ [] |})
    as [st1 ->].
  { intros s x Hx. now apply visit_file_returns. }
  { apply Forall_forall. intros file Hin.
    apply list_elem_of_In, in_map_iff in Hin as (e & <- & He).
    apply filter_In in He as [He _]. apply list_elem_of_In. now apply in_map. }
  step_bind. apply (for_each_total (fun _ => True)); [|apply Forall_forall; auto].
  intros s name _.
  destruct (List.find _ _) as [[name' w]|] eqn:Hfind; [|eexists; reflexivity].
  apply find_some in Hfind as [Hin _].
  apply in_map_iff in Hin as (e & [= _ <-] & He).
  rewrite forallb_forall in Hex. pose proof (Hex e He) as Hexe.
  apply list_elem_of_In in He.
  rewrite Forall_forall in IH. now apply (IH e He).
Qed.

Lemma resolve_from_examinable comps :
  forall above cur n,
    Forall (fun a => all_examinable a = true) above -> all_examinable cur = true ->
    resolve_from above cur comps = Some n -> all_examinable n = true.
Proof.
  induction comps as [|comp comps IH]; intros above cur n Ha Hc; cbn [resolve_from].
  - now intros [= <-].
  - destruct cur as [size|readable entries|]; [discriminate| |discriminate].
    destruct (negb (nonempty comp) || bool_decide (comp = py ".")); [now apply IH|].
    case_bool_decide.
    + destruct above as [|parent above']; [now apply IH|].
      apply Forall_cons in Ha as [Hp Ha]. now apply IH.
    + destruct (lookup_entry comp entries) as [child|] eqn:Hl; [|discriminate].
      apply lookup_entry_elem in Hl.
      apply IH; [now constructor|].
      cbn [all_examinable] in Hc. rewrite forallb_forall in Hc.
      apply list_elem_of_In in Hl. exact (Hc _ Hl).
Qed.

(** With [skip_nfo_dir] off, the scan of a well-formed tree all of whose
    entries can be examined raises nothing. *)
Lemma scan_returns_without_skip_nfo_dir fs root :
  wf_names fs = true -> all_examinable fs = true ->
  exists out, scan_movies cfg fs root = Return out.
Proof.
  intros Hwf Hex.
  assert (exists st, scan_walk cfg fs root = Return st) as [st Hwalk].
  { unfold scan_walk, resolve. destruct (nonempty root); [|eexists; reflexivity].
    destruct (resolve_from [] fs (split_on slash root)) as [n|] eqn:Hr;
      [|eexists; reflexivity].
    apply walk_returns.
    refine (resolve_from_examinable _ [] fs n _ Hex Hr). constructor. }
  destruct (merge_small_videos (dic st) (small_videos st)) as [[d' s'] h] eqn:Hmerge.
  destruct (scan_after_walk cfg fs root st d' s' h Hwf Hwalk Hmerge)
    as (_ & ms & notes & msg & Hscan & _).
  eexists. exact Hscan.
Qed.

End WalkReturns.

Lemma remove_dups_Permutation_length {A : Type} `{EqDecision A} (l k : list A) :
  l ≡ₚ k -> length (remove_dups l) = length (remove_dups k).
Proof.
  intros Hp. apply Permutation_length. apply NoDup_Permutation.
  - apply NoDup_remove_dups.
  - apply NoDup_remove_dups.
  - intros x. rewrite !elem_of_remove_dups. now rewrite Hp.
Qed.

(** Every movie of a scan has at least one file, and the files of a movie
    with several files lie in one folder. *)
Lemma scan_movies_files_in_one_folder `{AvidLib} cfg fs root out m :
  wf_names fs = true -> scan_movies cfg fs root = Return out -> m ∈ movies out ->
  files m <> [] /\
  (2 <= length (files m) -> length (remove_dups (map dirname (files m))) <= 1).
Proof.
  intros Hwf Hscan Hm. pose proof Hscan as Hscan'.
  unfold scan_movies in Hscan'.
  destruct (scan_walk cfg fs root) as [st|e] eqn:Hwalk; [|discriminate]. clear Hscan'.
  destruct (merge_small_videos (dic st) (small_videos st)) as [[d' s'] h] eqn:Hmerge.
  destruct (scan_after_walk cfg fs root st d' s' h Hwf Hwalk Hmerge)
    as (_ & ms & notes & msg & Hscan' & Hms & _).
  rewrite Hscan in Hscan'. injection Hscan' as ->. cbn [movies] in Hm.
  apply list_elem_of_lookup in Hm as [i Hi].
  destruct (Forall2_lookup_r _ _ _ _ _ Hms Hi) as ([avid mapped] & Hk & _ & Hf).
  cbn [snd] in Hf. rewrite Hf.
  assert (Hin : (avid, mapped) ∈ kept_groups d') by (apply list_elem_of_lookup; now exists i).
  apply kept_groups_elem in Hin as (group & _ & Hfate).
  destruct (group_fate_kept group mapped Hfate) as (Hperm & Hne & Hcase).
  split.
  - intros ->. apply Permutation_nil in Hperm. congruence.
  - intros Hlen. destruct Hcase as [[Hl ->]|(_ & Hd & _)]; [lia|].
    rewrite (remove_dups_Permutation_length (map dirname mapped) (map dirname group));
      [exact Hd | now apply Permutation_map].
Qed.

(** A run of tokens that are all letters has at most 26 elements, and a
    run of tokens that are all digits at most 10: the bounds of the comment
    at the head of [scan_movies] hold for such tokens. *)
Lemma contiguous_run_size group sorted :
  group <> [] -> contiguous_run group sorted ->
  (Forall (fun c => is_lower c = true) sorted -> length group <= 26) /\
  (Forall (fun c => is_digit c = true) sorted -> length group <= 10).
Proof.
  intros Hne (_ & first & Hstart & Hrun).
  assert (Hfirst : ord first = 48 \/ ord first = 49 \/ ord first = 97).
  { unfold is_first_slice in Hstart.
    apply orb_true_iff in Hstart as [Hstart|Hstart];
      [apply orb_true_iff in Hstart as [Hstart|Hstart]|];
      apply char_eqb_eq in Hstart; subst first; auto. }
  assert (Hlen : 0 < length group) by (destruct group; [congruence | cbn; lia]).
  assert (Hhas : forall n, ord first <= n < ord first + length group ->
                           exists c, c ∈ sorted /\ ord c = n).
  { intros n Hn. assert (In n (map ord sorted)) as Hin by (rewrite Hrun; apply in_seq; lia).
    apply in_map_iff in Hin as (c & Hc & Hin). exists c. split; [|exact Hc].
    now apply list_elem_of_In. }
  destruct (Hhas (ord first) ltac:(lia)) as (c0 & Hc0 & Ho0).
  destruct (Hhas (ord first + length group - 1) ltac:(lia)) as (c1 & Hc1 & Ho1).
  split; intros Hall; rewrite Forall_forall in Hall;
    pose proof (Hall c0 Hc0) as H0; pose proof (Hall c1 Hc1) as H1.
  - unfold is_lower in H0, H1.
    apply andb_true_iff in H0 as [H0 _]. apply andb_true_iff in H1 as [_ H1].
    apply Nat.leb_le in H0, H1. lia.
  - unfold is_digit in H0, H1.
    apply andb_true_iff in H0 as [_ H0]. apply andb_true_iff in H1 as [_ H1].
    apply Nat.leb_le in H0, H1. lia.
Qed.

(** * Further properties *)

(** ** The normaliser and the duplicate key *)

Lemma upper_lower_char c : upper_char (lower_char c) = upper_char c.
Proof. destruct c as [[] [] [] [] [] [] [] []]; reflexivity. Qed.

Lemma upper_lower s : upper (lower s) = upper s.
Proof. unfold upper, lower. rewrite map_map. apply map_ext. apply upper_lower_char. Qed.

Lemma upper_idemp s : upper (upper s) = upper s.
Proof. unfold upper. rewrite map_map. apply map_ext. apply upper_char_idemp. Qed.

Lemma is_space_lower_char c : is_space (lower_char c) = is_space c.
Proof. destruct c as [[] [] [] [] [] [] [] []]; reflexivity. Qed.

Lemma lstrip_by_spaces p ws s :
  Forall (fun c => p c = true) ws -> lstrip_by p (ws ++ s) = lstrip_by p s.
Proof. induction 1 as [|c ws Hc _ IH]; cbn; [reflexivity|]. now rewrite Hc. Qed.

Lemma rstrip_by_spaces p ws s :
  Forall (fun c => p c = true) ws -> rstrip_by p (s ++ ws) = rstrip_by p s.
Proof.
  intros Hws. unfold rstrip_by. rewrite rev_app_distr, lstrip_by_spaces; [reflexivity|].
  apply Forall_forall. intros c Hc. rewrite Forall_forall in Hws. apply Hws.
  apply list_elem_of_In. apply list_elem_of_In, in_rev in Hc. exact Hc.
Qed.

Lemma rstrip_by_nil p : rstrip_by p [] = [].
Proof. reflexivity. Qed.

Lemma strip_outer_spaces ws v ws' :
  Forall (fun c => is_space c = true) ws -> Forall (fun c => is_space c = true) ws' ->
  strip (ws ++ v ++ ws') = strip v.
Proof.
  intros Hws Hws'. unfold strip. rewrite lstrip_by_spaces by exact Hws.
  induction v as [|c v IH]; cbn [app lstrip_by].
  - rewrite <- (app_nil_r ws'), lstrip_by_spaces by exact Hws'. reflexivity.
  - destruct (is_space c); [exact IH|].
    change (c :: v ++ ws') with ((c :: v) ++ ws'). now apply rstrip_by_spaces.
Qed.

Lemma strip_suffixes_fuel f1 :
  forall f2 s, length s <= f1 -> length s <= f2 ->
               strip_suffixes f1 s = strip_suffixes f2 s.
Proof.
  induction f1 as [|f1 IH]; intros f2 s H1 H2.
  - destruct s; [|cbn in H1; lia]. destruct f2; reflexivity.
  - destruct f2 as [|f2].
    + destruct s; [reflexivity | cbn in H2; lia].
    + cbn [strip_suffixes].
      destruct (remove_first_suffix _DUPLICATE_SUFFIXES s) as [s'|] eqn:Hr; [|reflexivity].
      apply remove_first_suffix_Some in Hr; [|exact duplicate_suffixes_nonempty].
      destruct Hr as (_ & suffix & _ & _ & _ & Hne & ->).
      rewrite length_app in H1, H2.
      destruct suffix; [congruence|]. cbn in H1, H2. apply IH; lia.
Qed.

Lemma strip_suffixes_step s s' f :
  remove_first_suffix _DUPLICATE_SUFFIXES s = Some s' -> length s <= f ->
  strip_suffixes f s = strip_suffixes (length s') s'.
Proof.
  intros Hr Hf. pose proof Hr as Hr'.
  apply remove_first_suffix_Some in Hr'; [|exact duplicate_suffixes_nonempty].
  destruct Hr' as (_ & suffix & _ & _ & _ & Hne & ->).
  rewrite length_app in Hf. destruct suffix as [|c suffix]; [congruence|]. cbn in Hf.
  destruct f as [|f]; [lia|]. cbn [strip_suffixes]. rewrite Hr.
  apply strip_suffixes_fuel; lia.
Qed.

Lemma remove_cosmetic_suffix body suffix :
  In suffix _DUPLICATE_SUFFIXES ->
  remove_first_suffix _DUPLICATE_SUFFIXES (body ++ suffix) = Some body.
Proof.
  intros [<-|[<-|[]]]; cbn [remove_first_suffix _DUPLICATE_SUFFIXES].
  - unfold endswith. rewrite bool_decide_eq_true_2 by (now exists body).
    now rewrite slice_to_neg_app.
  - unfold endswith. rewrite bool_decide_eq_false_2.
    + rewrite bool_decide_eq_true_2 by (now exists body).
      now rewrite slice_to_neg_app.
    + intros [k Hk].
      change (py "-C") with ([ "-"%char ] ++ [ "C"%char ]) in Hk.
      change (py "-UC") with ([ "-"%char; "U"%char ] ++ [ "C"%char ]) in Hk.
      rewrite !app_assoc in Hk. apply app_inj_tail in Hk as [Hk _].
      change [ "-"%char; "U"%char ] with ([ "-"%char ] ++ [ "U"%char ]) in Hk.
      rewrite app_assoc in Hk. apply app_inj_tail in Hk as [_ Hk]. discriminate.
Qed.

Lemma strip_lower s : strip (lower s) = lower (strip s).
Proof.
  unfold strip, lower.
  rewrite lstrip_by_map, rstrip_by_map; auto using is_space_lower_char.
Qed.

(** X1. For an identifier of ASCII characters, letter case and white space
    around it do not matter to the normaliser. *)
Theorem normalize_ignores_case_and_outer_space (v ws ws' : str)
    (Hv : v <> []) (Hascii : ascii_text v)
    (Hws : Forall (fun c => is_space c = true) ws)
    (Hws' : Forall (fun c => is_space c = true) ws') :
  _normalize_duplicate_avid (Some (ws ++ lower v ++ ws')) = _normalize_duplicate_avid (Some v) /\
  _normalize_duplicate_avid (Some (ws ++ upper v ++ ws')) = _normalize_duplicate_avid (Some v).
Proof.
  assert (Hgen : forall w, w <> [] -> upper w = upper v ->
            upper (strip w) = upper (strip v) ->
            _normalize_duplicate_avid (Some (ws ++ w ++ ws')) = _normalize_duplicate_avid (Some v)).
  { intros w Hw _ Hs. unfold _normalize_duplicate_avid.
    assert (truthy (Some (ws ++ w ++ ws')) = true) as ->.
    { destruct ws; [destruct w; [congruence | reflexivity] | reflexivity]. }
    assert (truthy (Some v) = true) as -> by (destruct v; [congruence | reflexivity]).
    rewrite strip_outer_spaces by assumption. now rewrite Hs. }
  split; apply Hgen.
  - destruct v; [congruence | discriminate].
  - apply upper_lower.
  - now rewrite strip_lower, upper_lower.
  - destruct v; [congruence | discriminate].
  - apply upper_idemp.
  - now rewrite <- strip_upper, upper_idemp, strip_upper.
Qed.

Lemma normalize_ignores_case_and_outer_space_witness :
  _normalize_duplicate_avid (Some (py "  " ++ lower (py "Abc-123-uC") ++ py " "))
    = _normalize_duplicate_avid (Some (py "Abc-123-uC")) /\
  _normalize_duplicate_avid (Some (py "  " ++ upper (py "Abc-123-uC") ++ py " "))
    = _normalize_duplicate_avid (Some (py "Abc-123-uC")).
Proof.
  apply (normalize_ignores_case_and_outer_space (py "Abc-123-uC") (py "  ") (py " ")).
  - discriminate.
  - reflexivity.
  - repeat constructor.
  - repeat constructor.
Defined.

Lemma lstrip_decompose p v :
  exists ws, v = ws ++ lstrip_by p v /\ Forall (fun c => p c = true) ws.
Proof.
  induction v as [|c v (ws & Hv & Hws)]; cbn [lstrip_by].
  - exists []. split; [reflexivity | constructor].
  - destruct (p c) eqn:Hc.
    + exists (c :: ws). split; [cbn; now rewrite <- Hv | now constructor].
    + exists []. split; [reflexivity | constructor].
Qed.

Lemma strip_leading_spaces ws s :
  Forall (fun c => is_space c = true) ws -> strip (ws ++ s) = strip s.
Proof.
  intros Hws. pose proof (strip_outer_spaces ws s [] Hws (Forall_nil_2 _)) as E.
  now rewrite app_nil_r in E.
Qed.

(** The trimmed form of a string that does not end in white space, with a
    suffix of other characters after it. *)
Lemma strip_app_suffix v suffix :
  v <> [] -> (forall c, last v = Some c -> is_space c = false) ->
  suffix <> [] -> (forall c, last suffix = Some c -> is_space c = false) ->
  strip (v ++ suffix) = strip v ++ suffix /\ strip v <> [].
Proof.
  intros Hv Hlast Hs Hslast.
  destruct (lstrip_decompose is_space v) as (ws & Hdec & Hws).
  remember (lstrip_by is_space v) as core eqn:Hcore_def.
  assert (Hchead : forall c, head core = Some c -> is_space c = false).
  { intros c Hc. destruct core as [|c' t]; [discriminate|]. injection Hc as ->.
    exact (lstrip_by_head is_space v c t (eq_sym Hcore_def)). }
  clear Hcore_def. subst v.
  assert (Hcore : core <> []).
  { intros ->. rewrite app_nil_r in *.
    destruct (last ws) as [c|] eqn:Hl; [|apply last_None in Hl; congruence].
    rewrite Forall_forall in Hws. specialize (Hlast c eq_refl).
    rewrite (Hws c (last_Some_elem_of _ _ Hl)) in Hlast. discriminate. }
  assert (Hclast : forall c, last core = Some c -> is_space c = false).
  { intros c Hc. apply Hlast. rewrite last_app. now rewrite Hc. }
  assert (Hsv : strip (ws ++ core) = core).
  { rewrite strip_leading_spaces by exact Hws. now apply strip_clean. }
  split; [|now rewrite Hsv].
  rewrite Hsv, <- app_assoc, strip_leading_spaces by exact Hws.
  apply strip_clean.
  - intros c Hc. destruct core; [congruence|]. exact (Hchead c Hc).
  - intros c Hc. apply Hslast. rewrite last_app in Hc.
    destruct (last suffix) as [d|] eqn:Hd; [exact Hc|].
    apply last_None in Hd. congruence.
Qed.

Lemma cosmetic_suffix_shape suffix :
  In (upper suffix) _DUPLICATE_SUFFIXES ->
  suffix <> [] /\ forall c, last suffix = Some c -> is_space c = false.
Proof.
  intros Hin. split.
  - intros ->. destruct Hin as [Hin|[Hin|[]]]; discriminate.
  - intros c Hc. rewrite <- is_space_upper_char.
    assert (Hl : last (upper suffix) = Some (upper_char c)).
    { unfold upper. now rewrite last_map, Hc. }
    destruct Hin as [Hin|[Hin|[]]]; rewrite <- Hin in Hl;
      [change (last (py "-UC")) with (Some "C"%char) in Hl
      |change (last (py "-C")) with (Some "C"%char) in Hl];
      injection Hl as Hl; rewrite <- Hl; reflexivity.
Qed.

Lemma cosmetic_suffix_absorbed (v suffix : str)
    (Hv : v <> [])
    (Hlast : forall c, last v = Some c -> is_space c = false)
    (Hsuffix : In (upper suffix) _DUPLICATE_SUFFIXES) :
  _normalize_duplicate_avid (Some (v ++ suffix)) = _normalize_duplicate_avid (Some v).
Proof.
  destruct (cosmetic_suffix_shape suffix Hsuffix) as [Hs Hslast].
  destruct (strip_app_suffix v suffix Hv Hlast Hs Hslast) as [Hstrip _].
  unfold _normalize_duplicate_avid.
  assert (truthy (Some (v ++ suffix)) = true) as ->
      by (destruct v; [congruence | reflexivity]).
  assert (truthy (Some v) = true) as -> by (destruct v; [congruence | reflexivity]).
  rewrite Hstrip. f_equal. unfold upper at 1 2. rewrite map_app.
  fold (upper (strip v)). fold (upper suffix).
  apply strip_suffixes_step; [|reflexivity].
  now apply remove_cosmetic_suffix.
Qed.

(** X2. A cosmetic suffix, in any letter case, after an identifier of
    ASCII characters that does not end in white space does not change the
    normalised form. *)
Theorem normalize_absorbs_cosmetic_suffix (v suffix : str)
    (Hv : v <> []) (Hascii : ascii_text v)
    (Hlast : forall c, last v = Some c -> is_space c = false)
    (Hsuffix : In (upper suffix) _DUPLICATE_SUFFIXES) :
  _normalize_duplicate_avid (Some (v ++ suffix)) = _normalize_duplicate_avid (Some v).
Proof. now apply cosmetic_suffix_absorbed. Qed.

Lemma normalize_absorbs_cosmetic_suffix_witness :
  _normalize_duplicate_avid (Some (py "abc-123" ++ py "-uc"))
  = _normalize_duplicate_avid (Some (py "abc-123")).
Proof.
  apply (normalize_absorbs_cosmetic_suffix (py "abc-123") (py "-uc")).
  - discriminate.
  - reflexivity.
  - intros c Hc. vm_compute in Hc. injection Hc as <-. reflexivity.
  - left. reflexivity.
Defined.

Section DuplicateKey.

Context `{MovieAttr}.

(** X3. Two movies with the same dvd identifier of ASCII characters, one
    without a variant suffix and one with a cosmetic one, have the same
    duplicate key. *)
Theorem duplicate_key_ignores_cosmetic_variant (a b : Movie) (id : str)
    (Ha : dvdid a = Some id) (Hb : dvdid b = Some id)
    (Hid : id <> []) (Hascii : ascii_text id)
    (Hlast : forall c, last id = Some c -> is_space c = false)
    (Hplain : attr_str a = [])
    (Hvariant : In (upper (attr_str b)) _DUPLICATE_SUFFIXES) :
  movie_duplicate_key a = movie_duplicate_key b.
Proof.
  unfold movie_duplicate_key. rewrite Ha, Hb.
  assert (Ht : truthy (Some id) = true) by (destruct id; [congruence | reflexivity]).
  rewrite !Ht. cbv beta iota zeta. rewrite ?Ht.
  rewrite Hplain, app_nil_r.
  symmetry. now apply cosmetic_suffix_absorbed.
Qed.

(** X4. A movie has no duplicate key exactly when it has neither a dvd
    identifier nor a content identifier. *)
Theorem duplicate_key_none_iff_no_identifier (movie : Movie) :
  movie_duplicate_key movie = None <->
  truthy (dvdid movie) = false /\ truthy (cid movie) = false.
Proof.
  unfold movie_duplicate_key, _normalize_duplicate_avid.
  destruct (dvdid movie) as [[|c id]|]; destruct (cid movie) as [[|c' id']|];
    cbn [truthy app];
    (split; [intros Hn; first [discriminate Hn | auto]
            |intros [? ?]; first [discriminate | reflexivity]]).
Qed.

End DuplicateKey.

Lemma duplicate_key_ignores_cosmetic_variant_witness :
  @movie_duplicate_key sample_attr (movie_with "ABC-123" "")
  = @movie_duplicate_key sample_attr (movie_with "ABC-123" "-C").
Proof.
  apply (@duplicate_key_ignores_cosmetic_variant sample_attr
           (movie_with "ABC-123" "") (movie_with "ABC-123" "-C") (py "ABC-123")).
  - reflexivity.
  - reflexivity.
  - discriminate.
  - reflexivity.
  - intros c Hc. vm_compute in Hc. injection Hc as <-. reflexivity.
  - reflexivity.
  - right. left. reflexivity.
Defined.

(** ** The output pattern *)

Lemma In_take {A : Type} (x : A) n l : In x (take n l) -> In x l.
Proof. intros Hin. rewrite <- (take_drop n l). apply in_or_app. now left. Qed.

Lemma In_drop {A : Type} (x : A) n l : In x (drop n l) -> In x l.
Proof. intros Hin. rewrite <- (take_drop n l). apply in_or_app. now right. Qed.

Lemma In_lstrip_by p c s : In c (lstrip_by p s) -> In c s.
Proof.
  intros Hin. destruct (lstrip_by_suffix p s) as [k Hk]. rewrite Hk.
  apply in_or_app. now right.
Qed.

Lemma In_rstrip_by p c s : In c (rstrip_by p s) -> In c s.
Proof.
  intros Hin. destruct (rstrip_by_prefix p s) as [k Hk]. rewrite Hk.
  apply in_or_app. now left.
Qed.

Lemma In_strip c s : In c (strip s) -> In c s.
Proof. intros Hin. unfold strip in Hin. now apply In_rstrip_by, In_lstrip_by in Hin. Qed.

Lemma rstrip_by_last p s c : last (rstrip_by p s) = Some c -> p c = false.
Proof.
  unfold rstrip_by. destruct (lstrip_by p (rev s)) as [|a t] eqn:El; [discriminate|].
  cbn [rev]. rewrite last_snoc. intros [= <-]. exact (lstrip_by_head p _ _ _ El).
Qed.

Lemma replace_char_absent a b s : a <> b -> ~ In a (replace_char a b s).
Proof.
  intros Hab Hin. unfold replace_char in Hin. apply in_map_iff in Hin as (c & Hc & _).
  destruct (char_eqb c a) eqn:Eca; [congruence|].
  subst c. rewrite (proj2 (char_eqb_eq a a) eq_refl) in Eca. discriminate.
Qed.

Lemma In_replace_char a b c s : In c (replace_char a b s) -> c = b \/ In c s.
Proof.
  unfold replace_char. intros Hin. apply in_map_iff in Hin as (d & Hd & Hin).
  destruct (char_eqb d a); [left; congruence | right; congruence].
Qed.

Lemma find_char_None c s : find_char c s = None -> ~ In c s.
Proof.
  induction s as [|a s IH]; cbn; [auto|].
  destruct (char_eqb a c) eqn:Eac; [discriminate|].
  destruct (find_char c s); [discriminate|]. intros _ [->|Hin]; [|now apply IH].
  rewrite (proj2 (char_eqb_eq c c) eq_refl) in Eac. discriminate.
Qed.

Lemma find_char_Some c s i : find_char c s = Some i -> ~ In c (take i s) /\ s !! i = Some c.
Proof.
  revert i. induction s as [|a s IH]; intros i; cbn; [discriminate|].
  destruct (char_eqb a c) eqn:Eac.
  - intros [= <-]. apply char_eqb_eq in Eac. subst. split; [intros []|reflexivity].
  - destruct (find_char c s) as [j|]; [|discriminate]. intros [= <-].
    destruct (IH j eq_refl) as [Hno Hat]. split; [|exact Hat].
    cbn. intros [->|Hin]; [|now apply Hno].
    rewrite (proj2 (char_eqb_eq c c) eq_refl) in Eac. discriminate.
Qed.

Lemma split_on_pieces sep s piece :
  In piece (split_on sep s) -> ~ In sep piece /\ forall c, In c piece -> In c s.
Proof.
  revert piece. induction s as [|a s IH]; intros piece; cbn [split_on].
  - intros [<-|[]]. split; [intros []|auto].
  - destruct (char_eqb a sep) eqn:Eas.
    + intros [<-|Hin]; [split; [intros []|intros ? []]|].
      destruct (IH piece Hin) as [Hno Hsub]. split; [exact Hno|]. intros c Hc. right. auto.
    + destruct (split_on sep s) as [|w ws] eqn:Es.
      * intros [<-|[]]. split; [|intros c [->|[]]; now left].
        intros [->|[]]. rewrite (proj2 (char_eqb_eq sep sep) eq_refl) in Eas. discriminate.
      * intros [<-|Hin].
        -- destruct (IH w (or_introl eq_refl)) as [Hno Hsub]. split.
           ++ intros [->|Hc]; [|now apply Hno].
              rewrite (proj2 (char_eqb_eq sep sep) eq_refl) in Eas. discriminate.
           ++ intros c [->|Hc]; [now left | right; auto].
        -- destruct (IH piece (or_intror Hin)) as [Hno Hsub]. split; [exact Hno|].
           intros c Hc. right. auto.
Qed.

(** X5. The two parts of a template: the literal prefix holds no
    placeholder, no backslash and no trailing slash; every segment is not
    empty and holds neither a slash nor a backslash; and a template without
    a placeholder has no segment. *)
Theorem split_output_pattern_shape (pattern : str) :
  let '(base, segments) := _split_output_pattern pattern in
  ~ In "{"%char base /\ ~ In "\"%char base /\ last base <> Some slash /\
  Forall (fun seg => seg <> [] /\ ~ In slash seg /\ ~ In "\"%char seg) segments /\
  (In "{"%char pattern \/ segments = []).
Proof.
  unfold _split_output_pattern.
  set (normalized := strip (replace_char "\"%char slash pattern)).
  assert (Hback : ~ In "\"%char normalized).
  { intros Hin. apply In_strip in Hin. revert Hin. now apply replace_char_absent. }
  assert (Hlast : forall b, last (rstrip_by (char_eqb slash) b) <> Some slash).
  { intros b Hl. apply rstrip_by_last in Hl. discriminate. }
  assert (Hsegs : forall tail, (forall c, In c tail -> In c normalized) ->
            Forall (fun seg => seg <> [] /\ ~ In slash seg /\ ~ In "\"%char seg)
                   (List.filter nonempty (split_on slash tail))).
  { intros tail Htail. apply Forall_forall. intros seg Hin.
    apply list_elem_of_In, filter_In in Hin as [Hin Hne].
    destruct (split_on_pieces slash tail seg Hin) as [Hno Hsub].
    split; [intros ->; discriminate|]. split; [exact Hno|].
    intros Hb. apply Hback. auto. }
  destruct (find_char "{"%char normalized) as [first_placeholder|] eqn:Hfind.
  - apply find_char_Some in Hfind as [Hbefore Hat].
    assert (Hpat : In "{"%char pattern).
    { assert (In "{"%char normalized) as Hin.
      { apply list_elem_of_In. apply list_elem_of_lookup. eauto. }
      apply In_strip, In_replace_char in Hin as [Hin|Hin]; [discriminate | exact Hin]. }
    destruct (rfind_char slash (take first_placeholder normalized)) as [last_sep|] eqn:Hr.
    + assert (Hlt : last_sep < first_placeholder).
      { apply rfind_char_lt in Hr. rewrite length_take in Hr. lia. }
      split; [|split; [|split; [apply Hlast|split]]].
      * intros Hin. apply In_rstrip_by in Hin. apply Hbefore.
        replace last_sep with (min last_sep first_placeholder) in Hin by lia.
        rewrite <- take_take in Hin. now apply In_take in Hin.
      * intros Hin. apply In_rstrip_by, In_take in Hin. auto.
      * apply Hsegs. intros c. apply In_drop.
      * now left.
    + split; [intros []|split; [intros []|split; [discriminate|split]]].
      * apply Hsegs. auto.
      * now left.
  - apply find_char_None in Hfind.
    split; [|split; [|split; [apply Hlast|split]]].
    + intros Hin. now apply In_rstrip_by in Hin.
    + intros Hin. now apply In_rstrip_by in Hin.
    + constructor.
    + now right.
Qed.

(** ** Matching a segment *)

Lemma take_while_all p s : (forall c, In c s -> p c = true) -> take_while p s = s.
Proof.
  induction s as [|a s IH]; intros Hall; cbn; [reflexivity|].
  rewrite (Hall a (or_introl eq_refl)). f_equal. apply IH. intros c Hc. apply Hall. now right.
Qed.

Lemma take_while_prefix p s : exists k, s = take_while p s ++ k.
Proof.
  induction s as [|a s [k Hk]]; cbn; [now exists []|].
  destruct (p a); [exists k; cbn; now rewrite <- Hk | now exists (a :: s)].
Qed.

Lemma take_while_holds p s c : In c (take_while p s) -> p c = true.
Proof.
  induction s as [|a s IH]; cbn; [intros []|].
  destruct (p a) eqn:Ea; [|intros []]. intros [<-|Hin]; auto.
Qed.

Lemma greedy_lengths_range s n :
  In n (greedy_lengths s) ->
  1 <= n <= length (take_while (fun a => negb (char_eqb a slash)) s).
Proof. unfold greedy_lengths. rewrite <- in_rev, in_seq. lia. Qed.

Lemma first_some_Some {A B : Type} (f : A -> option B) l b :
  first_some f l = Some b -> exists x, In x l /\ f x = Some b.
Proof.
  induction l as [|x l IH]; cbn; [discriminate|].
  destruct (f x) as [b'|] eqn:Hf.
  - intros [= <-]. exists x. split; [now left | exact Hf].
  - intros Hl. destruct (IH Hl) as (y & Hy & Hfy). exists y. split; [now right | exact Hfy].
Qed.

Lemma num_segment_whole_name (name : str)
    (Hname : name <> []) (Hslash : ~ In slash name) :
  exists regex,
    _compile_segment_regex (py "{num}") = Return regex /\
    regex_match regex name = Some (Some name).
Proof.
  exists (Pieces [Lit []; NumGroup; Lit []]). split; [reflexivity|].
  cbn [regex_match match_parts]. unfold startswith at 1.
  rewrite bool_decide_eq_true_2 by apply prefix_nil. cbn [length drop].
  unfold greedy_lengths. rewrite take_while_all.
  2:{ intros c Hc. apply negb_true_iff. destruct (char_eqb c slash) eqn:Ec; [|reflexivity].
      apply char_eqb_eq in Ec. subst. contradiction. }
  destruct name as [|c name]; [congruence|].
  change (drop 0 (c :: name)) with (c :: name). cbn [length].
  rewrite seq_S, rev_app_distr. cbn [rev app first_some plus].
  change (S (length name)) with (length (c :: name)).
  rewrite drop_all, firstn_all. unfold startswith.
  rewrite bool_decide_eq_true_2 by apply prefix_nil. reflexivity.
Qed.

(** X6. The segment {num} is a full wildcard: it compiles, matches every
    name that is not empty and holds no slash, and captures the whole
    name. *)
Theorem num_segment_matches_whole_name (name : str)
    (Hname : name <> []) (Hslash : ~ In slash name) :
  exists regex,
    _compile_segment_regex (py "{num}") = Return regex /\
    regex_match regex name = Some (Some name).
Proof. now apply num_segment_whole_name. Qed.

Lemma num_segment_matches_whole_name_witness :
  exists regex,
    _compile_segment_regex (py "{num}") = Return regex /\
    regex_match regex (py "ABC-123-C") = Some (Some (py "ABC-123-C")).
Proof.
  apply (num_segment_matches_whole_name (py "ABC-123-C")).
  - discriminate.
  - intros Hin. vm_compute in Hin. intuition discriminate.
Defined.

Lemma match_parts_capture parts :
  forall s num v,
    match_parts parts s num = Some (Some v) ->
    num = Some v \/
    (v <> [] /\ ~ In slash v /\ exists pre post, s = pre ++ v ++ post).
Proof.
  induction parts as [|part parts IH]; intros s num v; cbn [match_parts].
  - destruct (at_end s); [|discriminate]. intros [= ->]. now left.
  - assert (Hdrop : forall n num',
              match_parts parts (drop n s) num' = Some (Some v) ->
              num' = Some v \/
              (v <> [] /\ ~ In slash v /\ exists pre post, s = pre ++ v ++ post)).
    { intros n num' Hm. destruct (IH _ _ _ Hm) as [Hn|(Hv & Hs & pre & post & Hd)];
        [now left|]. right. split; [exact Hv|]. split; [exact Hs|].
      exists (take n s ++ pre), post.
      rewrite <- (take_drop n s) at 1. rewrite Hd. now rewrite <- app_assoc. }
    destruct part as [text| |].
    + destruct (startswith s text); [|discriminate]. apply Hdrop.
    + intros Hf. apply first_some_Some in Hf as (n & Hn & Hm).
      destruct (Hdrop n _ Hm) as [[= <-]|Hr]; [|now right]. right.
      apply greedy_lengths_range in Hn.
      destruct (take_while_prefix (fun a => negb (char_eqb a slash)) s) as [k Hk].
      set (run := take_while (fun a => negb (char_eqb a slash)) s) in *.
      assert (Htake : take n s = take n run).
      { rewrite Hk at 1. apply take_app_le. lia. }
      split; [|split].
      * intros He. apply (f_equal length) in He. rewrite Htake, length_take in He.
        cbn in He. lia.
      * rewrite Htake. intros Hin. apply In_take in Hin.
        apply take_while_holds in Hin. cbn in Hin. discriminate.
      * exists [], (drop n s). cbn. now rewrite take_drop.
    + intros Hf. apply first_some_Some in Hf as (n & Hn & Hm). exact (Hdrop n _ Hm).
Qed.

(** X7. What a compiled segment captures as num is a piece of the name
    that is not empty and holds no slash. *)
Theorem captured_num_is_piece_of_name (regex : segment_regex) (name v : str)
    (Hmatch : regex_match regex name = Some (Some v)) :
  v <> [] /\ ~ In slash v /\ exists pre post, name = pre ++ v ++ post.
Proof.
  destruct regex as [parts|]; cbn [regex_match] in Hmatch.
  - destruct (match_parts_capture parts name None v Hmatch) as [Hn|Hr];
      [discriminate | exact Hr].
  - destruct (_ && _); discriminate.
Qed.

Lemma captured_num_is_piece_of_name_witness :
  py "ABC-123" <> [] /\ ~ In slash (py "ABC-123") /\
  exists pre post, py "[Alice] ABC-123" = pre ++ py "ABC-123" ++ post.
Proof.
  apply (captured_num_is_piece_of_name
           (Pieces [Lit (py "["); Wildcard; Lit (py "] "); NumGroup; Lit []])
           (py "[Alice] ABC-123") (py "ABC-123")).
  vm_compute. reflexivity.
Defined.

(** ** Identifiers that exist in the output folders, continued *)

Lemma normalize_Some value x :
  _normalize_duplicate_avid value = Some x ->
  exists v, value = Some v /\ v <> [] /\ fully_stripped (upper (strip v)) x.
Proof.
  unfold _normalize_duplicate_avid. destruct value as [[|c v]|]; cbn [truthy]; try discriminate.
  intros [= <-]. exists (c :: v). split; [reflexivity|]. split; [discriminate|].
  now apply strip_suffixes_fully_stripped.
Qed.

Lemma collect_existing_elem cands :
  forall acc x,
    x ∈ collect_existing cands acc <->
    x ∈ acc \/
    exists cand, In cand cands /\ _normalize_duplicate_avid (snd cand) = Some x /\ x <> [].
Proof.
  induction cands as [|[path capture] cands IH]; intros acc x; cbn [collect_existing].
  - split; [now left|]. intros [Hx|(c & [] & _)]. exact Hx.
  - rewrite IH. cbn [snd].
    destruct (_normalize_duplicate_avid capture) as [[|c n]|] eqn:Hn; cbn [truthy].
    + split.
      * intros [Hx|(cand & Hin & Hc)]; [now left|]. right. exists cand. split; [now right | exact Hc].
      * intros [Hx|(cand & [<-|Hin] & Hc & Hne)]; [now left | |].
        -- cbn [snd] in Hc. congruence.
        -- right. exists cand. auto.
    + rewrite elem_of_union, elem_of_singleton. split.
      * intros [[Hx| ->]|(cand & Hin & Hc)].
        -- now left.
        -- right. exists (path, capture). split; [now left|]. split; [exact Hn | discriminate].
        -- right. exists cand. split; [now right | exact Hc].
      * intros [Hx|(cand & [<-|Hin] & Hc & Hne)].
        -- left. now left.
        -- cbn [snd] in Hc. left. right. congruence.
        -- right. exists cand. auto.
    + split.
      * intros [Hx|(cand & Hin & Hc)]; [now left|]. right. exists cand. split; [now right | exact Hc].
      * intros [Hx|(cand & [<-|Hin] & Hc & Hne)]; [now left | |].
        -- cbn [snd] in Hc. congruence.
        -- right. exists cand. auto.
Qed.

(** X8. Every identifier that the extraction returns is in normal form: it
    is not empty, it is in upper case, it does not start with white space
    and it ends with none of the cosmetic suffixes. *)
Theorem existing_avids_are_normalized (cfg : Cfg) (fs : node) (pattern : option str)
    (ids : gset str) (x : str)
    (Hids : get_existing_summary_avids cfg fs pattern = Return ids)
    (Hx : x ∈ ids) :
  x <> [] /\ upper x = x /\
  (forall c, head x = Some c -> is_space c = false) /\
  (forall suffix, In suffix _DUPLICATE_SUFFIXES -> ~ suffix `suffix_of` x).
Proof.
  unfold get_existing_summary_avids in Hids.
  destruct (negb (contains _ _)); [injection Hids as <-; now apply elem_of_empty in Hx|].
  destruct (_split_output_pattern _) as [base_literal segments].
  destruct (negb (bool_decide (segments <> [])));
    [injection Hids as <-; now apply elem_of_empty in Hx|].
  destruct (negb (isdir fs _)); [injection Hids as <-; now apply elem_of_empty in Hx|].
  destruct (for_each _ segments []) as [compiled|e]; [|discriminate].
  rewrite bind_Return in Hids. injection Hids as <-.
  apply collect_existing_elem in Hx as [Hx|(cand & _ & Hn & Hne)];
    [now apply elem_of_empty in Hx|].
  apply normalize_Some in Hn as (v & _ & _ & Hfs).
  pose proof (fully_stripped_prefix _ _ Hfs) as Hpre.
  split; [exact Hne|]. split; [exact (upper_prefix_fixed _ _ Hpre)|].
  split; [|exact (fully_stripped_fixed _ _ Hfs)].
  intros c Hc. destruct x as [|c' x]; [discriminate|]. injection Hc as ->.
  destruct Hpre as [k Hk]. rewrite <- strip_upper in Hk. exact (strip_head _ _ _ Hk).
Qed.

Lemma existing_avids_are_normalized_witness :
  py "ABC-123" <> [] /\ upper (py "ABC-123") = py "ABC-123" /\
  (forall c, head (py "ABC-123") = Some c -> is_space c = false) /\
  (forall suffix, In suffix _DUPLICATE_SUFFIXES -> ~ suffix `suffix_of` py "ABC-123").
Proof.
  apply (existing_avids_are_normalized sample_cfg media_with_folders
           (Some (py "media/{num}/video.mp4")) {[ py "ABC-123" ]} (py "ABC-123")).
  - vm_compute. reflexivity.
  - now apply elem_of_singleton.
Defined.

Lemma for_each_Raise {A S : Type} (P : exn -> Prop) (body : S -> A -> result S) l :
  (forall acc x e, body acc x = Raise e -> P e) ->
  forall acc e, for_each body l acc = Raise e -> P e.
Proof.
  intros Hbody. induction l as [|x l IH]; intros acc e; cbn [for_each]; [discriminate|].
  destruct (body acc x) as [acc'|e'] eqn:Hb; step_bind.
  - apply IH.
  - intros [= <-]. exact (Hbody acc x e' Hb).
Qed.

(** X10. The extraction lets no error of the file system out: a folder
    that cannot be listed is passed over, and the only exception that can
    be raised is the one of a segment that does not compile. *)
Theorem existing_avids_raise_only_compile_error (cfg : Cfg) (fs : node)
    (pattern : option str) (e : exn)
    (Hraise : get_existing_summary_avids cfg fs pattern = Raise e) :
  e = ReError.
Proof.
  unfold get_existing_summary_avids in Hraise.
  destruct (negb (contains _ _)); [discriminate|].
  destruct (_split_output_pattern _) as [base_literal segments].
  destruct (negb (bool_decide (segments <> []))); [discriminate|].
  destruct (negb (isdir fs _)); [discriminate|].
  destruct (for_each _ segments []) as [compiled|e'] eqn:Hc; [discriminate|].
  rewrite bind_Raise in Hraise. injection Hraise as <-.
  revert Hc. apply (for_each_Raise (fun e => e = ReError)). intros acc seg e0.
  unfold _compile_segment_regex.
  destruct (forallb is_empty_lit _); [discriminate|].
  destruct (1 <? _); [now intros [= <-] | discriminate].
Qed.

Lemma existing_avids_raise_only_compile_error_witness : ReError = ReError.
Proof.
  apply (existing_avids_raise_only_compile_error sample_cfg media_with_files
           (Some (py "media/{num}-{num}")) ReError).
  vm_compute. reflexivity.
Defined.

Lemma split_on_no_sep sep s : ~ In sep s -> split_on sep s = [s].
Proof.
  induction s as [|a s IH]; intros Hno; cbn [split_on]; [reflexivity|].
  destruct (char_eqb a sep) eqn:Ea.
  - apply char_eqb_eq in Ea. subst. exfalso. apply Hno. now left.
  - rewrite IH; [reflexivity|]. intros Hin. apply Hno. now right.
Qed.


Lemma good_name_no_slash name : good_name name = true -> ~ In slash name.
Proof.
  unfold good_name. intros Hg Hin. apply andb_true_iff in Hg as [_ Hg].
  rewrite forallb_forall in Hg. specialize (Hg slash Hin).
  rewrite (proj2 (char_eqb_eq slash slash) eq_refl) in Hg. discriminate.
Qed.





(** ** The movies of a scan *)

Section ScanMovies.

Context `{AvidLib} (cfg : Cfg).

(** What a scan that returned went through. *)
Lemma scan_inversion fs root out :
  wf_names fs = true -> scan_movies cfg fs root = Return out ->
  exists st by_avid small has_avid notes msg,
    scan_walk cfg fs root = Return st /\
    state_ok st /\
    merge_small_videos (dic st) (small_videos st) = (by_avid, small, has_avid) /\
    dic_ok by_avid /\
    keys by_avid = keys (dic st) /\
    Forall2 (fun item m => movie_avid m = Some (fst item) /\ files m = snd item)
            (kept_groups by_avid) (movies out) /\
    failures out = failed_items st /\
    written out = log st ++ report_skipped small has_avid ++ notes
                  ++ (if nonempty msg then [Error_duplicates msg] else [])
                  ++ map data_src_note (kept_groups by_avid).
Proof.
  intros Hwf Hscan. pose proof Hscan as Hscan'. unfold scan_movies in Hscan'.
  destruct (scan_walk cfg fs root) as [st|e] eqn:Hwalk; [|discriminate]. clear Hscan'.
  destruct (merge_small_videos (dic st) (small_videos st)) as [[d' s'] h] eqn:Hmerge.
  destruct (scan_after_walk cfg fs root st d' s' h Hwf Hwalk Hmerge)
    as (Hok & ms & notes & msg & Hscan' & Hms & _).
  rewrite Hscan in Hscan'. injection Hscan' as ->.
  pose proof (scan_walk_ok cfg fs root st Hwf Hwalk) as Hst.
  exists st, d', s', h, notes, msg. cbn [movies failures written].
  repeat split; try assumption; try reflexivity; try apply Hst; try apply Hok.
  destruct (merge_small_videos_spec (dic st) (small_videos st) (proj1 (proj2 Hst)))
    as (d1 & h1 & Hm1 & Hkeys & _).
  rewrite Hmerge in Hm1. now injection Hm1 as <- _ _.
Qed.

Lemma kept_groups_NoDup d : NoDup (keys d) -> NoDup (keys (kept_groups d)).
Proof.
  induction d as [|[k group] d IH]; intros Hnd; [constructor|].
  change ((k, group) :: d) with ([(k, group)] ++ d).
  rewrite kept_groups_app, keys_app.
  cbn in Hnd. apply NoDup_cons in Hnd as [Hk Hnd].
  unfold kept_groups at 1. cbn [flat_map fst snd app].
  destruct (group_fate group) as [[mapped|]|e]; cbn [app keys map fst]; try now apply IH.
  apply NoDup_cons. split; [|now apply IH].
  intros Hin. apply Hk. now apply kept_groups_keys.
Qed.

Lemma movies_avids d (ms : list Movie) :
  Forall2 (fun item m => movie_avid m = Some (fst item) /\ files m = snd item) d ms ->
  map movie_avid ms = map Some (keys d).
Proof.
  induction 1 as [|item m d ms [Ha _] _ IH]; [reflexivity|]. cbn. now rewrite Ha, IH.
Qed.

(** X11. The movies that a scan returns carry distinct identifiers. *)
Theorem scan_movies_have_distinct_identifiers (fs : node) (root : str) (out : scan_outcome)
    (Hwf : wf_names fs = true)
    (Hscan : scan_movies cfg fs root = Return out) :
  NoDup (map movie_avid (movies out)).
Proof.
  destruct (scan_inversion fs root out Hwf Hscan)
    as (st & d' & s' & h & notes & msg & _ & _ & _ & [Hnd _] & _ & Hms & _).
  rewrite (movies_avids _ _ Hms). apply NoDup_map_Some. now apply kept_groups_NoDup.
Qed.

(** X13. The files of every movie of a scan are the files that the walk
    and the merge of the small files gathered for its identifier, none
    lost and none added; a group of one file is returned as it is. *)
Theorem scan_movie_holds_files_of_its_group (fs : node) (root : str) (out : scan_outcome)
    (by_avid : pydict (list str)) (m : Movie)
    (Hwf : wf_names fs = true)
    (Hscan : scan_movies cfg fs root = Return out)
    (Hgroups : scan_groups cfg fs root = Return by_avid)
    (Hm : m ∈ movies out) :
  exists avid group,
    movie_avid m = Some avid /\ dict_get avid by_avid = Some group /\
    files m ≡ₚ group /\ (length group = 1 -> files m = group).
Proof.
  destruct (scan_inversion fs root out Hwf Hscan)
    as (st & d' & s' & h & notes & msg & Hwalk & _ & Hmerge & [Hnd _] & _ & Hms & _).
  assert (by_avid = d') as ->.
  { unfold scan_groups in Hgroups. rewrite Hwalk, bind_Return, Hmerge in Hgroups.
    now injection Hgroups as <-. }
  apply list_elem_of_lookup in Hm as [i Hi].
  destruct (Forall2_lookup_r _ _ _ _ _ Hms Hi) as ([avid mapped] & Hk & Ha & Hf).
  cbn [fst snd] in Ha, Hf.
  assert (Hin : (avid, mapped) ∈ kept_groups d') by (apply list_elem_of_lookup; now exists i).
  apply kept_groups_elem in Hin as (group & Hin & Hfate).
  exists avid, group. split; [exact Ha|]. split; [now apply dict_get_NoDup|].
  destruct (group_fate_kept group mapped Hfate) as (Hperm & _ & _).
  rewrite Hf. split; [exact Hperm|]. intros Hl.
  rewrite (group_fate_single group Hl) in Hfate. congruence.
Qed.

(** X12. An identifier with a single file always gets a movie, with that
    file. *)
Theorem scan_single_file_group_is_returned (fs : node) (root : str)
    (by_avid : pydict (list str)) (avid f : str)
    (Hwf : wf_names fs = true)
    (Hgroups : scan_groups cfg fs root = Return by_avid)
    (Hget : dict_get avid by_avid = Some [f]) :
  exists out m,
    scan_movies cfg fs root = Return out /\
    m ∈ movies out /\ movie_avid m = Some avid /\ files m = [f].
Proof.
  destruct (scan_of_groups cfg fs root by_avid Hwf Hgroups) as (out & Hscan & _ & Hkept & _).
  destruct (Hkept avid [f] [f] Hget (group_fate_single [f] eq_refl)) as (m & Hm & Ha & Hf).
  now exists out, m.
Qed.

End ScanMovies.

Lemma scan_movies_have_distinct_identifiers_witness :
  NoDup (map movie_avid (movies slices_outcome)).
Proof.
  apply (@scan_movies_have_distinct_identifiers sample_lib sample_cfg slices_tree
           (py "videos") slices_outcome).
  - reflexivity.
  - vm_compute. reflexivity.
Defined.

Lemma scan_movie_holds_files_of_its_group_witness :
  exists avid group,
    movie_avid movie_abc = Some avid /\ dict_get avid slices_groups = Some group /\
    files movie_abc ≡ₚ group /\ (length group = 1 -> files movie_abc = group).
Proof.
  apply (@scan_movie_holds_files_of_its_group sample_lib sample_cfg slices_tree
           (py "videos") slices_outcome slices_groups movie_abc).
  - reflexivity.
  - vm_compute. reflexivity.
  - vm_compute. reflexivity.
  - left.
Defined.

Lemma scan_single_file_group_is_returned_witness :
  exists out m,
    @scan_movies sample_lib sample_cfg slices_tree (py "videos") = Return out /\
    m ∈ movies out /\ movie_avid m = Some (py "CLIP-002") /\
    files m = [py "videos/clip.mkv"].
Proof.
  apply (@scan_single_file_group_is_returned sample_lib sample_cfg slices_tree
           (py "videos") slices_groups).
  - reflexivity.
  - vm_compute. reflexivity.
  - reflexivity.
Defined.

(** ** More on slices *)

Lemma run_tokens_from_group files sorted (P : ascii -> Prop) :
  contiguous_run files sorted ->
  (forall f, f ∈ files -> exists c, slice_token files f = Some c /\ P c) ->
  Forall P sorted.
Proof.
  intros [Hperm _] Hall. apply Forall_forall. intros c Hc.
  assert (Some c ∈ map (slice_token files) files) as Hin.
  { rewrite <- Hperm. apply list_elem_of_In, in_map. now apply list_elem_of_In. }
  apply list_elem_of_In, in_map_iff in Hin as (f & Hf & Hin).
  destruct (Hall f (proj2 (list_elem_of_In _ _) Hin)) as (c' & Hc' & Hp). congruence.
Qed.

(** X14. A group that the slice check accepts has at most 26 files when
    its tokens are letters and at most 10 when they are digits. *)
Theorem accepted_slices_are_bounded (files mapped : list str)
    (Haccept : check_slices files = Return (Slices mapped)) :
  ((forall f, f ∈ files -> exists c, slice_token files f = Some c /\ is_lower c = true) ->
   length mapped <= 26) /\
  ((forall f, f ∈ files -> exists c, slice_token files f = Some c /\ is_digit c = true) ->
   length mapped <= 10).
Proof.
  destruct (check_slices_accepts files mapped Haccept) as (_ & sorted & Hrun & Hperm & _).
  rewrite Hperm.
  destruct files as [|f files]; [split; intros _; cbn; lia|].
  destruct (contiguous_run_size (f :: files) sorted ltac:(discriminate) Hrun) as [Hl Hd].
  split; intros Hall.
  - apply Hl. exact (run_tokens_from_group _ _ _ Hrun Hall).
  - apply Hd. exact (run_tokens_from_group _ _ _ Hrun Hall).
Qed.

Lemma accepted_slices_are_bounded_witness :
  ((forall f,
      f ∈ [py "videos/movie.c.mp4"; py "videos/movie.a.mp4"; py "videos/movie.b.mp4"] ->
      exists c,
        slice_token
          [py "videos/movie.c.mp4"; py "videos/movie.a.mp4"; py "videos/movie.b.mp4"] f
        = Some c /\ is_lower c = true) ->
   length [py "videos/movie.a.mp4"; py "videos/movie.b.mp4"; py "videos/movie.c.mp4"] <= 26) /\
  ((forall f,
      f ∈ [py "videos/movie.c.mp4"; py "videos/movie.a.mp4"; py "videos/movie.b.mp4"] ->
      exists c,
        slice_token
          [py "videos/movie.c.mp4"; py "videos/movie.a.mp4"; py "videos/movie.b.mp4"] f
        = Some c /\ is_digit c = true) ->
   length [py "videos/movie.a.mp4"; py "videos/movie.b.mp4"; py "videos/movie.c.mp4"] <= 10).
Proof.
  apply (accepted_slices_are_bounded
           [py "videos/movie.c.mp4"; py "videos/movie.a.mp4"; py "videos/movie.b.mp4"]).
  vm_compute. reflexivity.
Defined.

Section ScanErrors.

Context `{AvidLib} (cfg : Cfg) (Hnfo : skip_nfo_dir cfg = false).

Lemma visit_file_raises dirpath entries st file e :
  visit_file cfg dirpath entries st file = Raise e -> e = OSError.
Proof.
  unfold visit_file. case_bool_decide; [|discriminate].
  destruct (lookup_entry file entries) as [[size|readable sub|]|]; cbn [getsize]; step_bind.
  - destruct (size <? minimum_size cfg)%N; [discriminate|].
    destruct (truthy (avid_of (path_join dirpath file))); discriminate.
  - destruct (4096 <? minimum_size cfg)%N; [discriminate|].
    destruct (truthy (avid_of (path_join dirpath file))); discriminate.
  - now intros [= <-].
  - now intros [= <-].
Qed.

Lemma walk_raises n :
  forall dirpath st e, walk cfg dirpath n st = Raise e -> e = OSError.
Proof.
  induction n as [size|readable entries IH|] using node_induction; intros dirpath st e;
    [discriminate| |discriminate].
  destruct readable; [|discriminate].
  cbn [walk]. unfold visit_dir.
  pose proof (prune_returns cfg Hnfo entries
                (map fst (List.filter (fun e => is_dir (snd e)) entries))
                [] [] (Forall_nil_2 _)) as Hprune.
  cbn [app] in Hprune. rewrite Hprune. clear Hprune. step_bind.
  destruct (for_each (visit_file cfg dirpath entries) _ _) as [st1|e1] eqn:Hfiles; step_bind.
  - apply (for_each_Raise (fun e => e = OSError)). intros s name e0.
    destruct (List.find _ _) as [[name' w]|] eqn:Hfind; [|discriminate].
    apply find_some in Hfind as [Hin _].
    apply in_map_iff in Hin as (x & [= _ <-] & Hx). apply list_elem_of_In in Hx.
    rewrite Forall_forall in IH. apply (IH x Hx).
  - intros [= <-]. revert Hfiles. apply (for_each_Raise (fun e => e = OSError)).
    intros s file e0. apply visit_file_raises.
Qed.

(** X19. With [skip_nfo_dir] off, the only exception that the scan of a
    tree with well-formed names lets out is the [OSError] of the unguarded
    [os.path.getsize]; and when every entry of the tree can be examined the
    scan returns: folders that cannot be read, files without an identifier
    and duplicates only shorten the result. *)
Theorem scan_raises_only_getsize_error (fs : node) (root : str)
    (Hwf : wf_names fs = true) :
  (forall e, scan_movies cfg fs root = Raise e -> e = OSError) /\
  (all_examinable fs = true -> exists out, scan_movies cfg fs root = Return out).
Proof.
  split; [|now apply scan_returns_without_skip_nfo_dir].
  intros e Hraise.
  destruct (scan_walk cfg fs root) as [st|e'] eqn:Hwalk.
  - destruct (merge_small_videos (dic st) (small_videos st)) as [[d' s'] h] eqn:Hmerge.
    destruct (scan_after_walk cfg fs root st d' s' h Hwf Hwalk Hmerge)
      as (_ & ms & notes & msg & Hscan & _).
    congruence.
  - unfold scan_movies in Hraise. rewrite Hwalk, bind_Raise in Hraise.
    injection Hraise as <-.
    unfold scan_walk in Hwalk. destruct (resolve fs root) as [n|]; [|discriminate].
    exact (walk_raises n root empty_state e' Hwalk).
Qed.

End ScanErrors.

Lemma scan_raises_only_getsize_error_witness :
  (forall e, @scan_movies sample_lib sample_cfg dangling_tree (py "videos") = Raise e ->
             e = OSError) /\
  (all_examinable dangling_tree = true ->
   exists out, @scan_movies sample_lib sample_cfg dangling_tree (py "videos") = Return out).
Proof.
  apply (@scan_raises_only_getsize_error sample_lib sample_cfg); reflexivity.
Defined.

(** The exception is not hypothetical: a link to nothing that has the
    extension of a video ends the scan. *)
Example scan_dangling_link_raises :
  @scan_movies sample_lib sample_cfg dangling_tree (py "videos") = Raise OSError.
Proof. vm_compute. reflexivity. Qed.

(** X20. Every movie of a scan has at least one file, and the files of a
    movie with several files lie in one folder. *)
Theorem scan_movie_files_share_one_folder `{AvidLib} (cfg : Cfg) (fs : node) (root : str)
    (out : scan_outcome) (m : Movie)
    (Hwf : wf_names fs = true)
    (Hscan : scan_movies cfg fs root = Return out)
    (Hm : m ∈ movies out) :
  files m <> [] /\
  (2 <= length (files m) -> length (remove_dups (map dirname (files m))) <= 1).
Proof. now apply (scan_movies_files_in_one_folder cfg fs root out m). Qed.

Lemma scan_movie_files_share_one_folder_witness :
  files movie_abc <> [] /\
  (2 <= length (files movie_abc) ->
   length (remove_dups (map dirname (files movie_abc))) <= 1).
Proof.
  apply (@scan_movie_files_share_one_folder sample_lib sample_cfg slices_tree
           (py "videos") slices_outcome movie_abc).
  - reflexivity.
  - vm_compute. reflexivity.
  - left.
Defined.

(** *** The order of the files of a group *)

Lemma common_prefix2_prefix a : forall b,
  common_prefix2 a b `prefix_of` a /\ common_prefix2 a b `prefix_of` b.
Proof.
  induction a as [|x a IH]; intros [|y b]; cbn [common_prefix2];
    try (split; apply prefix_nil).
  destruct (char_eqb x y) eqn:Exy; [|split; apply prefix_nil].
  apply char_eqb_eq in Exy. subst y. destruct (IH b) as [Ha Hb].
  split; now apply prefix_cons.
Qed.

Lemma common_prefix2_greatest p : forall a b,
  p `prefix_of` a -> p `prefix_of` b -> p `prefix_of` common_prefix2 a b.
Proof.
  induction p as [|c p IH]; intros a b Ha Hb; [apply prefix_nil|].
  destruct Ha as [ka ->], Hb as [kb ->]. cbn [app common_prefix2].
  rewrite (proj2 (char_eqb_eq c c) eq_refl). apply prefix_cons.
  apply IH; [now exists ka | now exists kb].
Qed.

Lemma fold_common_prefix p l : forall s,
  p `prefix_of` fold_left common_prefix2 l s <->
  p `prefix_of` s /\ forall x, x ∈ l -> p `prefix_of` x.
Proof.
  induction l as [|y l IH]; intros s; cbn [fold_left].
  - split; [intros Hp; split; [exact Hp|]|tauto]. intros x Hx. now apply elem_of_nil in Hx.
  - rewrite IH. split.
    + intros [Hp Hall]. destruct (common_prefix2_prefix s y) as [Hs Hy]. split.
      * now transitivity (common_prefix2 s y).
      * intros x Hx. apply elem_of_cons in Hx as [->|Hx]; [|now apply Hall].
        now transitivity (common_prefix2 s y).
    + intros [Hp Hall]. split.
      * apply common_prefix2_greatest; [exact Hp|]. apply Hall. left.
      * intros x Hx. apply Hall. now right.
Qed.

(** [commonprefix] gives the longest string that every element starts
    with. *)
Lemma commonprefix_spec l p :
  l <> [] -> p `prefix_of` commonprefix l <-> forall x, x ∈ l -> p `prefix_of` x.
Proof.
  destruct l as [|s l]; [congruence|]. intros _. unfold commonprefix.
  rewrite fold_common_prefix. split.
  - intros [Hs Hall] x Hx. apply elem_of_cons in Hx as [->|Hx]; auto.
  - intros Hall. split; [apply Hall; left|]. intros x Hx. apply Hall. now right.
Qed.

Lemma commonprefix_Permutation l l' : l ≡ₚ l' -> commonprefix l = commonprefix l'.
Proof.
  intros Hp. destruct l as [|s l].
  { apply Permutation_nil in Hp. now subst. }
  assert (Hl' : l' <> []).
  { intros ->. symmetry in Hp. apply Permutation_nil in Hp. discriminate. }
  apply (anti_symm prefix).
  - apply commonprefix_spec; [exact Hl'|]. intros x Hx. rewrite <- Hp in Hx.
    revert x Hx. apply commonprefix_spec; [discriminate | reflexivity].
  - apply commonprefix_spec; [discriminate|]. intros x Hx. rewrite Hp in Hx.
    revert x Hx. apply commonprefix_spec; [exact Hl' | reflexivity].
Qed.

Lemma NoDup_map_inj_on {A B : Type} (f : A -> B) l x y :
  NoDup (map f l) -> x ∈ l -> y ∈ l -> f x = f y -> x = y.
Proof.
  induction l as [|a l IH]; cbn [map]; intros Hnd Hx Hy Hf; [now apply elem_of_nil in Hx|].
  apply NoDup_cons in Hnd as [Ha Hnd].
  apply elem_of_cons in Hx as [->|Hx]; apply elem_of_cons in Hy as [->|Hy]; auto.
  - exfalso. apply Ha. rewrite Hf. apply list_elem_of_In, in_map. now apply list_elem_of_In.
  - exfalso. apply Ha. rewrite <- Hf. apply list_elem_of_In, in_map. now apply list_elem_of_In.
Qed.

Lemma map_inj_on {A B : Type} (f : A -> B) l a : forall b,
  NoDup (map f l) -> (forall x, x ∈ a -> x ∈ l) -> (forall x, x ∈ b -> x ∈ l) ->
  map f a = map f b -> a = b.
Proof.
  induction a as [|x a IH]; intros [|y b] Hnd Ha Hb; cbn [map]; try discriminate;
    [reflexivity|].
  intros [= Hxy Hrest]. f_equal.
  - apply (NoDup_map_inj_on f l); auto; [apply Ha | apply Hb]; left.
  - apply IH; auto; intros z Hz; [apply Ha | apply Hb]; now right.
Qed.

Lemma check_slices_basenames files verdict :
  check_slices files = Return verdict -> Forall (fun f => basename f <> []) files.
Proof.
  unfold check_slices.
  destruct (map_result first_char (remaining_of files)) as [slices|e] eqn:Hs;
    [|discriminate].
  intros _. apply map_result_Forall2 in Hs.
  assert (Hne : Forall (fun r : str => r <> []) (remaining_of files)).
  { induction Hs as [|r c l k Hrc _ IH]; constructor; [|exact IH].
    intros ->. discriminate. }
  unfold remaining_of in Hne. rewrite map_map in Hne. rewrite map_fmap, Forall_fmap in Hne.
  eapply Forall_impl; [exact Hne|]. intros f Hf Hb. apply Hf. cbn. now rewrite Hb.
Qed.

(** X15. The result of the slice check does not depend on the order in
    which the files of the group were found: a group that is accepted is
    accepted in any order, with the same ordered list of files. *)
Theorem check_slices_ignores_order (files files' mapped : list str)
    (Hperm : files ≡ₚ files')
    (Haccept : check_slices files = Return (Slices mapped)) :
  check_slices files' = Return (Slices mapped).
Proof.
  assert (Hprefix : commonprefix (map basename files) = commonprefix (map basename files')).
  { apply commonprefix_Permutation. now apply Permutation_map. }
  assert (Htok : forall f, slice_token files' f = slice_token files f).
  { intros f. unfold slice_token. now rewrite Hprefix. }
  assert (Hpost : forall f, slice_postfix files' f = slice_postfix files f).
  { intros f. unfold slice_postfix. now rewrite Hprefix. }
  assert (Htokens : map (slice_token files') files' ≡ₚ map (slice_token files) files).
  { rewrite (map_ext _ _ Htok). symmetry. now apply Permutation_map. }
  destruct (check_slices_accepts files mapped Haccept)
    as ((Hsame & Hdist & _) & sorted & Hrun & Hm & Hmtok).
  pose proof (check_slices_basenames files _ Haccept) as Hbase.
  rewrite Hperm in Hbase.
  destruct (check_slices_total files' Hbase) as [verdict Hv].
  assert (Hne : files' <> []).
  { intros ->. rewrite check_slices_nil in Hv. apply Permutation_nil_r in Hperm. subst.
    rewrite check_slices_nil in Haccept. discriminate. }
  assert (Hrun' : contiguous_run files' sorted).
  { destruct Hrun as (Hp & first & Hstart & Hord). split; [now rewrite Htokens|].
    exists first. split; [exact Hstart|]. now rewrite <- Hperm. }
  assert (Hok' : slices_ok files').
  { split; [|split; [|now exists sorted]].
    - intros f g Hf Hg. rewrite !Hpost. apply Hsame; now rewrite Hperm.
    - unfold distinct_tokens in *. now rewrite Htokens. }
  destruct (check_slices_complete files' verdict Hne Hok' Hv) as [mapped' ->].
  rewrite Hv. do 2 f_equal.
  destruct (check_slices_accepts files' mapped' Hv) as (_ & sorted' & Hrun2 & Hm' & Hmtok').
  assert (Hsorted : sorted' = sorted).
  { destruct Hrun' as (Hp & first & _ & Hord), Hrun2 as (Hp2 & first2 & _ & Hord2).
    assert (Hlen : forall l : list ascii,
              map Some l ≡ₚ map (slice_token files') files' -> length files' = length l).
    { intros l Hl. apply Permutation_length in Hl. now rewrite !length_map in Hl. }
    apply (StronglySorted_unique char_le).
    - apply (seq_sorted_chars _ (ord first2)). now rewrite <- (Hlen _ Hp2).
    - apply (seq_sorted_chars _ (ord first)). now rewrite <- (Hlen _ Hp).
    - apply Permutation_map_Some. now rewrite Hp, Hp2. }
  subst sorted'. symmetry.
  apply (map_inj_on (slice_token files) files).
  - exact Hdist.
  - intros x Hx. now rewrite <- Hm.
  - intros x Hx. rewrite Hperm. now rewrite <- Hm'.
  - rewrite Hmtok. rewrite <- Hmtok'. apply map_ext. intros f. now rewrite Htok.
Qed.

Lemma check_slices_ignores_order_witness :
  check_slices [py "videos/movie.a.mp4"; py "videos/movie.b.mp4"; py "videos/movie.c.mp4"]
  = Return (Slices [py "videos/movie.a.mp4"; py "videos/movie.b.mp4";
                    py "videos/movie.c.mp4"]).
Proof.
  apply (check_slices_ignores_order
           [py "videos/movie.c.mp4"; py "videos/movie.a.mp4"; py "videos/movie.b.mp4"]).
  - apply Permutation_cons_append.
  - vm_compute. reflexivity.
Defined.

(** ** The walk, continued *)

Lemma for_each_ext_in {A S : Type} (b1 b2 : S -> A -> result S) l :
  (forall x, In x l -> forall s, b1 s x = b2 s x) ->
  forall s, for_each b1 l s = for_each b2 l s.
Proof.
  induction l as [|x l IH]; intros Hext s; cbn [for_each]; [reflexivity|].
  rewrite (Hext x (or_introl eq_refl) s). destruct (b2 s x); step_bind; [|reflexivity].
  apply IH. intros y Hy. apply Hext. now right.
Qed.

Section IgnoredFolder.

Context `{AvidLib} (cfg : Cfg).
Context (Hnfo : skip_nfo_dir cfg = false).
Context (name : str) (Hignored : ignored_folder cfg name = true).
Context (l1 l2 : list (str * node)) (c1 c2 : node).
Context (Hc1 : is_dir c1 = true) (Hc2 : is_dir c2 = true).

Lemma getsize_other_folder file :
  getsize (lookup_entry file (l1 ++ (name, c1) :: l2))
  = getsize (lookup_entry file (l1 ++ (name, c2) :: l2)).
Proof.
  induction l1 as [|[n c] l IH]; cbn [app lookup_entry].
  - case_bool_decide; [|reflexivity].
    destruct c1, c2; try discriminate; reflexivity.
  - case_bool_decide; [reflexivity | exact IH].
Qed.

Lemma find_other_walk (dirpath n : str) :
  n <> name ->
  List.find (fun w : str * walker => bool_decide (fst w = n))
    (map (fun e => (fst e, walk cfg (path_join dirpath (fst e)) (snd e)))
         (l1 ++ (name, c1) :: l2))
  = List.find (fun w : str * walker => bool_decide (fst w = n))
      (map (fun e => (fst e, walk cfg (path_join dirpath (fst e)) (snd e)))
           (l1 ++ (name, c2) :: l2)).
Proof.
  intros Hn. induction l1 as [|[n' c] l IH]; cbn [app map List.find fst snd].
  - rewrite !bool_decide_eq_false_2 by congruence. reflexivity.
  - case_bool_decide; [reflexivity | exact IH].
Qed.

Lemma filter_other_folder (keep : bool) :
  map fst (List.filter (fun e : str * node => if keep then is_dir (snd e) else negb (is_dir (snd e)))
                       (l1 ++ (name, c1) :: l2))
  = map fst (List.filter (fun e : str * node => if keep then is_dir (snd e) else negb (is_dir (snd e)))
                         (l1 ++ (name, c2) :: l2)).
Proof.
  rewrite !List.filter_app. cbn [List.filter snd]. rewrite Hc1, Hc2.
  destruct keep; cbn [negb]; rewrite ?map_app; reflexivity.
Qed.

(** X16. An ignored folder is not entered: with [skip_nfo_dir] off, what
    an ignored folder holds changes nothing in the walk of the folder
    above it, and so nothing in the scan of a tree whose top holds it. *)
Theorem walk_does_not_enter_ignored_folder (dirpath : str) (st : scan_state) :
  walk cfg dirpath (Dir true (l1 ++ (name, c1) :: l2)) st
  = walk cfg dirpath (Dir true (l1 ++ (name, c2) :: l2)) st /\
  scan_movies cfg (Dir true (l1 ++ (name, c1) :: l2)) [slash]
  = scan_movies cfg (Dir true (l1 ++ (name, c2) :: l2)) [slash].
Proof.
  assert (Hwalk : forall dirpath st,
            walk cfg dirpath (Dir true (l1 ++ (name, c1) :: l2)) st
            = walk cfg dirpath (Dir true (l1 ++ (name, c2) :: l2)) st).
  { clear dirpath st. intros dirpath st. cbn [walk]. unfold visit_dir.
    pose proof (filter_other_folder true) as Hdirs. cbv iota in Hdirs.
    pose proof (filter_other_folder false) as Hfiles. cbv iota in Hfiles.
    rewrite Hdirs, Hfiles.
    set (dirnames := map fst (List.filter (fun e : str * node => is_dir (snd e))
                                          (l1 ++ (name, c2) :: l2))).
    set (filenames := map fst (List.filter (fun e : str * node => negb (is_dir (snd e)))
                                           (l1 ++ (name, c2) :: l2))).
    pose proof (prune_returns cfg Hnfo (l1 ++ (name, c1) :: l2) dirnames [] []
                  (Forall_nil_2 _)) as Hp1.
    pose proof (prune_returns cfg Hnfo (l1 ++ (name, c2) :: l2) dirnames [] []
                  (Forall_nil_2 _)) as Hp2.
    cbn [app] in Hp1, Hp2. rewrite Hp1, Hp2. step_bind.
    rewrite (for_each_ext_in (visit_file cfg dirpath (l1 ++ (name, c1) :: l2))
                             (visit_file cfg dirpath (l1 ++ (name, c2) :: l2))).
    2:{ intros file _ s. unfold visit_file. now rewrite getsize_other_folder. }
    destruct (for_each _ filenames _) as [st1|e]; step_bind; [|reflexivity].
    apply for_each_ext_in. intros n Hn s.
    apply filter_In in Hn as [_ Hn].
    rewrite find_other_walk; [reflexivity|].
    intros ->. rewrite Hignored in Hn. discriminate. }
  split; [apply Hwalk|].
  unfold scan_movies, scan_walk. cbn [resolve nonempty split_on resolve_from].
  change (char_eqb slash slash) with true. cbv iota. cbn [resolve_from nonempty negb orb].
  now rewrite Hwalk.
Qed.

End IgnoredFolder.

Lemma walk_does_not_enter_ignored_folder_witness :
  @scan_movies sample_lib sample_cfg
    (Dir true ([] ++ (py "#recycle", Dir true [file_of "ABC-123.mp4" 5000])
                  :: [folder_of "open" [file_of "clip.mkv" 7000]])) [slash]
  = @scan_movies sample_lib sample_cfg
      (Dir true ([] ++ (py "#recycle", Dir true [])
                    :: [folder_of "open" [file_of "clip.mkv" 7000]])) [slash].
Proof.
  refine (proj2 (@walk_does_not_enter_ignored_folder sample_lib sample_cfg _
                   (py "#recycle") _ [] [folder_of "open" [file_of "clip.mkv" 7000]]
                   (Dir true [file_of "ABC-123.mp4" 5000]) (Dir true []) _ _
                   [slash] empty_state)); reflexivity.
Defined.

(** ** What the walk gathers *)

Section Gathered.

Context `{AvidLib} (cfg : Cfg).

(** A property of the state that the loop body keeps for every file, and
    that does not depend on what is written, holds after the walk. *)
Lemma walk_invariant (I : scan_state -> Prop) :
  (forall st out, I st ->
     I {| dic := dic st; small_videos := small_videos st;
          failed_items := failed_items st; log := log st ++ out |}) ->
  (forall dirpath entries st file st',
     good_name file = true ->
     visit_file cfg dirpath entries st file = Return st' -> I st -> I st') ->
  forall n dirpath st st',
    wf_names n = true -> walk cfg dirpath n st = Return st' -> I st -> I st'.
Proof.
  intros Hlog Hfile.
  induction n as [size|readable entries IH|] using node_induction;
    intros dirpath st st' Hwf; [now intros [= <-]| |now intros [= <-]].
  destruct readable; [|now intros [= <-]].
  cbn [walk]. unfold visit_dir.
  destruct (for_each (prune_step cfg entries) _ _) as [[dirnames out]|e];
    step_bind; [|discriminate].
  destruct (for_each (visit_file cfg dirpath entries) _ _) as [st1|e] eqn:Hfiles;
    step_bind; [|discriminate].
  intros Hdirs Hst.
  assert (Hst1 : I st1).
  { eapply (for_each_invariant I (fun file => good_name file = true));
      [| |exact Hfiles|exact (Hlog st out Hst)].
    - intros s x s' Hx Hv. eapply Hfile; eauto.
    - apply Forall_forall. intros file Hin.
      apply list_elem_of_In, in_map_iff in Hin as (e & <- & He).
      apply filter_In in He as [He _].
      apply list_elem_of_In in He. exact (proj1 (wf_names_entries _ _ e Hwf He)). }
  revert Hdirs Hst1. apply (for_each_invariant I (fun _ : str => True)).
  - intros s name s' _.
    destruct (List.find _ _) as [[name' w]|] eqn:Hfind; [|now intros [= <-]].
    apply find_some in Hfind as [Hin _].
    apply in_map_iff in Hin as (e & [= _ <-] & He). apply list_elem_of_In in He.
    rewrite Forall_forall in IH. apply (IH e He).
    exact (proj2 (wf_names_entries _ _ e Hwf He)).
  - apply Forall_forall. auto.
Qed.

Lemma scan_walk_invariant (I : scan_state -> Prop) :
  (forall st out, I st ->
     I {| dic := dic st; small_videos := small_videos st;
          failed_items := failed_items st; log := log st ++ out |}) ->
  (forall dirpath entries st file st',
     good_name file = true ->
     visit_file cfg dirpath entries st file = Return st' -> I st -> I st') ->
  I empty_state ->
  forall fs root st,
    wf_names fs = true -> scan_walk cfg fs root = Return st -> I st.
Proof.
  intros Hlog Hfile Hempty fs root st Hwf. unfold scan_walk, resolve.
  destruct (nonempty root); [|now intros [= <-]].
  destruct (resolve_from [] fs (split_on slash root)) as [n|] eqn:Hr; [|now intros [= <-]].
  intros Hw. apply (walk_invariant I Hlog Hfile n root empty_state st); [|exact Hw|exact Hempty].
  refine (resolve_from_wf _ [] fs n _ Hwf Hr). constructor.
Qed.

Lemma dict_append_Forall (P : str -> Prop) k x (d : pydict (list str)) :
  P x -> Forall (fun item => Forall P (snd item)) d ->
  Forall (fun item => Forall P (snd item)) (dict_append k x d).
Proof.
  intros Hx Hd. apply Forall_forall. intros [k' l'] Hin. cbn [snd].
  rewrite Forall_forall in Hd.
  apply dict_append_elem in Hin as [Hin|(-> & l & Hl & ->)].
  - exact (Hd _ Hin).
  - apply Forall_app. split; [|now repeat constructor].
    destruct Hl as [->|Hl]; [constructor | exact (Hd _ Hl)].
Qed.

Lemma walk_gathers_listed fs root st :
  wf_names fs = true -> scan_walk cfg fs root = Return st -> gathered_ok cfg st.
Proof.
  apply (scan_walk_invariant (gathered_ok cfg)).
  - intros s out Hs. exact Hs.
  - intros dirpath entries s file s' Hgood. unfold visit_file.
    pose proof (basename_path_join dirpath file Hgood) as Hbase.
    case_bool_decide as Hext; [|now intros [= <-]].
    assert (Hl : listed cfg (path_join dirpath file)) by (unfold listed; now rewrite Hbase).
    destruct (getsize (lookup_entry file entries)) as [filesize|e]; step_bind; [|discriminate].
    destruct (filesize <? minimum_size cfg)%N.
    + intros [= <-] [Hd Hs]. split; cbn [dic small_videos]; [exact Hd|].
      now apply dict_append_Forall.
    + destruct (truthy (avid_of (path_join dirpath file))).
      * intros [= <-] [Hd Hs]. split; cbn [dic small_videos]; [|exact Hs].
        now apply dict_append_Forall.
      * intros [= <-] Hs. exact Hs.
  - split; constructor.
Qed.

(** X17. Every file of every movie of a scan has, in lower case, one of
    the extensions of [filename_extensions]: other files of the tree never
    reach a movie, neither directly nor as a small file that joins a
    group. *)
Theorem scan_movie_files_have_listed_extension (fs : node) (root : str)
    (out : scan_outcome) (m : Movie) (f : str)
    (Hwf : wf_names fs = true)
    (Hscan : scan_movies cfg fs root = Return out)
    (Hm : m ∈ movies out)
    (Hf : f ∈ files m) :
  lower (splitext_ext (basename f)) ∈ filename_extensions cfg.
Proof.
  destruct (scan_inversion cfg fs root out Hwf Hscan)
    as (st & d' & s' & h & notes & msg & Hwalk & Hst & Hmerge & [Hnd _] & Hkeys & Hms & _).
  destruct (walk_gathers_listed fs root st Hwf Hwalk) as [Hd Hs].
  apply list_elem_of_lookup in Hm as [i Hi].
  destruct (Forall2_lookup_r _ _ _ _ _ Hms Hi) as ([avid mapped] & Hk & _ & Hfiles).
  cbn [fst snd] in Hfiles.
  assert (Hin : (avid, mapped) ∈ kept_groups d') by (apply list_elem_of_lookup; now exists i).
  apply kept_groups_elem in Hin as (group & Hin & Hfate).
  destruct (group_fate_kept group mapped Hfate) as (Hperm & _ & _).
  rewrite Hfiles, Hperm in Hf.
  destruct (merge_small_videos_spec (dic st) (small_videos st) (proj1 (proj2 Hst)))
    as (d1 & h1 & Hm1 & _ & Hgrow & _).
  rewrite Hmerge in Hm1. injection Hm1 as <- _ _.
  pose proof (dict_get_NoDup avid group d' Hnd Hin) as Hget.
  assert (Ha : avid ∈ keys (dic st)) by (rewrite <- Hkeys; exact (elem_keys _ _ _ Hin)).
  destruct (dict_get avid (dic st)) as [g|] eqn:Hg;
    [|apply dict_get_None in Hg; contradiction].
  destruct (Hgrow avid g Hg) as (extra & He & Hfrom).
  assert (group = g ++ extra) as -> by congruence.
  apply elem_of_app in Hf as [Hf|Hf].
  - rewrite Forall_forall in Hd. pose proof (Hd _ (dict_get_elem _ _ _ Hg)) as Hall.
    rewrite Forall_forall in Hall. exact (Hall f Hf).
  - destruct (Hfrom f Hf) as (name & paths & Hn & Hp).
    rewrite Forall_forall in Hs. pose proof (Hs _ Hn) as Hall.
    rewrite Forall_forall in Hall. exact (Hall f Hp).
Qed.

Lemma walk_failures fs root st :
  wf_names fs = true -> scan_walk cfg fs root = Return st ->
  Forall (failure_ok cfg (log st)) (failed_items st).
Proof.
  apply (scan_walk_invariant (fun st => Forall (failure_ok cfg (log st)) (failed_items st))).
  - intros s out Hs. cbn [failed_items log]. eapply Forall_impl; [exact Hs|].
    intros fail (Hd & Hc & p & Hf & Hi & Hci & Hl & Hw).
    split; [exact Hd|]. split; [exact Hc|]. exists p. repeat split; try assumption.
    apply elem_of_app. now left.
  - intros dirpath entries s file s' Hgood. unfold visit_file.
    pose proof (basename_path_join dirpath file Hgood) as Hbase.
    case_bool_decide as Hext; [|now intros [= <-]].
    destruct (getsize (lookup_entry file entries)) as [filesize|e]; step_bind; [|discriminate].
    destruct (filesize <? minimum_size cfg)%N; [now intros [= <-]|].
    destruct (truthy (avid_of (path_join dirpath file))) eqn:Havid; [now intros [= <-]|].
    intros [= <-] Hs. cbn [failed_items log]. apply Forall_app. split.
    + eapply Forall_impl; [exact Hs|].
      intros fail (Hd & Hc & p & Hf & Hi & Hci & Hl & Hw).
      split; [exact Hd|]. split; [exact Hc|]. exists p. repeat split; try assumption.
      apply elem_of_app. now left.
    + constructor; [|constructor].
      split; [reflexivity|]. split; [reflexivity|].
      exists (path_join dirpath file). split; [reflexivity|].
      unfold avid_of in Havid.
      destruct (truthy (get_cid (path_join dirpath file))) eqn:Hcid; [congruence|].
      split; [exact Havid|]. split; [reflexivity|].
      split; [unfold listed; now rewrite Hbase|].
      apply elem_of_app. right. left.
  - constructor.
Qed.

(** X18. Every item that a scan adds to the failed items stands for one
    file of a listed extension for which neither [get_id] nor [get_cid]
    gave an identifier; it carries the marker as its dvd identifier, and
    the scan has written an error for its path. *)
Theorem scan_failures_are_unidentified_files (fs : node) (root : str)
    (out : scan_outcome) (fail : Movie)
    (Hwf : wf_names fs = true)
    (Hscan : scan_movies cfg fs root = Return out)
    (Hfail : fail ∈ failures out) :
  dvdid fail = Some unrecognized_marker /\ cid fail = None /\
  exists fullpath,
    files fail = [fullpath] /\
    truthy (get_id fullpath) = false /\ truthy (get_cid fullpath) = false /\
    lower (splitext_ext (basename fullpath)) ∈ filename_extensions cfg /\
    Error_no_avid fullpath ∈ written out.
Proof.
  destruct (scan_inversion cfg fs root out Hwf Hscan)
    as (st & d' & s' & h & notes & msg & Hwalk & _ & _ & _ & _ & _ & Hfails & Hwritten).
  pose proof (walk_failures fs root st Hwf Hwalk) as Hall.
  rewrite Forall_forall in Hall. rewrite Hfails in Hfail.
  destruct (Hall fail Hfail) as (Hd & Hc & p & Hf & Hi & Hci & Hl & Hw).
  split; [exact Hd|]. split; [exact Hc|]. exists p. repeat split; try assumption.
  rewrite Hwritten. apply elem_of_app. now left.
Qed.

End Gathered.

Lemma scan_movie_files_have_listed_extension_witness :
  lower (splitext_ext (basename (py "videos/movie.b.mp4"))) ∈ filename_extensions sample_cfg.
Proof.
  apply (@scan_movie_files_have_listed_extension sample_lib sample_cfg slices_tree
           (py "videos") slices_outcome movie_abc (py "videos/movie.b.mp4")).
  - reflexivity.
  - vm_compute. reflexivity.
  - left.
  - right. left.
Defined.

Lemma scan_failures_are_unidentified_files_witness :
  dvdid unknown_item = Some unrecognized_marker /\ cid unknown_item = None /\
  exists fullpath,
    files unknown_item = [fullpath] /\
    truthy (@get_id sample_lib fullpath) = false /\
    truthy (@get_cid sample_lib fullpath) = false /\
    lower (splitext_ext (basename fullpath)) ∈ filename_extensions sample_cfg /\
    Error_no_avid fullpath ∈ written slices_outcome.
Proof.
  apply (@scan_failures_are_unidentified_files sample_lib sample_cfg slices_tree
           (py "videos") slices_outcome unknown_item).
  - reflexivity.
  - vm_compute. reflexivity.
  - left.
Defined.

(** ** The files of full size *)

Lemma split_on_nonempty sep s : split_on sep s <> [].
Proof.
  destruct s as [|c s]; cbn [split_on]; [discriminate|].
  destruct (char_eqb c sep); [discriminate|].
  destruct (split_on sep s); discriminate.
Qed.

Lemma split_on_app sep a b :
  split_on sep (a ++ sep :: b) = split_on sep a ++ split_on sep b.
Proof.
  induction a as [|c a IH]; cbn [app split_on].
  - now rewrite (proj2 (char_eqb_eq sep sep) eq_refl).
  - destruct (char_eqb c sep); [now rewrite IH|].
    rewrite IH. pose proof (split_on_nonempty sep a) as Hne.
    destruct (split_on sep a) as [|w ws]; [congruence | reflexivity].
Qed.

(** Resolution of a path in two parts. *)
Lemma resolve_from_app comps :
  forall above cur n,
    resolve_from above cur comps = Some n ->
    exists above', forall rest,
      resolve_from above cur (comps ++ rest) = resolve_from above' n rest.
Proof.
  induction comps as [|comp comps IH]; intros above cur n; cbn [resolve_from app].
  - intros [= <-]. now exists above.
  - destruct cur as [size|readable entries|]; [discriminate| |discriminate].
    destruct (negb (nonempty comp) || bool_decide (comp = py ".")); [apply IH|].
    case_bool_decide.
    + destruct above as [|parent above']; apply IH.
    + destruct (lookup_entry comp entries) as [child|]; [apply IH | discriminate].
Qed.

Lemma resolve_from_prefix comps rest :
  forall above cur n,
    resolve_from above cur (comps ++ rest) = Some n ->
    exists n', resolve_from above cur comps = Some n'.
Proof.
  induction comps as [|comp comps IH]; intros above cur n; cbn [resolve_from app].
  - intros _. now exists cur.
  - destruct cur as [size|readable entries|]; [discriminate| |discriminate].
    destruct (negb (nonempty comp) || bool_decide (comp = py ".")); [apply IH|].
    case_bool_decide.
    + destruct above as [|parent above']; apply IH.
    + destruct (lookup_entry comp entries) as [child|]; [apply IH | discriminate].
Qed.

Lemma proper_name_good name : proper_name name = true -> good_name name = true.
Proof.
  unfold proper_name. intros Hp.
  apply andb_true_iff in Hp as [Hp _]. now apply andb_true_iff in Hp as [Hp _].
Qed.

Lemma resolve_from_entry above r entries name :
  proper_name name = true ->
  resolve_from above (Dir r entries) [name] = lookup_entry name entries.
Proof.
  unfold proper_name. intros Hp.
  apply andb_true_iff in Hp as [Hp Hdd]. apply andb_true_iff in Hp as [Hg Hd].
  apply negb_true_iff in Hd, Hdd.
  pose proof (good_name_nonempty name Hg) as Hne.
  cbn [resolve_from]. rewrite Hd, Hdd.
  destruct name as [|c name]; [congruence|]. cbn [nonempty negb orb].
  destruct (lookup_entry (c :: name) entries); reflexivity.
Qed.

(** The path of an entry of a directory resolves to the entry. *)
Lemma resolve_child fs dirpath r entries name :
  resolve fs dirpath = Some (Dir r entries) -> proper_name name = true ->
  resolve fs (path_join dirpath name) = lookup_entry name entries.
Proof.
  intros Hdir Hp. pose proof (proper_name_good name Hp) as Hg.
  pose proof (good_name_no_slash name Hg) as Hns.
  unfold resolve in Hdir. destruct (nonempty dirpath) eqn:Hne; [|discriminate].
  unfold path_join.
  assert (Hs : startswith name [slash] = false).
  { unfold startswith. apply bool_decide_eq_false_2. intros [k ->]. apply Hns. now left. }
  rewrite Hs, Hne. cbn [negb orb]. unfold endswith. case_bool_decide as Hend.
  - destruct Hend as [d ->]. unfold resolve.
    assert (nonempty ((d ++ [slash]) ++ name) = true) as ->
        by (destruct d; reflexivity).
    rewrite <- app_assoc. cbn [app]. rewrite split_on_app, (split_on_no_sep slash name Hns).
    change (d ++ [slash]) with (d ++ slash :: []) in Hdir.
    rewrite split_on_app in Hdir. cbn [split_on] in Hdir.
    destruct (resolve_from_prefix _ _ _ _ _ Hdir) as [n' Hn'].
    destruct (resolve_from_app _ _ _ _ Hn') as [above' Happ].
    rewrite Happ in Hdir. rewrite Happ.
    destruct n' as [size|r' entries'|]; cbn [resolve_from] in Hdir; try discriminate.
    cbn [nonempty negb orb] in Hdir. injection Hdir as -> ->.
    now apply resolve_from_entry.
  - unfold resolve.
    assert (nonempty (dirpath ++ [slash] ++ name) = true) as ->
        by (destruct dirpath; reflexivity).
    cbn [app]. rewrite split_on_app, (split_on_no_sep slash name Hns).
    destruct (resolve_from_app _ _ _ _ Hdir) as [above' Happ].
    rewrite Happ. now apply resolve_from_entry.
Qed.

Lemma proper_names_entries readable entries e :
  proper_names (Dir readable entries) = true -> e ∈ entries ->
  proper_name (fst e) = true /\ proper_names (snd e) = true.
Proof.
  cbn [proper_names]. intros Hwf Hin. rewrite forallb_forall in Hwf.
  apply list_elem_of_In in Hin. now apply andb_true_iff, Hwf.
Qed.

Lemma proper_names_wf n : proper_names n = true -> wf_names n = true.
Proof.
  induction n as [size|readable entries IH|] using node_induction; [reflexivity| |reflexivity].
  intros Hp. cbn [wf_names]. apply forallb_forall. intros e He.
  apply list_elem_of_In in He.
  destruct (proper_names_entries _ _ e Hp He) as [Hn Hc].
  rewrite Forall_forall in IH.
  apply andb_true_iff. split; [now apply proper_name_good | now apply (IH e He)].
Qed.

Lemma resolve_from_proper comps :
  forall above cur n,
    Forall (fun a => proper_names a = true) above -> proper_names cur = true ->
    resolve_from above cur comps = Some n -> proper_names n = true.
Proof.
  induction comps as [|comp comps IH]; intros above cur n Ha Hc; cbn [resolve_from].
  - now intros [= <-].
  - destruct cur as [size|readable entries|]; [discriminate| |discriminate].
    destruct (negb (nonempty comp) || bool_decide (comp = py ".")); [now apply IH|].
    case_bool_decide.
    + destruct above as [|parent above']; [now apply IH|].
      apply Forall_cons in Ha as [Hp Ha]. now apply IH.
    + destruct (lookup_entry comp entries) as [child|] eqn:Hl; [|discriminate].
      apply lookup_entry_elem in Hl.
      apply IH; [now constructor|].
      exact (proj2 (proper_names_entries _ _ _ Hc Hl)).
Qed.

(** The walk that [List.find] picks for a name is the walk of the entry
    that the name resolves to. *)
Lemma find_subwalk {W : Type} (f : str -> node -> W) name entries name' w :
  List.find (fun x : str * W => bool_decide (fst x = name))
            (map (fun e => (fst e, f (fst e) (snd e))) entries) = Some (name', w) ->
  exists child, lookup_entry name entries = Some child /\ w = f name child.
Proof.
  induction entries as [|[n c] entries IH]; cbn [map List.find lookup_entry fst snd];
    [discriminate|].
  case_bool_decide as Hn.
  - intros [= _ <-]. subst. now exists c.
  - exact IH.
Qed.

Section FullSize.

Context `{AvidLib} (cfg : Cfg) (fs : node).

Lemma visit_file_full_size dirpath r entries st file st' :
  resolve fs dirpath = Some (Dir r entries) -> proper_name file = true ->
  visit_file cfg dirpath entries st file = Return st' ->
  Forall (from_full_size cfg fs) (dic st) -> Forall (from_full_size cfg fs) (dic st').
Proof.
  intros Hdir Hp. unfold visit_file.
  case_bool_decide as Hext; [|now intros [= <-]].
  destruct (getsize (lookup_entry file entries)) as [filesize|e] eqn:Hsize;
    step_bind; [|discriminate].
  destruct (N.ltb_spec filesize (minimum_size cfg)) as [Hlt|Hge]; [now intros [= <-]|].
  destruct (avid_of (path_join dirpath file)) as [[|c a]|] eqn:Havid; cbn [truthy];
    try (now intros [= <-]).
  intros [= <-] Hd. cbn [dic default].
  assert (Hfull : avid_of (path_join dirpath file) = Some (c :: a) /\
                  full_size cfg fs (path_join dirpath file)).
  { split; [exact Havid|]. exists filesize.
    rewrite (resolve_child fs dirpath r entries file Hdir Hp). now split. }
  apply Forall_forall. intros [k l] Hin. rewrite Forall_forall in Hd.
  apply dict_append_elem in Hin as [Hin|(-> & l0 & Hl0 & ->)]; [exact (Hd _ Hin)|].
  split; cbn [fst snd].
  - destruct l0; discriminate.
  - apply Forall_app. split; [|now repeat constructor].
    destruct Hl0 as [->|Hl0]; [constructor|]. exact (proj2 (Hd _ Hl0)).
Qed.

Lemma walk_full_size n :
  forall dirpath st st',
    proper_names n = true -> resolve fs dirpath = Some n ->
    walk cfg dirpath n st = Return st' ->
    Forall (from_full_size cfg fs) (dic st) -> Forall (from_full_size cfg fs) (dic st').
Proof.
  induction n as [size|readable entries IH|] using node_induction;
    intros dirpath st st' Hwf Hdir; [now intros [= <-]| |now intros [= <-]].
  destruct readable; [|now intros [= <-]].
  cbn [walk]. unfold visit_dir.
  destruct (for_each (prune_step cfg entries) _ _) as [[dirnames out]|e];
    step_bind; [|discriminate].
  destruct (for_each (visit_file cfg dirpath entries) _ _) as [st1|e] eqn:Hfiles;
    step_bind; [|discriminate].
  intros Hdirs Hst.
  assert (Hst1 : Forall (from_full_size cfg fs) (dic st1)).
  { eapply (for_each_invariant (fun s => Forall (from_full_size cfg fs) (dic s))
                               (fun file => proper_name file = true));
      [| |exact Hfiles|exact Hst].
    - intros s x s' Hx Hv. exact (visit_file_full_size dirpath true entries s x s' Hdir Hx Hv).
    - apply Forall_forall. intros file Hin.
      apply list_elem_of_In, in_map_iff in Hin as (e & <- & He).
      apply filter_In in He as [He _].
      apply list_elem_of_In in He. exact (proj1 (proper_names_entries _ _ e Hwf He)). }
  revert Hdirs Hst1.
  apply (for_each_invariant (fun s => Forall (from_full_size cfg fs) (dic s))
                            (fun _ : str => True)).
  - intros s name s' _.
    destruct (List.find _ _) as [[name' w]|] eqn:Hfind; [|now intros [= <-]].
    apply (find_subwalk (fun n c => walk cfg (path_join dirpath n) c)) in Hfind
      as (child & Hchild & ->).
    pose proof (lookup_entry_elem _ _ _ Hchild) as He.
    destruct (proper_names_entries _ _ _ Hwf He) as [Hname Hsub]. cbn [fst snd] in *.
    rewrite Forall_forall in IH. apply (IH _ He); [exact Hsub|].
    now rewrite (resolve_child fs dirpath true entries name Hdir Hname).
  - apply Forall_forall. auto.
Qed.

Lemma scan_walk_full_size root st :
  proper_names fs = true -> scan_walk cfg fs root = Return st ->
  Forall (from_full_size cfg fs) (dic st).
Proof.
  intros Hwf. unfold scan_walk.
  destruct (resolve fs root) as [n|] eqn:Hr; [|intros [= <-]; constructor].
  intros Hw. apply (walk_full_size n root empty_state st); [|exact Hr|exact Hw|constructor].
  unfold resolve in Hr. destruct (nonempty root); [|discriminate].
  refine (resolve_from_proper _ [] fs n _ Hwf Hr). constructor.
Qed.

(** X21. A small file never makes a movie of its own: every movie of a
    scan holds a file whose own path gives the identifier of the movie and
    whose size, as [os.path.getsize] reads it in the tree, is at least the
    minimum. *)
Theorem scan_movie_holds_a_full_size_file (root : str) (out : scan_outcome) (m : Movie)
    (Hnames : proper_names fs = true)
    (Hscan : scan_movies cfg fs root = Return out)
    (Hm : m ∈ movies out) :
  exists avid f size,
    movie_avid m = Some avid /\ f ∈ files m /\ avid_of f = Some avid /\
    getsize (resolve fs f) = Return size /\ (minimum_size cfg <= size)%N.
Proof.
  pose proof (proper_names_wf fs Hnames) as Hwf.
  destruct (scan_inversion cfg fs root out Hwf Hscan)
    as (st & d' & s' & h & notes & msg & Hwalk & Hst & Hmerge & [Hnd _] & Hkeys & Hms & _).
  pose proof (scan_walk_full_size root st Hnames Hwalk) as Hfull.
  apply list_elem_of_lookup in Hm as [i Hi].
  destruct (Forall2_lookup_r _ _ _ _ _ Hms Hi) as ([avid mapped] & Hk & Ha & Hfiles).
  cbn [fst snd] in Ha, Hfiles.
  assert (Hin : (avid, mapped) ∈ kept_groups d') by (apply list_elem_of_lookup; now exists i).
  apply kept_groups_elem in Hin as (group & Hin & Hfate).
  destruct (group_fate_kept group mapped Hfate) as (Hperm & _ & _).
  destruct (merge_small_videos_spec (dic st) (small_videos st) (proj1 (proj2 Hst)))
    as (d1 & h1 & Hm1 & _ & Hgrow & _).
  rewrite Hmerge in Hm1. injection Hm1 as <- _ _.
  pose proof (dict_get_NoDup avid group d' Hnd Hin) as Hget.
  assert (Hav : avid ∈ keys (dic st)) by (rewrite <- Hkeys; exact (elem_keys _ _ _ Hin)).
  destruct (dict_get avid (dic st)) as [g|] eqn:Hg;
    [|apply dict_get_None in Hg; contradiction].
  destruct (Hgrow avid g Hg) as (extra & He & _).
  assert (group = g ++ extra) as -> by congruence.
  rewrite Forall_forall in Hfull.
  destruct (Hfull _ (dict_get_elem _ _ _ Hg)) as [Hne Hall]. cbn [fst snd] in Hne, Hall.
  destruct g as [|f g]; [congruence|].
  apply Forall_cons in Hall as [[Havid (size & Hsize & Hmin)] _].
  exists avid, f, size. split; [exact Ha|]. split; [|now repeat split].
  rewrite Hfiles, Hperm. left.
Qed.

End FullSize.

Lemma scan_movie_holds_a_full_size_file_witness :
  exists avid f size,
    movie_avid movie_abc = Some avid /\ f ∈ files movie_abc /\
    @avid_of sample_lib f = Some avid /\
    getsize (resolve slices_tree f) = Return size /\ (minimum_size sample_cfg <= size)%N.
Proof.
  apply (@scan_movie_holds_a_full_size_file sample_lib sample_cfg slices_tree
           (py "videos") slices_outcome movie_abc).
  - reflexivity.
  - vm_compute. reflexivity.
  - left.
Defined.

(** ** Names without illegal characters *)

Lemma has_pardir_cons_other c t : c <> dot -> has_pardir (c :: t) = has_pardir t.
Proof.
  intros Hc. cbn [has_pardir]. destruct t as [|b t].
  - reflexivity.
  - destruct (N.eqb_spec c dot); [contradiction|]. reflexivity.
Qed.

Lemma has_pardir_sub_run d c t :
  c <> dot -> has_pardir (sub_run d ++ c :: t) = has_pardir t.
Proof.
  intros Hc. destruct d as [|[|d]]; cbn [sub_run app].
  - now apply has_pardir_cons_other.
  - cbn [has_pardir]. destruct (N.eqb_spec c dot); [contradiction|].
    rewrite andb_false_r. cbn [orb]. destruct t; reflexivity.
  - rewrite has_pardir_cons_other by discriminate. now apply has_pardir_cons_other.
Qed.

Lemma sub_pardir_no_pardir name : forall dots, has_pardir (sub_pardir dots name) = false.
Proof.
  induction name as [|c rest IH]; intros dots; cbn [sub_pardir].
  - destruct dots as [|[|d]]; reflexivity.
  - destruct (N.eqb_spec c dot) as [Hc|Hc]; [apply IH|].
    rewrite has_pardir_sub_run by assumption. apply IH.
Qed.

Lemma sub_pardir_In x name :
  forall dots, In x (sub_pardir dots name) -> x = ellipsis \/ x = dot \/ In x name.
Proof.
  induction name as [|c rest IH]; intros dots; cbn [sub_pardir].
  - destruct dots as [|[|d]]; cbn; intuition auto.
  - destruct (N.eqb_spec c dot) as [Hc|Hc].
    + intros Hin. destruct (IH _ Hin) as [?|[?|?]]; [auto|auto|right; right; now right].
    + intros Hin. apply in_app_or in Hin as [Hin|[Hin|Hin]].
      * destruct dots as [|[|d]]; cbn in Hin; intuition auto.
      * right. right. now left.
      * destruct (IH _ Hin) as [?|[?|?]]; [auto|auto|right; right; now right].
Qed.

Lemma replace_code_In c rep name x :
  In x (replace_code c rep name) -> x = rep \/ (x <> c /\ In x name).
Proof.
  unfold replace_code. intros Hin. apply in_map_iff in Hin as (y & Hy & Hin).
  destruct (N.eqb_spec y c) as [Heq|Hne]; [now left|]. subst. right. now split.
Qed.

Lemma replace_code_absent c rep name : ~ In c name -> replace_code c rep name = name.
Proof.
  unfold replace_code. intros Hc. rewrite <- (map_id name) at 2. apply map_ext_in.
  intros y Hy. destruct (N.eqb_spec y c) as [Heq|Hne]; [subst; contradiction | reflexivity].
Qed.

Lemma charmap_replaced name x :
  In x (fold_left (fun name item => replace_code (fst item) (snd item) name) charmap name) ->
  ~ In x (map fst charmap).
Proof.
  cbn [fold_left charmap fst snd]. intros Hin.
  repeat (apply replace_code_In in Hin as [->|[? Hin]];
          [cbn; intuition discriminate|]).
  cbn. intuition congruence.
Qed.

Lemma charmap_absent name :
  (forall c, In c (map fst charmap) -> ~ In c name) ->
  fold_left (fun name item => replace_code (fst item) (snd item) name) charmap name = name.
Proof.
  intros Hclean. cbn [fold_left charmap fst snd].
  repeat rewrite (replace_code_absent _ _ name) by (apply Hclean; cbn; intuition auto).
  reflexivity.
Qed.

Lemma replaced_legal platform name :
  has_pardir (replace_illegal_chars platform name) = false /\
  forall c, In c (illegal_codes platform) -> ~ In c (replace_illegal_chars platform name).
Proof.
  unfold replace_illegal_chars, illegal_codes.
  set (replaced :=
         if bool_decide (platform = py "win32")
         then fold_left (fun name item => replace_code (fst item) (snd item) name) charmap name
         else if bool_decide (platform = py "darwin") then replace_code 58 65306 name
              else replace_code 47 65295 name).
  assert (Hrep : forall c,
            In c (if bool_decide (platform = py "win32") then map fst charmap
                  else if bool_decide (platform = py "darwin") then [58%N] else [47%N]) ->
            ~ In c replaced /\ c <> ellipsis /\ c <> dot).
  { intros c Hc. subst replaced. case_bool_decide.
    - split; [intros Hin; now apply charmap_replaced in Hin|].
      cbn in Hc. intuition (subst; discriminate).
    - case_bool_decide; destruct Hc as [<-|[]];
        (split; [|split; discriminate]); intros Hin;
        apply replace_code_In in Hin as [?|[? _]]; [discriminate|congruence..]. }
  destruct (has_pardir replaced) eqn:Hp.
  - split; [apply sub_pardir_no_pardir|]. intros c Hc Hin.
    destruct (Hrep c Hc) as (Hn & He & Hd).
    apply sub_pardir_In in Hin as [?|[?|?]]; contradiction.
  - split; [exact Hp|]. intros c Hc. exact (proj1 (Hrep c Hc)).
Qed.

Lemma clean_kept platform name :
  has_pardir name = false ->
  (forall c, In c (illegal_codes platform) -> ~ In c name) ->
  replace_illegal_chars platform name = name.
Proof.
  unfold replace_illegal_chars, illegal_codes. intros Hp Hclean.
  assert ((if bool_decide (platform = py "win32")
           then fold_left (fun name item => replace_code (fst item) (snd item) name)
                          charmap name
           else if bool_decide (platform = py "darwin") then replace_code 58 65306 name
                else replace_code 47 65295 name) = name) as ->.
  { case_bool_decide; [now apply charmap_absent|].
    case_bool_decide; apply replace_code_absent, Hclean; now left. }
  now rewrite Hp.
Qed.

(** X22. The name that [replace_illegal_chars] returns holds none of the
    characters that it replaces on the platform, and nowhere two dots in a
    row. *)
Theorem replaced_name_is_legal (platform : str) (name : text) :
  has_pardir (replace_illegal_chars platform name) = false /\
  forall c, In c (illegal_codes platform) -> ~ In c (replace_illegal_chars platform name).
Proof. apply replaced_legal. Qed.

(** X23. A name that holds none of the characters of the platform and no
    two dots in a row is returned as it is. *)
Theorem clean_name_is_kept (platform : str) (name : text)
    (Hdots : has_pardir name = false)
    (Hclean : forall c, In c (illegal_codes platform) -> ~ In c name) :
  replace_illegal_chars platform name = name.
Proof. now apply clean_kept. Qed.

Lemma clean_name_is_kept_witness :
  replace_illegal_chars (py "linux") (text_of (py "ABC-123: a.b")) = text_of (py "ABC-123: a.b").
Proof.
  apply (clean_name_is_kept (py "linux") (text_of (py "ABC-123: a.b"))).
  - reflexivity.
  - intros c [<-|[]]. vm_compute. intuition discriminate.
Defined.

(** X24. Replacing twice gives what replacing once gives. *)
Theorem replace_illegal_chars_idempotent (platform : str) (name : text) :
  replace_illegal_chars platform (replace_illegal_chars platform name)
  = replace_illegal_chars platform name.
Proof.
  destruct (replaced_legal platform name) as [Hp Hclean]. now apply clean_kept.
Qed.

(** ** Subtitles *)



Section SubtitleFacts.

Context `{AvidLib}.



(** X25. A folder is walked once: after a call for [folder], every later
    call for it answers from what that call left, whatever the file system
    has become, and leaves the cache as it is. *)
Theorem subtitles_of_a_folder_are_read_once (fs fs' : node)
    (_sub_files : pydict (pydict str)) (folder dvdid dvdid' : str) :
  find_subtitle_in_dir fs' (snd (find_subtitle_in_dir fs _sub_files folder dvdid))
                       folder dvdid'
  = (fst (find_subtitle_in_dir fs _sub_files folder dvdid'),
     snd (find_subtitle_in_dir fs _sub_files folder dvdid)).
Proof.
  unfold find_subtitle_in_dir at 2 3 4.
  destruct (dict_get folder _sub_files) as [folder_data|] eqn:Hget; cbn [fst snd].
  - unfold find_subtitle_in_dir. now rewrite Hget.
  - unfold find_subtitle_in_dir. now rewrite dict_get_set_eq.
Qed.


End SubtitleFacts.


(** ** The records of the movies *)

Section MovieRecords.

Context `{AvidLib} (cfg : Cfg).

Lemma scan_movies_built fs root out m :
  scan_movies cfg fs root = Return out -> m ∈ movies out ->
  exists item, movie_of item = Return m.
Proof.
  unfold scan_movies. destruct (scan_walk cfg fs root) as [st|e]; step_bind; [|discriminate].
  unfold finish_scan.
  destruct (merge_small_videos (dic st) (small_videos st)) as [[d s] h].
  destruct (check_duplicates d) as [checked|e]; step_bind; [|discriminate].
  destruct (duplicate_message root (non_slice_dup checked)) as [msg|e];
    step_bind; [|discriminate].
  destruct (map_result movie_of (groups checked)) as [ms|e] eqn:Hms;
    step_bind; [|discriminate].
  intros [= <-]. cbn [movies]. intros Hm.
  apply map_result_Forall2 in Hms.
  apply list_elem_of_lookup in Hm as [i Hi].
  destruct (Forall2_lookup_r _ _ _ _ _ Hms Hi) as (item & _ & Hitem).
  now exists item.
Qed.

(** X27. The record of every movie of a scan: its kind is the one that
    [guess_av_type] gives for its identifier; a movie of kind [cid] has the
    identifier as content identifier and the dvd identifier of its first
    file next to it, any other movie has the identifier as dvd identifier
    and no content identifier. *)
Theorem scan_movie_record_follows_kind (fs : node) (root : str) (out : scan_outcome)
    (m : Movie)
    (Hscan : scan_movies cfg fs root = Return out)
    (Hm : m ∈ movies out) :
  exists avid,
    movie_avid m = Some avid /\ data_src m = Some (guess_av_type avid) /\
    if bool_decide (guess_av_type avid = py "cid")
    then cid m = Some avid /\
         exists first, head (files m) = Some first /\ dvdid m = get_id first
    else dvdid m = Some avid /\ cid m = None.
Proof.
  destruct (scan_movies_built fs root out m Hscan Hm) as ([avid group] & Hitem).
  exists avid. unfold movie_of in Hitem.
  case_bool_decide as Hsrc; cbn [negb] in Hitem.
  - destruct group as [|f group]; [discriminate|].
    change (list_at (f :: group) 0) with (Return (A:=str) f) in Hitem.
    rewrite bind_Return in Hitem. injection Hitem as <-.
    unfold movie_avid. cbn [data_src cid dvdid files]. rewrite Hsrc.
    rewrite bool_decide_eq_true_2 by reflexivity.
    split; [reflexivity|]. split; [reflexivity|]. split; [reflexivity|].
    now exists f.
  - injection Hitem as <-. unfold movie_avid. cbn [data_src cid dvdid files].
    rewrite bool_decide_eq_false_2 by (intros [= Heq]; now apply Hsrc).
    repeat split; reflexivity.
Qed.

End MovieRecords.

Lemma scan_movie_record_follows_kind_witness :
  exists avid,
    movie_avid movie_abc = Some avid /\
    data_src movie_abc = Some (@guess_av_type sample_lib avid) /\
    if bool_decide (@guess_av_type sample_lib avid = py "cid")
    then cid movie_abc = Some avid /\
         exists first, head (files movie_abc) = Some first /\
                       dvdid movie_abc = @get_id sample_lib first
    else dvdid movie_abc = Some avid /\ cid movie_abc = None.
Proof.
  apply (@scan_movie_record_follows_kind sample_lib sample_cfg slices_tree (py "videos")
           slices_outcome movie_abc).
  - vm_compute. reflexivity.
  - left.
Defined.
